(** * Byzantine agreement over a partial topology

    A shallow embedding of [model/old/node.py] (classes [Node], [Commander],
    [Network], [PartialTopologyBFT]) and of the nodes of
    [model/old/nodeplus.py] ([SignedMessagesNode], [OralMessagesNode]), with
    the properties of the graph analysis, the multi-path relay, the final
    vote and the relays of the two nodes.

    Conventions.
    - A Python [int] is a [Z]; a [str] is a [string]; a [list] is a [list].
    - A Python [dict] keeps insertion order and has unique keys: it is an
      association list ([Dict.t]) whose [set] overwrites in place or
      appends at the end.
    - A Python [set] is used by the code for membership, union and
      intersection only, except for the adjacency sets, which are also
      iterated: a set is a list, and every general theorem below holds for
      whatever order the adjacency lists are in.
    - The builtin [int] applied to a string a node is handed is a
      parameter of the signed-message node: a function from strings to
      integers that may fail. Statements that read a signature back
      assume of it only that it reads the numerals [str] writes
      ([reads_str]).
    - The two [while queue] loops take a fuel argument and return [None]
      when it runs out; [find_all_paths_terminates] and
      [bfs_loop_terminates] prove that the fuel the callers pass is always
      enough. *)

From Stdlib Require Import String Ascii.
From Stdlib Require Import ZArith List Bool Lia Permutation.
From Stdlib Require Import DecimalString DecimalZ.
Import ListNotations.
Open Scope Z_scope.

(** ** Python containers *)

Module Dict.
Section WithValue.
Context {V : Type}.

Definition t := list (Z * V).

(** [d.get(k)] *)
Fixpoint get (d : list (Z * V)) (k : Z) : option V :=
  match d with
  | [] => None
  | (k', v) :: r => if k' =? k then Some v else get r k
  end.

(** [k in d] *)
Definition mem (d : list (Z * V)) (k : Z) : bool :=
  match get d k with Some _ => true | None => false end.

(** [d[k] = v]: an existing key keeps its position. *)
Fixpoint set (d : list (Z * V)) (k : Z) (v : V) : list (Z * V) :=
  match d with
  | [] => [(k, v)]
  | (k', v') :: r => if k' =? k then (k, v) :: r else (k', v') :: set r k v
  end.

Definition keys (d : list (Z * V)) : list Z := map fst d.
Definition values (d : list (Z * V)) : list V := map snd d.
End WithValue.
End Dict.

(** [x in l] for a list or a set of ints. *)
Definition memZ (x : Z) (l : list Z) : bool := existsb (Z.eqb x) l.

(** [set(l)] for a list of ints: duplicates dropped. *)
Fixpoint py_set (l : list Z) : list Z :=
  match l with
  | [] => []
  | x :: r => if memZ x r then py_set r else x :: py_set r
  end.

(** [len(l)] *)
Definition len {A : Type} (l : list A) : Z := Z.of_nat (length l).

(** ** Decision values *)

Definition value := string.
Definition ATTACK : value := "ATTACK"%string.
Definition RETREAT : value := "RETREAT"%string.
Definition DEFAULT_VALUE : value := RETREAT.

(** [values.count(v)] *)
Definition count (v : value) (l : list value) : Z :=
  len (filter (String.eqb v) l).

(** ** The graph: [self.graph], a dict from node id to adjacency set *)

Definition graph_t := list (Z * list Z).

(** [self.graph.get(current, [])] *)
Definition graph_get (g : graph_t) (current : Z) : list Z :=
  match Dict.get g current with Some s => s | None => [] end.

(** *** [find_all_paths] *)

(** The body of [for neighbor in ...: if neighbor not in path:
    queue.append((neighbor, path + [neighbor]))]. *)
Definition extend_path (g : graph_t) (current : Z) (path : list Z)
  : list (Z * list Z) :=
  map (fun neighbor => (neighbor, path ++ [neighbor]))
      (filter (fun neighbor => negb (memZ neighbor path)) (graph_get g current)).

(** The [while queue] loop of [find_all_paths]. *)
Fixpoint find_all_paths_loop (fuel : nat) (g : graph_t) (target max_length : Z)
    (queue : list (Z * list Z)) (paths : list (list Z))
  : option (list (list Z)) :=
  match fuel with
  | O => None
  | S fuel' =>
    match queue with
    | [] => Some paths
    | (current, path) :: queue' =>
      if current =? target then
        find_all_paths_loop fuel' g target max_length queue' (paths ++ [path])
      else if len path >=? max_length then
        find_all_paths_loop fuel' g target max_length queue' paths
      else
        find_all_paths_loop fuel' g target max_length
          (queue' ++ extend_path g current path) paths
    end
  end.

(** A bound on the number of queue entries a path of the queue can still
    give rise to, itself included, when [r] more hops are allowed and no
    adjacency set has more than [d] elements. *)
Fixpoint path_weight (d r : nat) : nat :=
  match r with
  | O => 1
  | S r' => 1 + d * path_weight d r'
  end.

Definition max_degree (g : graph_t) : nat :=
  fold_right (fun kv acc => Nat.max (length (snd kv)) acc) 0%nat g.

Definition entry_weight (g : graph_t) (max_length : Z) (e : Z * list Z) : nat :=
  path_weight (max_degree g) (Z.to_nat (max_length - len (snd e))).

Definition queue_weight (g : graph_t) (max_length : Z)
    (queue : list (Z * list Z)) : nat :=
  fold_right (fun e acc => (entry_weight g max_length e + acc)%nat) 0%nat queue.

Definition find_all_paths_fuel (g : graph_t) (source max_length : Z) : nat :=
  S (queue_weight g max_length [(source, [source])]).

Definition find_all_paths_opt (g : graph_t) (source target max_length : Z)
  : option (list (list Z)) :=
  if negb (Dict.mem g source) || negb (Dict.mem g target) then Some []
  else find_all_paths_loop (find_all_paths_fuel g source max_length)
         g target max_length [(source, [source])] [].

Definition find_all_paths (g : graph_t) (source target max_length : Z)
  : list (list Z) :=
  match find_all_paths_opt g source target max_length with
  | Some paths => paths
  | None => []
  end.

(** *** Edges and [find_disjoint_paths] *)

(** [tuple(sorted([a, b]))] *)
Definition edge := (Z * Z)%type.
Definition sorted_edge (a b : Z) : edge := (Z.min a b, Z.max a b).

Definition edge_eqb (e1 e2 : edge) : bool :=
  (fst e1 =? fst e2) && (snd e1 =? snd e2).

Definition mem_edge (e : edge) (s : list edge) : bool := existsb (edge_eqb e) s.

(** [s.add(e)] *)
Definition add_edge (s : list edge) (e : edge) : list edge :=
  if mem_edge e s then s else s ++ [e].

(** The edge set built by [for i in range(len(path) - 1)]. *)
Fixpoint path_edges_from (acc : list edge) (path : list Z) : list edge :=
  match path with
  | a :: ((b :: _) as rest) => path_edges_from (add_edge acc (sorted_edge a b)) rest
  | _ => acc
  end.

Definition path_edges (path : list Z) : list edge := path_edges_from [] path.

(** [s1.intersection(s2)] and [s1.update(s2)] *)
Definition intersection (s1 s2 : list edge) : list edge :=
  filter (fun e => mem_edge e s2) s1.

Definition update (s1 s2 : list edge) : list edge := fold_left add_edge s2 s1.

Definition is_empty {A : Type} (l : list A) : bool :=
  match l with [] => true | _ => false end.

Definition are_paths_edge_disjoint (path1 path2 : list Z) : bool :=
  len (intersection (path_edges path1) (path_edges path2)) =? 0.

(** [all_paths.sort(key=len)]: a stable sort by length. *)
Fixpoint insert_by_len (p : list Z) (l : list (list Z)) : list (list Z) :=
  match l with
  | [] => [p]
  | q :: r => if len q <? len p then q :: insert_by_len p r else p :: q :: r
  end.

Definition sort_by_len (l : list (list Z)) : list (list Z) :=
  fold_right insert_by_len [] l.

(** The [for path in all_paths] loop of [find_disjoint_paths]. *)
Fixpoint select_disjoint (k : Z) (all_paths : list (list Z))
    (disjoint_paths : list (list Z)) (used_edges : list edge)
  : list (list Z) :=
  match all_paths with
  | [] => disjoint_paths
  | path :: rest =>
    let path_edges := path_edges path in
    let '(disjoint_paths', used_edges') :=
      if is_empty (intersection path_edges used_edges)
      then (disjoint_paths ++ [path], update used_edges path_edges)
      else (disjoint_paths, used_edges) in
    if len disjoint_paths' >=? k then disjoint_paths'
    else select_disjoint k rest disjoint_paths' used_edges'
  end.

Definition default_max_length : Z := 10.

Definition find_disjoint_paths (g : graph_t) (source target k : Z)
  : list (list Z) :=
  if source =? target then []
  else select_disjoint k
         (sort_by_len (find_all_paths g source target default_max_length)) [] [].

(** *** [is_graph_connected] *)

(** The [for neighbor in ...] loop inside the search: [visited] and
    [queue] grow by the neighbours that are neither excluded nor visited. *)
Definition visit_neighbors (excluded_nodes : list Z) (neighbors : list Z)
    (vq : list Z * list Z) : list Z * list Z :=
  fold_left
    (fun '(visited, queue) neighbor =>
       if negb (memZ neighbor excluded_nodes) && negb (memZ neighbor visited)
       then (visited ++ [neighbor], queue ++ [neighbor])
       else (visited, queue))
    neighbors vq.

(** The [while queue] loop of [is_graph_connected]; returns [visited]. *)
Fixpoint bfs_loop (fuel : nat) (g : graph_t) (excluded_nodes : list Z)
    (visited queue : list Z) : option (list Z) :=
  match fuel with
  | O => None
  | S fuel' =>
    match queue with
    | [] => Some visited
    | current :: queue' =>
      let '(visited', queue'') :=
        visit_neighbors excluded_nodes (graph_get g current) (visited, queue') in
      bfs_loop fuel' g excluded_nodes visited' queue''
    end
  end.

(** Every node the search can visit is the start node or some node's
    neighbour; each is dequeued once. *)
Definition bfs_fuel (g : graph_t) : nat :=
  S (S (length (flat_map snd g))).

(** [for node in self.graph: if node not in excluded_nodes: ...; break] *)
Definition first_not_excluded (g : graph_t) (excluded_nodes : list Z) : option Z :=
  find (fun node => negb (memZ node excluded_nodes)) (Dict.keys g).

Definition is_graph_connected_opt (g : graph_t) (excluded_nodes : list Z)
  : option bool :=
  if is_empty g then Some false
  else match first_not_excluded g excluded_nodes with
       | None => Some true
       | Some start_node =>
         match bfs_loop (bfs_fuel g) g excluded_nodes [start_node] [start_node] with
         | None => None
         | Some visited =>
           Some (forallb (fun node => memZ node excluded_nodes || memZ node visited)
                         (Dict.keys g))
         end
       end.

Definition is_graph_connected (g : graph_t) (excluded_nodes : list Z) : bool :=
  match is_graph_connected_opt g excluded_nodes with
  | Some b => b
  | None => false
  end.

(** *** [calculate_node_connectivity] and [verify_connectivity] *)

(** [itertools.combinations(l, k)], in its order. *)
Fixpoint combinations (l : list Z) (k : nat) : list (list Z) :=
  match k with
  | O => [[]]
  | S k' =>
    match l with
    | [] => []
    | x :: r => map (cons x) (combinations r k') ++ combinations r k
    end
  end.

(** The inner [for nodes_to_remove in combinations(nodes_list, k)] loop:
    is some [k]-subset disconnecting? *)
Definition found_disconnecting_set (g : graph_t) (nodes_list : list Z) (k : nat)
  : bool :=
  existsb (fun nodes_to_remove => negb (is_graph_connected g (py_set nodes_to_remove)))
          (combinations nodes_list k).

(** The outer [for k in range(1, len(nodes_list))] loop; [None] when it
    runs to its end. *)
Fixpoint connectivity_loop (g : graph_t) (nodes_list : list Z) (ks : list nat)
  : option Z :=
  match ks with
  | [] => None
  | k :: ks' =>
    if found_disconnecting_set g nodes_list k then Some (Z.of_nat k - 1)
    else connectivity_loop g nodes_list ks'
  end.

Definition calculate_node_connectivity (g : graph_t) : Z :=
  if is_empty g then 0
  else
    let nodes_list := Dict.keys g in
    if len nodes_list <=? 1 then 0
    else match connectivity_loop g nodes_list
                 (seq 1 (length nodes_list - 1)) with
         | Some c => c
         | None => len nodes_list - 1
         end.

Definition required_connectivity (m : Z) (use_signed_messages : bool) : Z :=
  if use_signed_messages then m + 1 else 2 * m + 1.

Definition verify_connectivity (g : graph_t) (m : Z) (use_signed_messages : bool)
  : bool :=
  let actual_connectivity := calculate_node_connectivity g in
  let has_sufficient_connectivity :=
    actual_connectivity >=? required_connectivity m use_signed_messages in
  if negb has_sufficient_connectivity then false else true.

(** ** Nodes and messages *)

(** The dict built by [send_message]. *)
Record message := mkMessage {
  msg_value : value;
  msg_sender : Z;
  msg_round : Z;
  msg_path : list Z
}.

(** An object of class [Node] or [Commander]. [initial_value] is the
    attribute only [Commander.__init__] sets: [hasattr(node,
    'initial_value')] is [initial_value <> None]. *)
Record Node := mkNode {
  node_id : Z;
  is_traitor : bool;
  neighbors : list Z;
  received_messages : list (Z * list (value * list Z));
  decision : option value;
  sent_messages : list (Z * list (Z * value));
  initial_value : option value
}.

(** [Node.__init__] and [Commander.__init__] *)
Definition new_node (node_id : Z) (neighbors : list Z) (is_traitor : bool) : Node :=
  mkNode node_id is_traitor neighbors [] None [] None.

Definition new_commander (node_id : Z) (neighbors : list Z) (initial_value : value)
  : Node :=
  mkNode node_id false neighbors [] (Some initial_value) [] (Some initial_value).

Definition set_received (n : Node) (log : list (Z * list (value * list Z))) : Node :=
  mkNode (node_id n) (is_traitor n) (neighbors n) log (decision n)
         (sent_messages n) (initial_value n).

Definition set_sent (n : Node) (sent : list (Z * list (Z * value))) : Node :=
  mkNode (node_id n) (is_traitor n) (neighbors n) (received_messages n)
         (decision n) sent (initial_value n).

Definition set_decision (n : Node) (d : option value) : Node :=
  mkNode (node_id n) (is_traitor n) (neighbors n) (received_messages n)
         d (sent_messages n) (initial_value n).

(** [d[k]] for a key that was just made present, else the empty default. *)
Definition get_list {A : Type} (d : list (Z * list A)) (k : Z) : list A :=
  match Dict.get d k with Some l => l | None => [] end.

(** [Node.receive_message] *)
Definition receive_message (self : Node) (message : message) : Node :=
  let round_num := msg_round message in
  let log := received_messages self in
  let log := if negb (Dict.mem log round_num) then Dict.set log round_num [] else log in
  set_received self
    (Dict.set log round_num
       (get_list log round_num ++ [(msg_value message, msg_path message)])).

(** Equality of [(value, tuple(path))] pairs, and the [set] of them. *)
Definition pair_eqb (a b : value * list Z) : bool :=
  String.eqb (fst a) (fst b) &&
  (if list_eq_dec Z.eq_dec (snd a) (snd b) then true else false).

Fixpoint add_unique (s : list (value * list Z)) (x : value * list Z)
  : list (value * list Z) :=
  match s with
  | [] => [x]
  | y :: r => if pair_eqb y x then s else y :: add_unique r x
  end.

Definition unique_messages (l : list (value * list Z)) : list (value * list Z) :=
  fold_left add_unique l [].

(** The vote every method of the file ends with. *)
Definition majority (values : list value) : value :=
  if count ATTACK values >? count RETREAT values then ATTACK else RETREAT.

(** [Node.get_majority_from_paths] *)
Definition get_majority_from_paths (self : Node) (round_num : Z) : value :=
  match Dict.get (received_messages self) round_num with
  | None => DEFAULT_VALUE
  | Some entries =>
    let values := map fst (unique_messages entries) in
    if is_empty values then DEFAULT_VALUE else majority values
  end.

(** ** The system: [PartialTopologyBFT]

    [Network.nodes], the class-level registry, holds the very objects of
    [self.nodes] under the same ids ([add_node] and [set_commander] put
    each node in both), so one dict stands for both. *)

Record BFT := mkBFT {
  nodes : list (Z * Node);
  commander_id : Z;
  graph : graph_t
}.

Definition empty_system : BFT := mkBFT [] 0 [].

Definition add_node (s : BFT) (node_id : Z) (neighbors : list Z) (is_traitor : bool)
  : BFT :=
  mkBFT (Dict.set (nodes s) node_id (new_node node_id neighbors is_traitor))
        (commander_id s)
        (Dict.set (graph s) node_id (py_set neighbors)).

Definition set_commander (s : BFT) (node_id : Z) (neighbors : list Z)
    (initial_value : value) : BFT :=
  mkBFT (Dict.set (nodes s) node_id (new_commander node_id neighbors initial_value))
        node_id
        (Dict.set (graph s) node_id (py_set neighbors)).

Definition set_nodes (s : BFT) (ns : list (Z * Node)) : BFT :=
  mkBFT ns (commander_id s) (graph s).

(** [Network.deliver_message] *)
Definition deliver_message (s : BFT) (target_node_id : Z) (message : message) : BFT :=
  match Dict.get (nodes s) target_node_id with
  | Some target => set_nodes s (Dict.set (nodes s) target_node_id
                                         (receive_message target message))
  | None => s
  end.

(** The value a traitor sends in a round after the first. *)
Definition traitor_value (target_node : Z) : value :=
  if target_node mod 2 =? 0 then ATTACK else RETREAT.

(** The message [send_message] builds for a node. *)
Definition make_message (self : Node) (value : value) (target_node round_num : Z)
    (path : list Z) : message :=
  let value := if is_traitor self && (round_num >? 0)
               then traitor_value target_node else value in
  mkMessage value (node_id self) round_num (path ++ [node_id self]).

(** [self.nodes[key].send_message(value, target_node, round_num, path)] *)
Definition send_message (s : BFT) (key : Z) (value : value)
    (target_node round_num : Z) (path : list Z) : BFT :=
  match Dict.get (nodes s) key with
  | None => s
  | Some self =>
    let message := make_message self value target_node round_num path in
    let sent := sent_messages self in
    let sent := if negb (Dict.mem sent round_num)
                then Dict.set sent round_num [] else sent in
    let sent := Dict.set sent round_num
                  (Dict.set (get_list sent round_num) target_node (msg_value message)) in
    let s := set_nodes s (Dict.set (nodes s) key (set_sent self sent)) in
    deliver_message s target_node message
  end.

(** [path[:path.index(current_node) + 1]]; [current_node] is an element of
    [path] wherever the code evaluates this. *)
Fixpoint prefix_through (current_node : Z) (path : list Z) : list Z :=
  match path with
  | [] => []
  | x :: r => if x =? current_node then [x] else x :: prefix_through current_node r
  end.

(** The inner [for next_node in path[1:]] loop of [send_via_multipath]. *)
Fixpoint send_along (s : BFT) (value : value) (round_num : Z) (path : list Z)
    (current_node : Z) (rest : list Z) : BFT :=
  match rest with
  | [] => s
  | next_node :: rest' =>
    let s :=
      if Dict.mem (nodes s) current_node && Dict.mem (nodes s) next_node
      then send_message s current_node value next_node round_num
                        (prefix_through current_node path)
      else s in
    send_along s value round_num path next_node rest'
  end.

(** [PartialTopologyBFT.send_via_multipath] *)
Definition send_via_multipath (s : BFT) (source target : Z) (value : value)
    (round_num k : Z) : BFT :=
  if source =? target then s
  else
    let paths := find_disjoint_paths (graph s) source target k in
    fold_left
      (fun s path =>
         if len path <? 2 then s
         else send_along s value round_num path source (tl path))
      paths s.

(** [sorted(self.nodes.items())]: the keys are distinct, so the order is
    the order of the ids. *)
Fixpoint insert_by_key {A : Type} (kv : Z * A) (l : list (Z * A)) : list (Z * A) :=
  match l with
  | [] => [kv]
  | kv' :: r => if fst kv' <? fst kv then kv' :: insert_by_key kv r else kv :: kv' :: r
  end.

Definition sorted_items {A : Type} (d : list (Z * A)) : list (Z * A) :=
  fold_right insert_by_key [] d.

(** The [all_values] list of [final_voting]: every logged value, round
    after round, in the order received. *)
Definition all_values (node : Node) : list value :=
  flat_map (fun round_entries => map fst (snd round_entries))
           (received_messages node).

(** The decision [final_voting] assigns to a node. *)
Definition vote (node : Node) : value :=
  let all_values := all_values node in
  if is_empty all_values then DEFAULT_VALUE else majority all_values.

(** One iteration of [for node_id, node in sorted(self.nodes.items())]:
    [node] is the object the registry holds under [node_id]. *)
Definition voting_step (acc : list (Z * value) * BFT) (item : Z * Node)
  : list (Z * value) * BFT :=
  let '(decisions, s) := acc in
  let '(node_id, _) := item in
  match Dict.get (nodes s) node_id with
  | None => (decisions, s)
  | Some node =>
    let decision := vote node in
    (Dict.set decisions node_id decision,
     set_nodes s (Dict.set (nodes s) node_id (set_decision node (Some decision))))
  end.

(** [PartialTopologyBFT.final_voting]: the [decisions] dict and the system
    with every [node.decision] assigned. *)
Definition final_voting (s : BFT) : list (Z * value) * BFT :=
  fold_left voting_step (sorted_items (nodes s)) ([], s).

(** The rounds [range(max_rounds)]. *)
Definition range (n : Z) : list Z := map Z.of_nat (seq 0 (Z.to_nat n)).

(** Round 0 of both variants: the commander sends to every other node. *)
Definition commander_round (s : BFT) (initial_value : value) (round_num k_paths : Z)
  : BFT :=
  fold_left
    (fun s target =>
       if negb (target =? commander_id s)
       then send_via_multipath s (commander_id s) target initial_value round_num k_paths
       else s)
    (Dict.keys (nodes s)) s.

(** [for target in self.nodes: if target != source: send_via_multipath] *)
Definition send_to_all (s : BFT) (source : Z) (source_value : value)
    (round_num k_paths : Z) : BFT :=
  fold_left
    (fun s target =>
       if negb (target =? source)
       then send_via_multipath s source target source_value round_num k_paths
       else s)
    (Dict.keys (nodes s)) s.

(** A later round of [run_oral_consensus]. *)
Definition oral_round (s : BFT) (round_num k_paths : Z) : BFT :=
  fold_left
    (fun s source =>
       if source =? commander_id s then s
       else match Dict.get (nodes s) source with
            | None => s
            | Some node =>
              send_to_all s source (get_majority_from_paths node (round_num - 1))
                          round_num k_paths
            end)
    (Dict.keys (nodes s)) s.

(** A later round of [run_signed_consensus]. *)
Definition signed_round (s : BFT) (round_num k_paths : Z) : BFT :=
  fold_left
    (fun s source =>
       if source =? commander_id s then s
       else match Dict.get (nodes s) source with
            | None => s
            | Some node =>
              if Dict.mem (received_messages node) (round_num - 1)
              then send_to_all s source (get_majority_from_paths node (round_num - 1))
                               round_num k_paths
              else s
            end)
    (Dict.keys (nodes s)) s.

(** [run_oral_consensus]: [None] is the Python [None] of a failed
    connectivity check, else the decisions of [final_voting]. *)
Definition run_oral_consensus (s : BFT) (m : Z) (initial_value : value)
  : option (list (Z * value)) * BFT :=
  if negb (verify_connectivity (graph s) m false) then (None, s)
  else
    let max_rounds := m + 1 in
    let k_paths := 2 * m + 1 in
    let s :=
      fold_left
        (fun s round_num =>
           if round_num =? 0 then commander_round s initial_value round_num k_paths
           else oral_round s round_num k_paths)
        (range max_rounds) s in
    let '(decisions, s) := final_voting s in
    (Some decisions, s).

(** [run_signed_consensus] *)
Definition run_signed_consensus (s : BFT) (m : Z) (initial_value : value)
  : option (list (Z * value)) * BFT :=
  if negb (verify_connectivity (graph s) m true) then (None, s)
  else
    let max_rounds := m + 1 in
    let k_paths := m + 1 in
    let s :=
      fold_left
        (fun s round_num =>
           if round_num =? 0 then commander_round s initial_value round_num k_paths
           else signed_round s round_num k_paths)
        (range max_rounds) s in
    let '(decisions, s) := final_voting s in
    (Some decisions, s).

(** [check_consensus]: [None] when the Python raises ([KeyError] for an id
    that is not registered, [AttributeError] for a commander object without
    [initial_value]). *)
Fixpoint loyal_nodes (s : BFT) (decisions : list (Z * value))
  : option (list (Z * value)) :=
  match decisions with
  | [] => Some []
  | (nid, decision) :: rest =>
    match Dict.get (nodes s) nid with
    | None => None
    | Some node =>
      match loyal_nodes s rest with
      | None => None
      | Some l =>
        if negb (is_traitor node) && negb (nid =? commander_id s)
        then Some ((nid, decision) :: l) else Some l
      end
    end
  end.

Definition check_consensus (s : BFT) (decisions : list (Z * value)) : option bool :=
  match loyal_nodes s decisions with
  | None => None
  | Some [] => Some true
  | Some (((_, first_decision) :: _) as loyal) =>
    let ic1_satisfied :=
      forallb (fun d => String.eqb d first_decision) (Dict.values loyal) in
    match Dict.get (nodes s) (commander_id s) with
    | None => None
    | Some commander =>
      if negb (is_traitor commander) then
        match initial_value commander with
        | None => None
        | Some v =>
          let ic2_satisfied := forallb (fun d => String.eqb d v) (Dict.values loyal) in
          Some (ic1_satisfied && (is_traitor commander || ic2_satisfied))
        end
      else Some (ic1_satisfied && (is_traitor commander || true))
    end
  end.

(** ** The signed-message node of [nodeplus.py] *)

Module NodePlus.

(** [class Action(Enum)] *)
Inductive Action := ATTACK | RETREAT | UNKNOWN.

(** [value.value] *)
Definition action_value (a : Action) : string :=
  match a with
  | ATTACK => "ATTACK"
  | RETREAT => "RETREAT"
  | UNKNOWN => "UNKNOWN"
  end%string.

(** [Action[name]]; [None] for the [KeyError]. *)
Definition action_of_name (name : string) : option Action :=
  if String.eqb name "ATTACK" then Some ATTACK
  else if String.eqb name "RETREAT" then Some RETREAT
  else if String.eqb name "UNKNOWN" then Some UNKNOWN
  else None.

(** [str(i)] *)
Definition str (i : Z) : string := NilZero.string_of_int (Z.to_int i).

(** A reader of decimal numerals with an optional minus sign, the numerals
    [str] writes; [None] for the [ValueError]. Python's [int] reads these
    and more (a plus sign, white space around the numeral, underscores
    between digits, the decimal digits of every script), so the node
    below is defined over any reader [int]; this one serves to run it. *)
Definition decimal_int (s : string) : option Z :=
  option_map Z.of_int (NilZero.int_of_string s).

(** [':'.join(parts)] and [s.split(':')] *)
Fixpoint join (parts : list string) : string :=
  match parts with
  | [] => ""
  | [p] => p
  | p :: rest => p ++ ":" ++ join rest
  end%string.

Fixpoint split (s : string) : list string :=
  match s with
  | EmptyString => [EmptyString]
  | String c rest =>
    if Ascii.eqb c ":" then EmptyString :: split rest
    else match split rest with
         | p :: parts => String c p :: parts
         | [] => [String c EmptyString]
         end
  end.

(** [NetworkMessage]; the [timestamp] field is left out. *)
Record NetworkMessage := mkNetworkMessage {
  sender_id : Z;
  receiver_id : Z;
  content : string;
  path : list Z;
  round_num : Z;
  signature : option string
}.

Record SignedMessagesNode := mkSignedMessagesNode {
  node_id : Z;
  is_faulty : bool;
  total_nodes : Z;
  signed_messages : list (Action * list Z);
  is_commander : bool;
  commander_value : option Action;
  decision : option Action
}.

(** [SignedMessagesNode.__init__] *)
Definition new_node (node_id : Z) (is_faulty : bool) (total_nodes : Z)
  : SignedMessagesNode :=
  mkSignedMessagesNode node_id is_faulty total_nodes [] false None None.

Definition set_signed_messages (self : SignedMessagesNode)
    (l : list (Action * list Z)) : SignedMessagesNode :=
  mkSignedMessagesNode (node_id self) (is_faulty self) (total_nodes self) l
    (is_commander self) (commander_value self) (decision self).

(** [sign_message] *)
Definition sign_message (self : SignedMessagesNode) (value : Action)
    (signatures : list Z) : string :=
  let new_signatures := signatures ++ [node_id self] in
  (action_value value ++ ":" ++ join (map str new_signatures))%string.

(** [set(l1) == set(l2)] *)
Definition set_eqb (l1 l2 : list Z) : bool :=
  forallb (fun x => memZ x l2) l1 && forallb (fun x => memZ x l1) l2.

(** The [is_new] scan over [self.signed_messages]. *)
Definition is_new (self : SignedMessagesNode) (signatures : list Z) : bool :=
  negb (existsb (fun stored => set_eqb signatures (snd stored))
                (signed_messages self)).

(** The messages of one relay: one to every node that is neither the
    relayer nor in the signature chain received. *)
Definition relay_messages (self : SignedMessagesNode) (value : Action)
    (signatures : list Z) (round : Z) : list NetworkMessage :=
  let new_signed := sign_message self value signatures in
  map (fun i => mkNetworkMessage (node_id self) i new_signed [] (round + 1)
                                 (Some new_signed))
      (filter (fun i => negb (i =? node_id self) && negb (memZ i signatures))
              (range (total_nodes self))).

(** What a call has done so far: the node, the messages given to
    [network.send_message], and whether an exception has cut the call
    short. *)
Record outcome := mkOutcome {
  node : SignedMessagesNode;
  sent : list NetworkMessage;
  raised : bool
}.

(** The builtin [int] of the strings the node is handed: any function
    from strings to integers, [None] where it raises [ValueError]. A
    string stands for its UTF-8 bytes, which [split(':')] and the lookup
    of [Action] names treat as they treat the characters. *)
Section Reader.
Variable int : string -> option Z.

(** [[int(s) for s in parts if s]] *)
Fixpoint ints (parts : list string) : option (list Z) :=
  match parts with
  | [] => Some []
  | p :: rest =>
    if String.eqb p "" then ints rest
    else match int p, ints rest with
         | Some i, Some l => Some (i :: l)
         | _, _ => None
         end
  end.

(** [verify_signature]; [None] when it raises. *)
Definition verify_signature (signed_msg : string) : option (Action * list Z) :=
  match split signed_msg with
  | [] => None
  | name :: parts =>
    match action_of_name name with
    | None => None
    | Some value =>
      match ints parts with
      | None => None
      | Some signatures => Some (value, signatures)
      end
    end
  end.

(** The body of [for msg in messages] in [process_round]. *)
Definition handle_message (round : Z) (o : outcome) (msg : NetworkMessage)
  : outcome :=
  if raised o then o
  else
    match signature msg with
    | None => o
    | Some sig =>
      if String.eqb sig "" then o
      else
        match verify_signature sig with
        | None => mkOutcome (node o) (sent o) true
        | Some (value, signatures) =>
          let self := node o in
          if is_new self signatures then
            let self := set_signed_messages self
                          (signed_messages self ++ [(value, signatures)]) in
            if len signatures <=? total_nodes self then
              mkOutcome self
                (sent o ++ relay_messages self value signatures round) false
            else mkOutcome self (sent o) false
          else o
        end
    end.

(** [SignedMessagesNode.process_round], started from what earlier calls
    have done; [messages] is what [self.receive_values()] returns. *)
Definition process_round (o : outcome) (round : Z) (messages : list NetworkMessage)
  : outcome :=
  if raised o then o
  else
    let self := node o in
    if (round =? 0) && is_commander self then
      match commander_value self with
      | None => mkOutcome self (sent o) true
      | Some value =>
        let signed_msg := sign_message self value [] in
        mkOutcome self
          (sent o ++
           map (fun i => mkNetworkMessage (node_id self) i signed_msg [] round
                                          (Some signed_msg))
               (filter (fun i => negb (i =? node_id self))
                       (range (total_nodes self))))
          false
      end
    else fold_left (handle_message round) messages o.

(** The node over a whole run: one [process_round] per round, each with
    the messages the network had for the node at that moment. *)
Definition run_node (self : SignedMessagesNode)
    (rounds : list (Z * list NetworkMessage)) : outcome :=
  fold_left (fun o r => process_round o (fst r) (snd r)) rounds
            (mkOutcome self [] false).

End Reader.

End NodePlus.

(** ** Predicates of the statements *)

(** Every hop of [path] follows an adjacency entry of the graph. *)
Fixpoint is_walk (g : graph_t) (path : list Z) : Prop :=
  match path with
  | a :: ((b :: _) as rest) => In b (graph_get g a) /\ is_walk g rest
  | _ => True
  end.

(** A cycle-free walk from [source] to [target]. *)
Definition simple_path (g : graph_t) (source target : Z) (path : list Z) : Prop :=
  hd_error path = Some source /\
  (exists prefix, path = prefix ++ [target]) /\
  NoDup path /\
  is_walk g path.

(** [path1] and [path2] have no edge in common. *)
Definition edge_disjoint (path1 path2 : list Z) : Prop :=
  forall e, In e (path_edges path1) -> ~ In e (path_edges path2).

(** The paths of [l] are pairwise edge-disjoint. *)
Fixpoint pairwise_disjoint (l : list (list Z)) : Prop :=
  match l with
  | [] => True
  | p :: r => (forall q, In q r -> edge_disjoint p q) /\ pairwise_disjoint r
  end.

(** Two lists with the same elements. *)
Definition same_members (s1 s2 : list Z) : Prop := forall x, memZ x s1 = memZ x s2.

(** [S] is a set of [k] of the nodes of [nodes_list]. *)
Definition k_subset (nodes_list : list Z) (k : nat) (S : list Z) : Prop :=
  NoDup S /\ incl S nodes_list /\ length S = k.

(** Removing [S] disconnects the graph, by the code's own check. *)
Definition disconnects (g : graph_t) (S : list Z) : Prop :=
  is_graph_connected g S = false.

(** The vote the data model's log would give: here every path counts
    once, whatever the round it was logged in; the first value logged for
    a path is the one kept. *)
Definition path_eqb (p q : list Z) : bool :=
  if list_eq_dec Z.eq_dec p q then true else false.

Fixpoint add_unique_path (s : list (value * list Z)) (x : value * list Z)
  : list (value * list Z) :=
  match s with
  | [] => [x]
  | y :: r => if path_eqb (snd y) (snd x) then s else y :: add_unique_path r x
  end.

Definition logged_pairs (node : Node) : list (value * list Z) :=
  flat_map snd (received_messages node).

Definition vote_unique_paths (node : Node) : value :=
  majority (map fst (fold_left add_unique_path (logged_pairs node) [])).

(** The same with the [(value, path)] pairs counted once each, over the
    whole log and round by round, which is how [get_majority_from_paths]
    counts inside one round. *)
Definition vote_unique_pairs (node : Node) : value :=
  majority (map fst (unique_messages (logged_pairs node))).

Definition vote_unique_per_round (node : Node) : value :=
  majority (flat_map (fun round_entries => map fst (unique_messages (snd round_entries)))
                     (received_messages node)).

(** No log holds the same [(value, path)] pair twice in one round: no
    node has sent a receiver the same message twice. *)
Definition no_repeated_message (s : BFT) : Prop :=
  forall id node round_num entries,
    Dict.get (nodes s) id = Some node ->
    Dict.get (received_messages node) round_num = Some entries ->
    NoDup entries.

(** The signer sets of the stored pairs are pairwise different. *)
Fixpoint distinct_signer_sets (l : list (NodePlus.Action * list Z)) : Prop :=
  match l with
  | [] => True
  | a :: r => (forall b, In b r -> NodePlus.set_eqb (snd a) (snd b) = false) /\
              distinct_signer_sets r
  end.

(** The reader reads back the numerals [str] writes, as Python's [int]
    does. *)
Definition reads_str (int : string -> option Z) : Prop :=
  forall i, int (NodePlus.str i) = Some i.

(** [msg] is an order of the commander [self]: a message of round 0 that
    carries the commander's value signed by the commander alone. *)
Definition commander_order (self : NodePlus.SignedMessagesNode)
    (msg : NodePlus.NetworkMessage) : Prop :=
  NodePlus.is_commander self = true /\
  NodePlus.round_num msg = 0 /\
  exists v, NodePlus.commander_value self = Some v /\
            NodePlus.signature msg = Some (NodePlus.sign_message self v []).

(** [msg] relays one of the pairs of [stored]: it carries the value
    signed by the chain received and then by [self]. *)
Definition relay_of_stored (self : NodePlus.SignedMessagesNode)
    (stored : list (NodePlus.Action * list Z)) (msg : NodePlus.NetworkMessage)
  : Prop :=
  exists v received,
    In (v, received) stored /\
    NodePlus.signature msg = Some (NodePlus.sign_message self v received).

(** Two messages of [self] that go to one receiver are relays of chains
    with different sets of signers, unless one is the commander's
    order. *)
Definition relayed_apart (self : NodePlus.SignedMessagesNode)
    (m1 m2 : NodePlus.NetworkMessage) : Prop :=
  NodePlus.receiver_id m1 = NodePlus.receiver_id m2 ->
  commander_order self m1 \/ commander_order self m2 \/
  exists v1 received1 v2 received2,
    NodePlus.signature m1 = Some (NodePlus.sign_message self v1 received1) /\
    NodePlus.signature m2 = Some (NodePlus.sign_message self v2 received2) /\
    NodePlus.set_eqb received1 received2 = false.

(** Every registered node is stored under its own id, as [add_node] and
    [set_commander] store it. *)
Definition keyed_by_id (s : BFT) : Prop :=
  Forall (fun kv => node_id (snd kv) = fst kv) (nodes s).

(** A path that ends with the same id twice. *)
Definition repeats_sender (path : list Z) : Prop :=
  exists prefix sender, path = prefix ++ [sender; sender].

(** From [s] to [s'] the registered ids and the ids of the nodes stay,
    and every log of every round grows at its end, by pairs whose paths
    satisfy [P]. *)
Definition logs_grow_by (P : list Z -> Prop) (s s' : BFT) : Prop :=
  (forall id, Dict.get (nodes s) id = None -> Dict.get (nodes s') id = None) /\
  forall id n, Dict.get (nodes s) id = Some n ->
    exists n', Dict.get (nodes s') id = Some n' /\
               node_id n' = node_id n /\
               forall round_num, exists new,
                 get_list (received_messages n') round_num
                   = get_list (received_messages n) round_num ++ new /\
                 forall entry, In entry new -> P (snd entry).

(** ** Example systems

    Adjacency lists are written in increasing order, the order in which
    CPython iterates a set of small non-negative ints. *)

(** The line 0-1-2-3-4 of [test_examples], node 2 a traitor. *)
Definition line_system : BFT :=
  add_node (add_node (add_node (add_node
    (set_commander empty_system 0 [1] ATTACK)
    1 [0; 2] false) 2 [1; 3] true) 3 [2; 4] false) 4 [3] false.

(** Two generals: the commander 0 and one loyal lieutenant. *)
Definition two_generals : BFT :=
  add_node (set_commander empty_system 0 [1] ATTACK) 1 [0] false.

(** Three loyal generals, all connected. *)
Definition three_generals : BFT :=
  add_node (add_node (set_commander empty_system 0 [1; 2] ATTACK)
    1 [0; 2] false) 2 [0; 1] false.

(** Five generals, all connected; 1 and 2 are traitors. *)
Definition five_generals : BFT :=
  add_node (add_node (add_node (add_node
    (set_commander empty_system 0 [1; 2; 3; 4] ATTACK)
    1 [0; 2; 3; 4] true) 2 [0; 1; 3; 4] true)
    3 [0; 1; 2; 4] false) 4 [0; 1; 2; 3] false.

(** The ring 0-1-2-3-0 and the triangle. *)
Definition ring4 : graph_t := [(0, [1; 3]); (1, [0; 2]); (2, [1; 3]); (3, [0; 2])].
Definition ring3 : graph_t := [(0, [1; 2]); (1, [0; 2]); (2, [0; 1])].
Definition ring5 : graph_t :=
  [(0, [1; 4]); (1, [0; 2]); (2, [1; 3]); (3, [2; 4]); (4, [0; 3])].

(** Three generals after [Network.deliver_message] has handed node 1 the
    commander's [ATTACK] twice, with the same path, and one [RETREAT] that
    came through node 2. *)
Definition duplicated_log_system : BFT :=
  deliver_message
    (deliver_message
       (deliver_message three_generals 1 (mkMessage ATTACK 0 0 [0; 0]))
       1 (mkMessage ATTACK 0 0 [0; 0]))
    1 (mkMessage RETREAT 2 0 [0; 2; 2]).

(** A commander and one traitor. *)
Definition commander_and_traitor : BFT :=
  add_node (set_commander empty_system 0 [1] ATTACK) 1 [0] true.

(** A string without [':']. *)
Fixpoint no_colon (s : string) : bool :=
  match s with
  | EmptyString => true
  | String c rest => negb (Ascii.eqb c ":") && no_colon rest
  end.

(** Three signed-message nodes; node 0 is the commander and orders
    [ATTACK]. *)
Definition signed_commander : NodePlus.SignedMessagesNode :=
  NodePlus.mkSignedMessagesNode 0 false 3 [] true (Some NodePlus.ATTACK) None.

Definition signed_lieutenant : NodePlus.SignedMessagesNode :=
  NodePlus.new_node 1 false 3.

(** Node 1 of four signed-message nodes. *)
Definition signed_relayer : NodePlus.SignedMessagesNode :=
  NodePlus.mkSignedMessagesNode 1 false 4 [] false None None.

(** A delivery to node 1 in round 1: an order signed by node 0 and one
    signed by node 2. *)
Definition two_orders : list (Z * list NodePlus.NetworkMessage) :=
  [(1, [NodePlus.mkNetworkMessage 0 1 "ATTACK:0" [] 0 (Some "ATTACK:0"%string);
        NodePlus.mkNetworkMessage 2 1 "RETREAT:2" [] 0 (Some "RETREAT:2"%string)])].

(** A delivery to node 1 in round 1 that no run of loyal nodes makes: the
    second chain holds node 1 itself. *)
Definition forged_orders : list (Z * list NodePlus.NetworkMessage) :=
  [(1, [NodePlus.mkNetworkMessage 0 1 "ATTACK:0" [] 0 (Some "ATTACK:0"%string);
        NodePlus.mkNetworkMessage 0 1 "ATTACK:1:0" [] 1 (Some "ATTACK:1:0"%string)])].

(** What holds of a signed-message node between two messages: it keeps
    its id and its role, the stored signer sets are pairwise different,
    every message sent is sent in its name and is its order or the relay
    of a stored pair, and the messages sent are pairwise apart. *)
Definition relay_invariant (self : NodePlus.SignedMessagesNode)
    (o : NodePlus.outcome) : Prop :=
  NodePlus.node_id (NodePlus.node o) = NodePlus.node_id self /\
  NodePlus.is_commander (NodePlus.node o) = NodePlus.is_commander self /\
  NodePlus.commander_value (NodePlus.node o) = NodePlus.commander_value self /\
  distinct_signer_sets (NodePlus.signed_messages (NodePlus.node o)) /\
  (forall msg, In msg (NodePlus.sent o) ->
     commander_order self msg \/
     relay_of_stored self (NodePlus.signed_messages (NodePlus.node o)) msg) /\
  ForallOrdPairs (relayed_apart self) (NodePlus.sent o).

(** [node] can be reached from [start] along adjacency entries without
    entering an excluded node. *)
Inductive reachable (g : graph_t) (excluded_nodes : list Z) (start : Z)
  : Z -> Prop :=
| reach_start : reachable g excluded_nodes start start
| reach_step u v :
    reachable g excluded_nodes start u ->
    In v (graph_get g u) ->
    ~ In v excluded_nodes ->
    reachable g excluded_nodes start v.

(** What the search of [is_graph_connected] keeps true: every visited
    node is reachable, every queued node is visited, and a visited node
    that is no longer queued has all its admissible neighbours visited. *)
Definition search_invariant (g : graph_t) (excluded_nodes : list Z) (start : Z)
    (visited queue : list Z) : Prop :=
  (forall u, In u visited -> reachable g excluded_nodes start u) /\
  incl queue visited /\
  (forall u, In u visited ->
             In u queue \/
             forall v, In v (graph_get g u) -> ~ In v excluded_nodes -> In v visited).

(** ** Predicates of the further properties *)

(** [q] is reached from the queue entry [(current, p)]: the search
    extends [p], hop by hop, while it has not arrived at [target] and [p]
    has fewer than [max_length] nodes. *)
Inductive extends_to (g : graph_t) (target max_length : Z)
  : Z -> list Z -> list Z -> Prop :=
| extends_done p : extends_to g target max_length target p p
| extends_step current p neighbor q :
    current <> target ->
    len p < max_length ->
    In neighbor (graph_get g current) ->
    ~ In neighbor p ->
    extends_to g target max_length neighbor (p ++ [neighbor]) q ->
    extends_to g target max_length current p q.

(** The lengths of the paths of [l] never decrease. *)
Fixpoint lengths_ascend (l : list (list Z)) : Prop :=
  match l with
  | [] => True
  | p :: r => (forall q, In q r -> len p <= len q) /\ lengths_ascend r
  end.

(** Every node is adjacent to every other node. *)
Definition complete_graph (g : graph_t) : Prop :=
  forall a b, In a (Dict.keys g) -> In b (Dict.keys g) -> a <> b ->
              In b (graph_get g a).

(** What a run never touches in a node, and in the system. *)
Definition node_identity (n : Node) : Z * bool * list Z * option value :=
  (node_id n, is_traitor n, neighbors n, initial_value n).

Definition system_identity (s : BFT)
  : graph_t * Z * list (Z * (Z * bool * list Z * option value)) :=
  (graph s, commander_id s,
   map (fun kv => (fst kv, node_identity (snd kv))) (nodes s)).

(** The entries of [decisions] that [check_consensus] keeps: those of the
    registered nodes that are neither traitors nor the commander. *)
Definition loyal_decisions (s : BFT) (decisions : list (Z * value))
  : list (Z * value) :=
  filter (fun kv =>
            match Dict.get (nodes s) (fst kv) with
            | Some node => negb (is_traitor node) && negb (fst kv =? commander_id s)
            | None => false
            end)
         decisions.

(** A lieutenant that has logged the commander's [ATTACK] once. *)
Definition informed_lieutenant : Node :=
  receive_message (new_node 1 [0] false) (mkMessage ATTACK 0 0 [0; 0]).

(** A system whose node 0 was registered with [add_node], so that the
    default commander id names a plain loyal [Node]. *)
Definition no_commander_system : BFT :=
  add_node (add_node empty_system 0 [1] false) 1 [0] false.

(** A message a signed-message node may have sent: from the node, to
    another node of the system that has not signed it, and carrying as its
    content the signature that holds the value and the signers. *)
Definition well_addressed (self : NodePlus.SignedMessagesNode)
    (msg : NodePlus.NetworkMessage) : Prop :=
  NodePlus.sender_id msg = NodePlus.node_id self /\
  NodePlus.receiver_id msg <> NodePlus.node_id self /\
  0 <= NodePlus.receiver_id msg < NodePlus.total_nodes self /\
  exists v signatures,
    NodePlus.signature msg = Some (NodePlus.sign_message self v signatures) /\
    NodePlus.content msg = NodePlus.sign_message self v signatures /\
    ~ In (NodePlus.receiver_id msg) signatures.

Definition addressing_invariant (self : NodePlus.SignedMessagesNode)
    (o : NodePlus.outcome) : Prop :=
  NodePlus.node_id (NodePlus.node o) = NodePlus.node_id self /\
  NodePlus.total_nodes (NodePlus.node o) = NodePlus.total_nodes self /\
  forall msg, In msg (NodePlus.sent o) -> well_addressed self msg.

(** ** The oral-message node of [nodeplus.py]

    [ByzantineNode.send_value] and [OralMessagesNode.process_round]. The
    content of a message is an [Action], or [None] when a commander sends
    before its value is set; the [signature] of these messages stays
    [None] and is left out, like [timestamp]. [Action.random()] draws from
    the random generator: the draws are the values of [rand], taken in
    order. *)

Module OralNode.

Record NetworkMessage := mkNetworkMessage {
  sender_id : Z;
  receiver_id : Z;
  content : option NodePlus.Action;
  path : list Z;
  round_num : Z
}.

Record OralMessagesNode := mkOralMessagesNode {
  node_id : Z;
  is_faulty : bool;
  total_nodes : Z;
  max_faulty : Z;
  is_commander : bool;
  commander_value : option NodePlus.Action;
  received_values : list (Z * list (string * option NodePlus.Action))
}.

(** [OralMessagesNode.__init__] *)
Definition new_node (node_id : Z) (is_faulty : bool) (total_nodes max_faulty : Z)
  : OralMessagesNode :=
  mkOralMessagesNode node_id is_faulty total_nodes max_faulty false None [].

(** ["->".join(map(str, path))] *)
Fixpoint path_key (path : list Z) : string :=
  match path with
  | [] => ""
  | [i] => NodePlus.str i
  | i :: rest => NodePlus.str i ++ "->" ++ path_key rest
  end%string.

(** A dict with [str] keys: [d[k] = v]. *)
Fixpoint set_key {V : Type} (d : list (string * V)) (k : string) (v : V)
  : list (string * V) :=
  match d with
  | [] => [(k, v)]
  | (k', v') :: r => if String.eqb k' k then (k, v) :: r else (k', v') :: set_key r k v
  end.

(** [self.received_values[round][key] = value], on a [defaultdict(dict)]. *)
Definition store (self : OralMessagesNode) (round : Z) (key : string)
    (value : option NodePlus.Action) : OralMessagesNode :=
  mkOralMessagesNode (node_id self) (is_faulty self) (total_nodes self)
    (max_faulty self) (is_commander self) (commander_value self)
    (Dict.set (received_values self) round
       (set_key (get_list (received_values self) round) key value)).

(** What a call has done so far: the node, the messages given to
    [network.send_message], and the number of random draws made. *)
Record outcome := mkOutcome {
  node : OralMessagesNode;
  sent : list NetworkMessage;
  draws : nat
}.

(** [ByzantineNode.send_value] *)
Definition send_value (rand : nat -> bool) (o : outcome) (receiver : Z)
    (value : option NodePlus.Action) (round : Z) (path : list Z) : outcome :=
  let self := node o in
  let '(value, draws) :=
    if is_faulty self && (round >? 0)
    then (Some (if rand (draws o) then NodePlus.ATTACK else NodePlus.RETREAT),
          S (draws o))
    else (value, draws o) in
  mkOutcome self
    (sent o ++ [mkNetworkMessage (node_id self) receiver value
                                 (path ++ [node_id self]) round])
    draws.

(** The body of [for msg in messages] in [process_round]. *)
Definition handle_message (rand : nat -> bool) (o : outcome) (msg : NetworkMessage)
  : outcome :=
  let self := store (node o) (round_num msg) (path_key (path msg)) (content msg) in
  let o := mkOutcome self (sent o) (draws o) in
  if round_num msg <? max_faulty self then
    fold_left
      (fun o i =>
         if negb (i =? node_id self) && negb (memZ i (py_set (path msg)))
         then send_value rand o i (content msg) (round_num msg + 1) (path msg)
         else o)
      (range (total_nodes self)) o
  else o.

(** [OralMessagesNode.process_round] *)
Definition process_round (rand : nat -> bool) (o : outcome) (round : Z)
    (messages : list NetworkMessage) : outcome :=
  let self := node o in
  if (round =? 0) && is_commander self then
    fold_left
      (fun o i =>
         if negb (i =? node_id self)
         then send_value rand o i (commander_value self) round []
         else o)
      (range (total_nodes self)) o
  else fold_left (handle_message rand) messages o.

(** The node over a whole run. *)
Definition run_node (rand : nat -> bool) (self : OralMessagesNode)
    (rounds : list (Z * list NetworkMessage)) : outcome :=
  fold_left (fun o r => process_round rand o (fst r) (snd r)) rounds
            (mkOutcome self [] 0).

End OralNode.

(** A message as a node may receive it in the oral relay: its path has no
    repeated id and does not hold the receiver. *)
Definition well_routed (msg : OralNode.NetworkMessage) : Prop :=
  NoDup (OralNode.path msg) /\ ~ In (OralNode.receiver_id msg) (OralNode.path msg).

(** What a message sent by an oral-message node is: the order of a
    commander in round 0, or the relay of one of the messages received,
    one round later, with the node appended to the path, to a node that
    is not on the path; the content is the one received, or, from a
    faulty node in a round after 0, a random [ATTACK] or [RETREAT]. *)
Definition relay_of (self : OralNode.OralMessagesNode)
    (incoming : list OralNode.NetworkMessage) (m : OralNode.NetworkMessage)
  : Prop :=
  OralNode.sender_id m = OralNode.node_id self /\
  OralNode.receiver_id m <> OralNode.node_id self /\
  0 <= OralNode.receiver_id m < OralNode.total_nodes self /\
  ((OralNode.is_commander self = true /\
    OralNode.round_num m = 0 /\
    OralNode.path m = [OralNode.node_id self] /\
    OralNode.content m = OralNode.commander_value self) \/
   exists msg,
     In msg incoming /\
     OralNode.round_num msg < OralNode.max_faulty self /\
     OralNode.round_num m = OralNode.round_num msg + 1 /\
     OralNode.path m = OralNode.path msg ++ [OralNode.node_id self] /\
     ~ In (OralNode.receiver_id m) (OralNode.path msg) /\
     (OralNode.content m = OralNode.content msg \/
      (OralNode.is_faulty self = true /\ 0 < OralNode.round_num m /\
       (OralNode.content m = Some NodePlus.ATTACK \/
        OralNode.content m = Some NodePlus.RETREAT)))).

(** What the oral relay keeps true of a node's own state. *)
Definition oral_node_same (self : OralNode.OralMessagesNode)
    (n : OralNode.OralMessagesNode) : Prop :=
  OralNode.node_id n = OralNode.node_id self /\
  OralNode.is_faulty n = OralNode.is_faulty self /\
  OralNode.total_nodes n = OralNode.total_nodes self /\
  OralNode.max_faulty n = OralNode.max_faulty self /\
  OralNode.is_commander n = OralNode.is_commander self /\
  OralNode.commander_value n = OralNode.commander_value self.

(** Four oral-message nodes with one fault tolerated; node 0 commands
    and orders [ATTACK]. *)
Definition oral_commander : OralNode.OralMessagesNode :=
  OralNode.mkOralMessagesNode 0 false 4 1 true (Some NodePlus.ATTACK) [].

Definition oral_lieutenant : OralNode.OralMessagesNode :=
  OralNode.new_node 1 false 4 1.

(** The node of an outcome is the node the run started from, but for its
    store, and every message sent is a relay of one of [incoming]. *)
Definition oral_invariant (self : OralNode.OralMessagesNode)
    (incoming : list OralNode.NetworkMessage) (o : OralNode.outcome) : Prop :=
  oral_node_same self (OralNode.node o) /\
  forall m, In m (OralNode.sent o) -> relay_of self incoming m.


(** ** Membership tests *)

Lemma memZ_In x l : memZ x l = true <-> In x l.
Proof.
  unfold memZ. rewrite existsb_exists. split.
  - intros [y [Hy Heq]]. apply Z.eqb_eq in Heq. now subst.
  - intros H. exists x. split; [assumption | apply Z.eqb_refl].
Qed.

Lemma memZ_false x l : memZ x l = false <-> ~ In x l.
Proof.
  rewrite <- memZ_In. destruct (memZ x l); split; congruence.
Qed.

Lemma edge_eqb_eq e1 e2 : edge_eqb e1 e2 = true <-> e1 = e2.
Proof.
  destruct e1 as [a b], e2 as [c d]. unfold edge_eqb. simpl.
  rewrite andb_true_iff, !Z.eqb_eq. split.
  - intros [-> ->]. reflexivity.
  - intros H. inversion H. auto.
Qed.

Lemma mem_edge_In e s : mem_edge e s = true <-> In e s.
Proof.
  unfold mem_edge. rewrite existsb_exists. split.
  - intros [y [Hy Heq]]. apply edge_eqb_eq in Heq. now subst.
  - intros H. exists e. split; [assumption | now apply edge_eqb_eq].
Qed.

Lemma in_add_edge s e e' : In e' (add_edge s e) <-> In e' s \/ e' = e.
Proof.
  unfold add_edge. destruct (mem_edge e s) eqn:Hm.
  - apply mem_edge_In in Hm. split; [auto | intros [H | ->]; assumption].
  - rewrite in_app_iff. simpl. intuition.
Qed.

Lemma in_update s1 s2 e : In e (update s1 s2) <-> In e s1 \/ In e s2.
Proof.
  unfold update. revert s1. induction s2 as [|x s2 IH]; intros s1; simpl.
  - tauto.
  - rewrite IH, in_add_edge. intuition.
Qed.

Lemma intersection_empty s1 s2 :
  is_empty (intersection s1 s2) = true <-> (forall e, In e s1 -> ~ In e s2).
Proof.
  unfold intersection. split.
  - intros H e He1 He2.
    assert (Hin : In e (filter (fun e => mem_edge e s2) s1)).
    { apply filter_In. split; [assumption | now apply mem_edge_In]. }
    destruct (filter _ s1); [contradiction | discriminate].
  - intros H. destruct (filter _ s1) as [|e l] eqn:Hf; [reflexivity | exfalso].
    assert (Hin : In e (filter (fun e => mem_edge e s2) s1)) by (rewrite Hf; now left).
    apply filter_In in Hin. destruct Hin as [H1 H2].
    apply mem_edge_In in H2. exact (H e H1 H2).
Qed.

(** ** Termination of the path search *)

Lemma graph_get_degree g current :
  (length (graph_get g current) <= max_degree g)%nat.
Proof.
  unfold graph_get, max_degree. induction g as [|[k s] g IH]; simpl.
  - lia.
  - destruct (k =? current); simpl in *; lia.
Qed.

Lemma path_weight_pos d r : (1 <= path_weight d r)%nat.
Proof. destruct r; simpl; lia. Qed.

Lemma queue_weight_app g ml q1 q2 :
  queue_weight g ml (q1 ++ q2) = (queue_weight g ml q1 + queue_weight g ml q2)%nat.
Proof.
  induction q1 as [|e q1 IH]; simpl; [reflexivity | rewrite IH; lia].
Qed.

Lemma queue_weight_children g ml (path : list Z) (l : list Z) w :
  (forall nb, entry_weight g ml (nb, path ++ [nb]) = w) ->
  queue_weight g ml (map (fun nb => (nb, path ++ [nb])) l) = (length l * w)%nat.
Proof.
  intros Hw. induction l as [|nb l IH]; simpl; [reflexivity|].
  rewrite IH, Hw. reflexivity.
Qed.

Lemma extend_path_weight g ml current path :
  len path < ml ->
  (S (queue_weight g ml (extend_path g current path))
   <= entry_weight g ml (current, path))%nat.
Proof.
  intros Hlen. unfold extend_path, entry_weight at 1. simpl snd.
  assert (Hr : exists r, Z.to_nat (ml - len path) = S r /\
                         Z.to_nat (ml - len (path ++ [current])) = r).
  { exists (Z.to_nat (ml - len path - 1)). unfold len in *.
    rewrite length_app. simpl. lia. }
  destruct Hr as [r [Hr1 Hr2]].
  rewrite (queue_weight_children g ml path _ (path_weight (max_degree g) r)).
  - rewrite Hr1. simpl.
    apply le_n_S. apply Nat.mul_le_mono_r.
    etransitivity; [apply filter_length_le | apply graph_get_degree].
  - intros nb. unfold entry_weight. simpl snd. f_equal.
    unfold len in *. rewrite length_app in *. simpl in *. lia.
Qed.

Lemma find_all_paths_loop_terminates g target ml :
  forall fuel queue paths,
    (queue_weight g ml queue < fuel)%nat ->
    exists result, find_all_paths_loop fuel g target ml queue paths = Some result.
Proof.
  induction fuel as [|fuel IH]; intros queue paths Hw; [lia|].
  destruct queue as [|[current path] queue]; simpl.
  - eauto.
  - simpl in Hw.
    pose proof (path_weight_pos (max_degree g) (Z.to_nat (ml - len path))) as Hpos.
    unfold entry_weight in Hw. simpl in Hw.
    destruct (current =? target).
    + apply IH. lia.
    + destruct (len path >=? ml) eqn:Hge.
      * apply IH. lia.
      * apply IH. rewrite queue_weight_app.
        assert (Hlt : len path < ml) by lia.
        pose proof (extend_path_weight g ml current path Hlt) as He.
        unfold entry_weight in He. simpl in He. lia.
Qed.

Theorem find_all_paths_terminates g source target max_length :
  exists paths,
    find_all_paths_opt g source target max_length = Some paths /\
    find_all_paths g source target max_length = paths.
Proof.
  unfold find_all_paths, find_all_paths_opt.
  destruct (negb (Dict.mem g source) || negb (Dict.mem g target)).
  - eauto.
  - destruct (find_all_paths_loop_terminates g target max_length
                (find_all_paths_fuel g source max_length) [(source, [source])] [])
      as [r Hr].
    + unfold find_all_paths_fuel. lia.
    + rewrite Hr. eauto.
Qed.


(** ** What the path search returns *)



Lemma is_walk_snoc g prefix current neighbor :
  is_walk g (prefix ++ [current]) ->
  In neighbor (graph_get g current) ->
  is_walk g ((prefix ++ [current]) ++ [neighbor]).
Proof.
  induction prefix as [|a prefix IH]; simpl; intros Hw Hin.
  - auto.
  - destruct prefix as [|b prefix]; simpl in *.
    + destruct Hw as [Hab _]. auto.
    + destruct Hw as [Hab Hw]. split; [assumption | now apply IH].
Qed.

Lemma simple_path_snoc g source current neighbor path :
  simple_path g source current path ->
  In neighbor (graph_get g current) ->
  memZ neighbor path = false ->
  simple_path g source neighbor (path ++ [neighbor]).
Proof.
  intros [Hhd [[prefix ->] [Hnd Hw]]] Hin Hmem.
  apply memZ_false in Hmem.
  repeat split.
  - destruct prefix; simpl in *; assumption.
  - eauto.
  - apply NoDup_app; [assumption | repeat constructor; intros [] | ].
    intros x Hx [<- | []]. contradiction.
  - now apply is_walk_snoc.
Qed.

Lemma in_extend_path g current path e :
  In e (extend_path g current path) ->
  exists neighbor, e = (neighbor, path ++ [neighbor]) /\
                   In neighbor (graph_get g current) /\
                   memZ neighbor path = false.
Proof.
  unfold extend_path. rewrite in_map_iff.
  intros [nb [<- Hin]]. apply filter_In in Hin. destruct Hin as [Hin Hm].
  exists nb. repeat split; [assumption|].
  now apply negb_true_iff in Hm.
Qed.

Lemma find_all_paths_loop_sound g source target ml :
  forall fuel queue paths result,
    (forall current path, In (current, path) queue ->
                          simple_path g source current path) ->
    (forall path, In path paths -> simple_path g source target path) ->
    find_all_paths_loop fuel g target ml queue paths = Some result ->
    forall path, In path result -> simple_path g source target path.
Proof.
  induction fuel as [|fuel IH]; intros queue paths result Hq Hp Hrun r Hr;
    [discriminate|].
  destruct queue as [|[current path] queue]; simpl in Hrun.
  - inversion Hrun; subst. auto.
  - assert (Hcur : simple_path g source current path) by (apply Hq; now left).
    assert (Hq' : forall c p, In (c, p) queue -> simple_path g source c p)
      by (intros c p Hin; apply Hq; now right).
    destruct (current =? target) eqn:Heq.
    + apply Z.eqb_eq in Heq. subst current.
      eapply IH; [exact Hq' | | exact Hrun | exact Hr].
      intros p Hin. apply in_app_iff in Hin. destruct Hin as [Hin | [<- | []]]; auto.
    + destruct (len path >=? ml).
      * eapply IH; [exact Hq' | exact Hp | exact Hrun | exact Hr].
      * eapply IH; [ | exact Hp | exact Hrun | exact Hr].
        intros c p Hin. apply in_app_iff in Hin. destruct Hin as [Hin | Hin]; [auto|].
        apply in_extend_path in Hin. destruct Hin as [nb [Hcp [Hnb Hmem]]].
        inversion Hcp; subst. now apply simple_path_snoc with (current := current).
Qed.

(** Every path [find_all_paths] returns is a simple path of the graph
    from [source] to [target]. *)
Theorem find_all_paths_simple g source target max_length path :
  In path (find_all_paths g source target max_length) ->
  simple_path g source target path.
Proof.
  unfold find_all_paths, find_all_paths_opt.
  destruct (negb (Dict.mem g source) || negb (Dict.mem g target)); [intros []|].
  destruct (find_all_paths_loop _ g target max_length _ _) as [result|] eqn:Hrun;
    [|intros []].
  apply (find_all_paths_loop_sound g source target max_length _ _ _ _)
    with (3 := Hrun).
  - intros c p [Heq | []]. inversion Heq; subst.
    repeat split; simpl; auto.
    + exists []. reflexivity.
    + repeat constructor. intros [].
  - intros p [].
Qed.

(** ** The greedy selection *)

Lemma in_insert_by_len p q l : In q (insert_by_len p l) <-> q = p \/ In q l.
Proof.
  induction l as [|x l IH]; simpl.
  - intuition.
  - destruct (len x <? len p); simpl; rewrite ?IH; intuition.
Qed.

Lemma in_sort_by_len p l : In p (sort_by_len l) <-> In p l.
Proof.
  unfold sort_by_len. induction l as [|x l IH]; simpl.
  - tauto.
  - rewrite in_insert_by_len, IH. intuition.
Qed.


Lemma are_paths_edge_disjoint_spec path1 path2 :
  are_paths_edge_disjoint path1 path2 = true <-> edge_disjoint path1 path2.
Proof.
  unfold are_paths_edge_disjoint, edge_disjoint.
  rewrite <- intersection_empty. unfold len.
  destruct (intersection _ _); simpl; split; intros H;
    try reflexivity; try discriminate.
Qed.


Lemma pairwise_disjoint_snoc l p :
  pairwise_disjoint l ->
  (forall q, In q l -> edge_disjoint q p) ->
  pairwise_disjoint (l ++ [p]).
Proof.
  induction l as [|x l IH]; simpl; intros Hl Hp.
  - split; [intros q [] | exact I].
  - destruct Hl as [Hx Hl]. split.
    + intros q Hq. apply in_app_iff in Hq. destruct Hq as [Hq | [<- | []]]; auto.
    + apply IH; auto.
Qed.

Lemma pairwise_disjoint_nth l :
  pairwise_disjoint l ->
  forall i j p q, (i < j)%nat -> nth_error l i = Some p -> nth_error l j = Some q ->
                  edge_disjoint p q.
Proof.
  induction l as [|x l IH]; intros Hl i j p q Hij Hi Hj.
  - destruct i; discriminate.
  - destruct Hl as [Hx Hl]. destruct j as [|j]; [lia|]. simpl in Hj.
    destruct i as [|i]; simpl in Hi.
    + inversion Hi; subst. apply Hx. eapply nth_error_In; eauto.
    + apply (IH Hl i j); auto. lia.
Qed.

Lemma edge_disjoint_sym p q : edge_disjoint p q -> edge_disjoint q p.
Proof. unfold edge_disjoint. intros H e Hq Hp. exact (H e Hp Hq). Qed.

Lemma select_disjoint_sound k :
  forall all_paths disjoint_paths used_edges,
    pairwise_disjoint disjoint_paths ->
    (forall p e, In p disjoint_paths -> In e (path_edges p) -> In e used_edges) ->
    let result := select_disjoint k all_paths disjoint_paths used_edges in
    pairwise_disjoint result /\
    (forall p, In p result -> In p disjoint_paths \/ In p all_paths) /\
    (len disjoint_paths < k -> len result <= k).
Proof.
  induction all_paths as [|path rest IH]; intros dp used Hpw Hused; simpl.
  - split; [|split]; auto. lia.
  - destruct (is_empty (intersection (path_edges path) used)) eqn:Hint.
    + rewrite intersection_empty in Hint.
      assert (Hpw' : pairwise_disjoint (dp ++ [path])).
      { apply pairwise_disjoint_snoc; [assumption|].
        intros q Hq e He Hp. apply (Hint e Hp). eapply Hused; eauto. }
      assert (Hlen : len (dp ++ [path]) = len dp + 1).
      { unfold len. rewrite length_app. simpl. lia. }
      destruct (len (dp ++ [path]) >=? k) eqn:Hk.
      * split; [|split]; [assumption | | lia].
        intros p Hp. apply in_app_iff in Hp. simpl in *. intuition.
      * specialize (IH (dp ++ [path]) (update used (path_edges path)) Hpw').
        destruct IH as [H1 [H2 H3]].
        { intros p e Hp He. apply in_update. apply in_app_iff in Hp.
          destruct Hp as [Hp | [<- | []]]; eauto. }
        split; [|split]; [assumption | | intros; apply H3; lia].
        intros p Hp. destruct (H2 p Hp) as [Hin | Hin]; [|simpl; auto].
        apply in_app_iff in Hin. simpl in *. intuition.
    + destruct (len dp >=? k) eqn:Hk.
      * split; [|split]; [assumption | auto | lia].
      * specialize (IH dp used Hpw Hused). destruct IH as [H1 [H2 H3]].
        split; [|split]; [assumption | | assumption].
        intros p Hp. destruct (H2 p Hp); simpl; auto.
Qed.

(** X4. What [find_disjoint_paths] returns, for every graph, every pair of
    nodes and every [k]: simple paths of the graph from [source] to
    [target], no two of which share an edge, and at most [k] of them when
    [k] is at least 1 (at most one when it is not). *)
Theorem find_disjoint_paths_spec g source target k :
  let result := find_disjoint_paths g source target k in
  (forall path, In path result -> simple_path g source target path) /\
  (forall i j path1 path2,
      i <> j -> nth_error result i = Some path1 -> nth_error result j = Some path2 ->
      are_paths_edge_disjoint path1 path2 = true) /\
  len result <= Z.max k 1.
Proof.
  unfold find_disjoint_paths. destruct (source =? target).
  - simpl. split; [|split].
    + intros p [].
    + intros i j p q _ Hi. destruct i; discriminate.
    + unfold len. simpl. lia.
  - set (all := sort_by_len (find_all_paths g source target default_max_length)).
    assert (Hsel : pairwise_disjoint (select_disjoint k all [] []) /\
                   (forall p, In p (select_disjoint k all [] []) ->
                              In p [] \/ In p all) /\
                   (len (@nil (list Z)) < k ->
                    len (select_disjoint k all [] []) <= k)).
    { apply select_disjoint_sound; [exact I | intros p e []]. }
    destruct Hsel as [K1 [K2 K3]].
    simpl. split; [|split].
    + intros p Hp. destruct (K2 p Hp) as [[] | Hin].
      unfold all in Hin. apply (proj1 (in_sort_by_len _ _)) in Hin.
      eapply find_all_paths_simple; eauto.
    + intros i j p q Hij Hi Hj. apply are_paths_edge_disjoint_spec.
      destruct (Nat.lt_ge_cases i j) as [Hlt | Hge].
      * eapply pairwise_disjoint_nth; eauto.
      * apply edge_disjoint_sym. eapply (pairwise_disjoint_nth _ K1 j i); eauto. lia.
    + destruct (Z.le_gt_cases 1 k) as [Hk | Hk].
      * rewrite Z.max_l by lia. apply K3. unfold len. simpl. lia.
      * rewrite Z.max_r by lia.
        (* with k < 1 the loop stops after the first path it looks at *)
        clear K1 K2 K3. destruct all as [|p rest]; simpl; [unfold len; simpl; lia|].
        destruct (is_empty _);
          match goal with
          | |- context [?a >=? k] => destruct (a >=? k) eqn:E
          end;
          try (unfold len; simpl; lia);
          rewrite Z.geb_leb in E; apply Z.leb_gt in E;
          unfold len in E; simpl in E; lia.
Qed.


(** ** Termination of the connectivity search *)

Lemma visit_neighbors_spec excluded_nodes :
  forall nbs visited queue,
    exists added,
      visit_neighbors excluded_nodes nbs (visited, queue)
        = (visited ++ added, queue ++ added) /\
      (NoDup visited -> NoDup (visited ++ added)) /\
      incl added nbs.
Proof.
  unfold visit_neighbors.
  induction nbs as [|nb nbs IH]; intros visited queue; simpl.
  - exists []. rewrite !app_nil_r. repeat split; auto. intros x [].
  - destruct (negb (memZ nb excluded_nodes) && negb (memZ nb visited)) eqn:Hc.
    + destruct (IH (visited ++ [nb]) (queue ++ [nb])) as [added [Heq [Hnd Hin]]].
      exists (nb :: added). rewrite Heq, <- !app_assoc. simpl.
      repeat split.
      * intros Hv. rewrite <- !app_assoc in Hnd. simpl in Hnd. apply Hnd.
        apply andb_true_iff in Hc. destruct Hc as [_ Hc].
        apply negb_true_iff, memZ_false in Hc.
        apply NoDup_app; [assumption | repeat constructor; intros [] |].
        intros x Hx [<- | []]. contradiction.
      * intros x [<- | Hx]; [now left | right; auto].
    + destruct (IH visited queue) as [added [Heq [Hnd Hin]]].
      exists added. rewrite Heq. repeat split; auto.
      intros x Hx. right. auto.
Qed.

Lemma graph_get_incl g current : incl (graph_get g current) (flat_map snd g).
Proof.
  unfold graph_get. induction g as [|[k s] g IH]; simpl.
  - intros x [].
  - destruct (k =? current).
    + apply incl_appl, incl_refl.
    + apply incl_appr, IH.
Qed.

Lemma bfs_loop_terminates_from g excluded_nodes universe :
  incl (flat_map snd g) universe ->
  forall fuel visited queue,
    NoDup visited -> incl visited universe ->
    (length universe - length visited + length queue < fuel)%nat ->
    exists result,
      bfs_loop fuel g excluded_nodes visited queue = Some result /\
      incl visited result.
Proof.
  intros HU. induction fuel as [|fuel IH]; intros visited queue Hnd Hincl Hm; [lia|].
  destruct queue as [|current queue]; simpl.
  - exists visited. split; [reflexivity | apply incl_refl].
  - destruct (visit_neighbors_spec excluded_nodes (graph_get g current) visited queue)
      as [added [Heq [Hnd' Hadd]]].
    rewrite Heq.
    assert (Hincl' : incl (visited ++ added) universe).
    { apply incl_app; [assumption|].
      intros x Hx. apply HU. eapply graph_get_incl. eauto. }
    destruct (IH (visited ++ added) (queue ++ added)) as [result [Hr Hsub]]; auto.
    + pose proof (NoDup_incl_length (Hnd' Hnd) Hincl') as Hlen.
      rewrite !length_app in *. simpl in Hm. lia.
    + exists result. split; [assumption|].
      intros x Hx. apply Hsub. apply in_app_iff. now left.
Qed.

Theorem bfs_loop_terminates g excluded_nodes start_node :
  exists visited,
    bfs_loop (bfs_fuel g) g excluded_nodes [start_node] [start_node] = Some visited /\
    In start_node visited.
Proof.
  destruct (bfs_loop_terminates_from g excluded_nodes (start_node :: flat_map snd g))
    with (fuel := bfs_fuel g) (visited := [start_node]) (queue := [start_node])
    as [result [Hr Hsub]].
  - apply incl_tl, incl_refl.
  - repeat constructor. intros [].
  - intros x [<- | []]. now left.
  - unfold bfs_fuel. simpl. lia.
  - exists result. split; [assumption | apply Hsub; now left].
Qed.

(** [is_graph_connected] always returns. *)
Theorem is_graph_connected_terminates g excluded_nodes :
  is_graph_connected_opt g excluded_nodes
    = Some (is_graph_connected g excluded_nodes).
Proof.
  unfold is_graph_connected, is_graph_connected_opt.
  destruct (is_empty g); [reflexivity|].
  destruct (first_not_excluded g excluded_nodes) as [start|]; [|reflexivity].
  destruct (bfs_loop_terminates g excluded_nodes start) as [visited [Hv _]].
  rewrite Hv. reflexivity.
Qed.

(** ** The excluded set matters through membership only *)


Lemma visit_neighbors_ext s1 s2 :
  same_members s1 s2 ->
  forall nbs vq, visit_neighbors s1 nbs vq = visit_neighbors s2 nbs vq.
Proof.
  intros Hs. unfold visit_neighbors.
  induction nbs as [|nb nbs IH]; intros [visited queue]; simpl.
  - reflexivity.
  - rewrite (Hs nb). apply IH.
Qed.

Lemma bfs_loop_ext g s1 s2 :
  same_members s1 s2 ->
  forall fuel visited queue,
    bfs_loop fuel g s1 visited queue = bfs_loop fuel g s2 visited queue.
Proof.
  intros Hs. induction fuel as [|fuel IH]; intros visited queue; simpl.
  - reflexivity.
  - destruct queue as [|current queue]; [reflexivity|].
    rewrite (visit_neighbors_ext s1 s2 Hs).
    destruct (visit_neighbors s2 _ _). apply IH.
Qed.

Lemma find_ext_in {A : Type} (f h : A -> bool) l :
  (forall x, f x = h x) -> find f l = find h l.
Proof.
  intros H. induction l as [|x l IH]; simpl; [reflexivity|].
  rewrite H, IH. reflexivity.
Qed.

Lemma forallb_ext_all {A : Type} (f h : A -> bool) l :
  (forall x, f x = h x) -> forallb f l = forallb h l.
Proof.
  intros H. induction l as [|x l IH]; simpl; [reflexivity|].
  rewrite H, IH. reflexivity.
Qed.

Lemma is_graph_connected_ext g s1 s2 :
  same_members s1 s2 -> is_graph_connected g s1 = is_graph_connected g s2.
Proof.
  intros Hs. unfold is_graph_connected, is_graph_connected_opt, first_not_excluded.
  destruct (is_empty g); [reflexivity|].
  rewrite (find_ext_in _ (fun node => negb (memZ node s2)))
    by (intros x; now rewrite (Hs x)).
  destruct (find _ _) as [start|]; [|reflexivity].
  rewrite (bfs_loop_ext g s1 s2 Hs).
  destruct (bfs_loop _ g s2 _ _) as [visited|]; [|reflexivity].
  cbn beta iota. apply forallb_ext_all. intros x. now rewrite (Hs x).
Qed.

Lemma in_py_set x l : In x (py_set l) <-> In x l.
Proof.
  induction l as [|y l IH]; simpl; [tauto|].
  destruct (memZ y l) eqn:Hm.
  - apply memZ_In in Hm. rewrite IH. split; [auto | intros [<- | H]; auto].
  - simpl. rewrite IH. tauto.
Qed.

Lemma same_members_iff s1 s2 :
  (forall x, In x s1 <-> In x s2) -> same_members s1 s2.
Proof.
  intros H x. destruct (memZ x s2) eqn:H2.
  - apply memZ_In. apply H. now apply memZ_In.
  - apply memZ_false. intros H1. apply H in H1. apply memZ_In in H1. congruence.
Qed.

Lemma is_graph_connected_py_set g s :
  is_graph_connected g (py_set s) = is_graph_connected g s.
Proof.
  apply is_graph_connected_ext, same_members_iff. intros x. apply in_py_set.
Qed.


(** ** Subsets and [combinations] *)



Lemma combinations_sound :
  forall l k c, In c (combinations l k) ->
                length c = k /\ incl c l /\ (NoDup l -> NoDup c).
Proof.
  induction l as [|x l IH]; intros k c Hin.
  - destruct k; simpl in Hin; [|contradiction].
    destruct Hin as [<- | []]. repeat split; auto. intros y [].
  - destruct k as [|k]; simpl in Hin.
    + destruct Hin as [<- | []]. repeat split; auto; [intros y [] | constructor].
    + apply in_app_iff in Hin. destruct Hin as [Hin | Hin].
      * apply in_map_iff in Hin. destruct Hin as [c' [<- Hc']].
        destruct (IH k c' Hc') as [Hlen [Hincl Hnd]].
        repeat split.
        -- simpl. now rewrite Hlen.
        -- intros y [<- | Hy]; [now left | right; auto].
        -- intros Hl. inversion Hl; subst. constructor; auto.
      * destruct (IH (S k) c Hin) as [Hlen [Hincl Hnd]].
        repeat split; auto.
        -- intros y Hy. right. auto.
        -- intros Hl. inversion Hl; subst. auto.
Qed.

Lemma combinations_filter (f : Z -> bool) :
  forall l, In (filter f l) (combinations l (length (filter f l))).
Proof.
  induction l as [|x l IH]; simpl.
  - now left.
  - destruct (f x); simpl.
    + apply in_app_iff. left. now apply in_map.
    + destruct (length (filter f l)) eqn:Hlen.
      * apply length_zero_iff_nil in Hlen. rewrite Hlen. now left.
      * apply in_app_iff. right. assumption.
Qed.

(** Every [k]-subset of the nodes has the members of one of the
    combinations the code enumerates. *)
Lemma k_subset_combination nodes_list k S :
  NoDup nodes_list -> k_subset nodes_list k S ->
  exists c, In c (combinations nodes_list k) /\ same_members c S.
Proof.
  intros Hnd [HS [Hincl Hlen]].
  set (c := filter (fun x => memZ x S) nodes_list).
  assert (Hmem : forall x, In x c <-> In x S).
  { intros x. unfold c. rewrite filter_In, memZ_In. split; [tauto|].
    intros Hx. split; auto. }
  assert (Hc : NoDup c) by (apply NoDup_filter; assumption).
  assert (Hl : length c = k).
  { rewrite <- Hlen. apply Permutation_length.
    apply NoDup_Permutation; assumption. }
  exists c. split.
  - rewrite <- Hl. apply combinations_filter.
  - now apply same_members_iff.
Qed.

Lemma found_disconnecting_set_spec g k :
  NoDup (Dict.keys g) ->
  found_disconnecting_set g (Dict.keys g) k = true <->
  exists S, k_subset (Dict.keys g) k S /\ disconnects g S.
Proof.
  intros Hnd. unfold found_disconnecting_set, disconnects.
  rewrite existsb_exists. split.
  - intros [c [Hin Hdis]]. apply negb_true_iff in Hdis.
    rewrite is_graph_connected_py_set in Hdis.
    destruct (combinations_sound _ _ _ Hin) as [Hlen [Hincl Hc]].
    exists c. repeat split; auto.
  - intros [S [HS Hdis]].
    destruct (k_subset_combination _ _ _ Hnd HS) as [c [Hin Hsame]].
    exists c. split; [assumption|].
    apply negb_true_iff. rewrite is_graph_connected_py_set.
    now rewrite (is_graph_connected_ext g c S Hsame).
Qed.

(** ** What is left when all nodes but one are removed *)

Lemma first_not_excluded_spec g S start :
  first_not_excluded g S = Some start ->
  In start (Dict.keys g) /\ ~ In start S.
Proof.
  unfold first_not_excluded. intros H. apply find_some in H.
  destruct H as [Hin Hm]. split; [assumption|].
  now apply negb_true_iff, memZ_false in Hm.
Qed.

Lemma first_not_excluded_none g S :
  first_not_excluded g S = None -> incl (Dict.keys g) S.
Proof.
  unfold first_not_excluded. intros H x Hx.
  pose proof (find_none _ _ H x Hx) as Hm. simpl in Hm.
  apply negb_false_iff in Hm. now apply memZ_In.
Qed.

Lemma one_node_left_connected g S :
  g <> [] ->
  k_subset (Dict.keys g) (length (Dict.keys g) - 1) S ->
  is_graph_connected g S = true.
Proof.
  intros Hg [HS [Hincl Hlen]].
  unfold is_graph_connected, is_graph_connected_opt.
  destruct (is_empty g) eqn:He; [destruct g; [congruence | discriminate]|].
  destruct (first_not_excluded g S) as [start|] eqn:Hstart; [|reflexivity].
  destruct (bfs_loop_terminates g S start) as [visited [Hv Hin]].
  rewrite Hv. apply forallb_forall. intros node Hnode.
  apply first_not_excluded_spec in Hstart. destruct Hstart as [Hs1 Hs2].
  destruct (memZ node S) eqn:HnS; [reflexivity|]. simpl.
  apply memZ_false in HnS. apply memZ_In.
  destruct (Z.eq_dec node start) as [-> | Hne]; [assumption | exfalso].
  assert (Hnd : NoDup (node :: start :: S)).
  { constructor; [intros [H | H]; [congruence | contradiction]|].
    constructor; assumption. }
  assert (Hsub : incl (node :: start :: S) (Dict.keys g)).
  { intros x [<- | [<- | Hx]]; auto. }
  pose proof (NoDup_incl_length Hnd Hsub) as Hle. cbn [length] in Hle. lia.
Qed.

Lemma all_nodes_removed_connected g S :
  NoDup (Dict.keys g) ->
  k_subset (Dict.keys g) (length (Dict.keys g)) S ->
  g <> [] ->
  is_graph_connected g S = true.
Proof.
  intros Hnd [HS [Hincl Hlen]] Hg.
  unfold is_graph_connected, is_graph_connected_opt.
  destruct (is_empty g) eqn:He; [destruct g; [congruence | discriminate]|].
  destruct (first_not_excluded g S) as [start|] eqn:Hstart; [|reflexivity].
  apply first_not_excluded_spec in Hstart. destruct Hstart as [Hs1 Hs2].
  exfalso. apply Hs2.
  apply (@NoDup_length_incl Z S (Dict.keys g) HS); [lia | assumption | assumption].
Qed.

(** ** The outer loop *)

Lemma connectivity_loop_found g nodes_list :
  forall n start k,
    (start <= k < start + n)%nat ->
    found_disconnecting_set g nodes_list k = true ->
    (forall j, (start <= j < k)%nat -> found_disconnecting_set g nodes_list j = false) ->
    connectivity_loop g nodes_list (seq start n) = Some (Z.of_nat k - 1).
Proof.
  induction n as [|n IH]; intros start k Hk Hfound Hbelow; [lia|].
  simpl. destruct (Nat.eq_dec start k) as [-> | Hne].
  - now rewrite Hfound.
  - rewrite (Hbelow start) by lia. apply IH; [lia | assumption |].
    intros j Hj. apply Hbelow. lia.
Qed.

Lemma connectivity_loop_none g nodes_list :
  forall n start,
    (forall j, (start <= j < start + n)%nat ->
               found_disconnecting_set g nodes_list j = false) ->
    connectivity_loop g nodes_list (seq start n) = None.
Proof.
  induction n as [|n IH]; intros start Hnone; [reflexivity|].
  simpl. rewrite (Hnone start) by lia. apply IH. intros j Hj. apply Hnone. lia.
Qed.

Lemma not_found_iff g k :
  NoDup (Dict.keys g) ->
  found_disconnecting_set g (Dict.keys g) k = false <->
  forall S, k_subset (Dict.keys g) k S -> ~ disconnects g S.
Proof.
  intros Hnd. split.
  - intros Hf S HS Hdis.
    assert (Ht : found_disconnecting_set g (Dict.keys g) k = true)
      by (apply found_disconnecting_set_spec; eauto).
    congruence.
  - intros H. destruct (found_disconnecting_set g (Dict.keys g) k) eqn:Hf;
      [|reflexivity].
    apply found_disconnecting_set_spec in Hf; [|assumption].
    destruct Hf as [S [HS Hdis]]. exfalso. exact (H S HS Hdis).
Qed.

(** C5. [calculate_node_connectivity] on a graph of [n >= 2] nodes: when
    [k >= 1] is the smallest size of a node subset whose removal
    disconnects the graph (as [is_graph_connected] checks it, by a
    breadth-first search from the first node not removed), the result is
    [k - 1]; when no subset of a size from 1 to [n - 2] disconnects it, the
    result is [n - 1]. *)
Theorem calculate_node_connectivity_algorithm (g : graph_t) :
  NoDup (Dict.keys g) ->
  (2 <= length (Dict.keys g))%nat ->
  (forall k : nat,
      (1 <= k)%nat ->
      (exists S, k_subset (Dict.keys g) k S /\ disconnects g S) ->
      (forall j S, (1 <= j < k)%nat -> k_subset (Dict.keys g) j S ->
                   ~ disconnects g S) ->
      calculate_node_connectivity g = Z.of_nat k - 1) /\
  ((forall j S, (1 <= j < length (Dict.keys g) - 1)%nat ->
                k_subset (Dict.keys g) j S -> ~ disconnects g S) ->
   calculate_node_connectivity g = Z.of_nat (length (Dict.keys g)) - 1).
Proof.
  intros Hnd Hn.
  assert (Hg : g <> []) by (intros ->; simpl in Hn; lia).
  assert (Hcalc : calculate_node_connectivity g =
                  match connectivity_loop g (Dict.keys g)
                          (seq 1 (length (Dict.keys g) - 1)) with
                  | Some c => c
                  | None => len (Dict.keys g) - 1
                  end).
  { unfold calculate_node_connectivity. destruct g; [congruence|].
    cbn [is_empty].
    destruct (len (Dict.keys (p :: g)) <=? 1) eqn:Hle; [|reflexivity].
    apply Z.leb_le in Hle. unfold len in Hle. lia. }
  split.
  - intros k Hk [S [HS Hdis]] Hmin.
    assert (Hkn : (k < length (Dict.keys g) - 1)%nat).
    { destruct HS as [HS1 [HS2 HS3]].
      pose proof (NoDup_incl_length HS1 HS2) as Hle. rewrite HS3 in Hle.
      destruct (Nat.eq_dec k (length (Dict.keys g))) as [-> | Hne1].
      { unfold disconnects in Hdis.
        rewrite all_nodes_removed_connected in Hdis;
          [discriminate | assumption | repeat split; assumption | assumption]. }
      destruct (Nat.eq_dec k (length (Dict.keys g) - 1)) as [-> | Hne2].
      { unfold disconnects in Hdis.
        rewrite one_node_left_connected in Hdis;
          [discriminate | assumption | repeat split; assumption]. }
      lia. }
    rewrite Hcalc.
    rewrite (connectivity_loop_found g (Dict.keys g) _ 1%nat k); [reflexivity | lia | |].
    + apply found_disconnecting_set_spec; eauto.
    + intros j Hj. apply not_found_iff; [assumption|].
      intros S' HS'. apply (Hmin j); assumption.
  - intros Hnone. rewrite Hcalc.
    rewrite connectivity_loop_none; [reflexivity|].
    intros j Hj. apply not_found_iff; [assumption|].
    intros S HS Hdis.
    destruct (Nat.eq_dec j (length (Dict.keys g) - 1)) as [-> | Hne].
    + unfold disconnects in Hdis.
      rewrite one_node_left_connected in Hdis; [discriminate | assumption | assumption].
    + apply (Hnone j S); [lia | assumption | assumption].
Qed.

(** ** What the connectivity search decides *)

Lemma visit_neighbors_reach excluded_nodes :
  forall nbs visited queue,
    exists added,
      visit_neighbors excluded_nodes nbs (visited, queue)
        = (visited ++ added, queue ++ added) /\
      (forall x, In x added -> In x nbs /\ ~ In x excluded_nodes) /\
      (forall x, In x nbs -> ~ In x excluded_nodes -> In x (visited ++ added)).
Proof.
  unfold visit_neighbors.
  induction nbs as [|nb nbs IH]; intros visited queue; simpl.
  - exists []. rewrite !app_nil_r. split; [reflexivity|].
    split; [intros x [] | intros x []].
  - destruct (negb (memZ nb excluded_nodes) && negb (memZ nb visited)) eqn:Hc.
    + apply andb_true_iff in Hc. destruct Hc as [He Hv].
      apply negb_true_iff, memZ_false in He.
      destruct (IH (visited ++ [nb]) (queue ++ [nb])) as [added [Heq [Hin Hall]]].
      exists (nb :: added). rewrite Heq, <- !app_assoc. simpl.
      split; [reflexivity|]. split.
      * intros x [<- | Hx]; [auto|]. destruct (Hin x Hx). auto.
      * intros x [<- | Hx] Hne.
        -- apply in_app_iff. right. now left.
        -- specialize (Hall x Hx Hne). rewrite <- app_assoc in Hall. exact Hall.
    + destruct (IH visited queue) as [added [Heq [Hin Hall]]].
      exists added. rewrite Heq. split; [reflexivity|]. split.
      * intros x Hx. destruct (Hin x Hx). auto.
      * intros x [<- | Hx] Hne; [|auto].
        apply andb_false_iff in Hc. destruct Hc as [Hc | Hc];
          apply negb_false_iff, memZ_In in Hc; [contradiction|].
        apply in_app_iff. now left.
Qed.

Lemma bfs_loop_invariant g excluded_nodes start :
  forall fuel visited queue result,
    search_invariant g excluded_nodes start visited queue ->
    bfs_loop fuel g excluded_nodes visited queue = Some result ->
    search_invariant g excluded_nodes start result [] /\ incl visited result.
Proof.
  induction fuel as [|fuel IH]; intros visited queue result Hinv Hrun;
    [discriminate|].
  destruct queue as [|current queue]; simpl in Hrun.
  - inversion Hrun; subst. split; [assumption | apply incl_refl].
  - destruct (visit_neighbors_reach excluded_nodes (graph_get g current) visited queue)
      as [added [Heq [Hadd Hall]]].
    rewrite Heq in Hrun. destruct Hinv as [Hreach [Hqueue Hclosed]].
    assert (Hcur : reachable g excluded_nodes start current)
      by (apply Hreach, Hqueue; now left).
    destruct (IH (visited ++ added) (queue ++ added) result) as [Hres Hsub];
      [|assumption|].
    + split; [|split].
      * intros u Hu. apply in_app_iff in Hu. destruct Hu as [Hu | Hu]; [auto|].
        destruct (Hadd u Hu) as [Hnb Hex]. now apply reach_step with (u := current).
      * intros u Hu. apply in_app_iff in Hu. apply in_app_iff.
        destruct Hu as [Hu | Hu]; [left; apply Hqueue; now right | now right].
      * intros u Hu. apply in_app_iff in Hu. destruct Hu as [Hu | Hu].
        -- destruct (Hclosed u Hu) as [[<- | Hq] | Hc].
           ++ right. exact Hall.
           ++ left. apply in_app_iff. now left.
           ++ right. intros v Hv Hex. apply in_app_iff. left. auto.
        -- left. apply in_app_iff. now right.
    + split; [assumption|].
      intros u Hu. apply Hsub. apply in_app_iff. now left.
Qed.

(** X7. [is_graph_connected] decides reachability: on a graph with nodes, it
    answers [True] exactly when every node left is reachable, avoiding the
    excluded nodes, from the first node left in the order of the dict (and
    so also when no node is left). *)
Theorem is_graph_connected_spec (g : graph_t) (excluded_nodes : list Z) :
  is_graph_connected g excluded_nodes = true <->
  g <> [] /\
  forall start, first_not_excluded g excluded_nodes = Some start ->
    forall u, In u (Dict.keys g) -> ~ In u excluded_nodes ->
              reachable g excluded_nodes start u.
Proof.
  unfold is_graph_connected, is_graph_connected_opt.
  destruct g as [|kv g']; [simpl; split; [discriminate | intros [H _]; congruence]|].
  cbn [is_empty]. set (g := kv :: g').
  destruct (first_not_excluded g excluded_nodes) as [start|] eqn:Hstart.
  - destruct (bfs_loop_terminates g excluded_nodes start) as [visited [Hrun Hin]].
    rewrite Hrun.
    destruct (bfs_loop_invariant g excluded_nodes start
                (bfs_fuel g) [start] [start] visited)
      as [[Hreach [_ Hclosed]] Hsub]; [|exact Hrun|].
    { split; [|split].
      - intros u [<- | []]. constructor.
      - apply incl_refl.
      - intros u Hu. now left. }
    rewrite forallb_forall. split.
    + intros Hall. split; [discriminate|].
      intros start' Heq u Hu Hex. inversion Heq; subst start'.
      specialize (Hall u Hu). apply orb_true_iff in Hall.
      destruct Hall as [Hm | Hm]; apply memZ_In in Hm; [contradiction | auto].
    + intros [_ Hall] u Hu. apply orb_true_iff.
      destruct (memZ u excluded_nodes) eqn:Hm; [now left | right].
      apply memZ_false in Hm. apply memZ_In.
      assert (Hr : forall x, reachable g excluded_nodes start x -> In x visited).
      { intros x Hx. induction Hx as [|a b Ha IHa Hab Hb]; [assumption|].
        destruct (Hclosed a IHa) as [[] | Hc]. auto. }
      apply Hr. now apply Hall.
  - split; [|reflexivity].
    intros _. split; [discriminate | intros start Heq; discriminate].
Qed.

(** ** Dicts *)

Lemma get_set_eq {V : Type} (d : list (Z * V)) k v :
  Dict.get (Dict.set d k v) k = Some v.
Proof.
  induction d as [|[k' v'] d IH]; simpl.
  - now rewrite Z.eqb_refl.
  - destruct (k' =? k) eqn:Hk; simpl.
    + now rewrite Z.eqb_refl.
    + now rewrite Hk.
Qed.

Lemma get_set_neq {V : Type} (d : list (Z * V)) k k' v :
  k <> k' -> Dict.get (Dict.set d k v) k' = Dict.get d k'.
Proof.
  intros Hne. induction d as [|[k0 v0] d IH]; simpl.
  - destruct (k =? k') eqn:Hk; [apply Z.eqb_eq in Hk; contradiction | reflexivity].
  - destruct (k0 =? k) eqn:Hk; simpl.
    + apply Z.eqb_eq in Hk. subst k0.
      destruct (k =? k') eqn:Hk'; [apply Z.eqb_eq in Hk'; contradiction | reflexivity].
    + destruct (k0 =? k'); [reflexivity | assumption].
Qed.

Lemma get_some_in {V : Type} (d : list (Z * V)) k v :
  Dict.get d k = Some v -> In k (Dict.keys d).
Proof.
  induction d as [|[k' v'] d IH]; simpl; [discriminate|].
  destruct (k' =? k) eqn:Hk.
  - apply Z.eqb_eq in Hk. auto.
  - auto.
Qed.

Lemma in_get_some {V : Type} (d : list (Z * V)) k :
  In k (Dict.keys d) -> exists v, Dict.get d k = Some v.
Proof.
  induction d as [|[k' v'] d IH]; simpl; [intros []|].
  intros [-> | Hin].
  - rewrite Z.eqb_refl. eauto.
  - destruct (k' =? k); eauto.
Qed.

Lemma in_insert_by_key {A : Type} (kv : Z * A) l k :
  In k (map fst (insert_by_key kv l)) <-> k = fst kv \/ In k (map fst l).
Proof.
  induction l as [|x l IH]; simpl.
  - intuition.
  - destruct (fst x <? fst kv); simpl; rewrite ?IH; intuition.
Qed.

Lemma in_sorted_items {A : Type} (d : list (Z * A)) k :
  In k (map fst (sorted_items d)) <-> In k (map fst d).
Proof.
  unfold sorted_items. induction d as [|x d IH]; simpl.
  - tauto.
  - rewrite in_insert_by_key, IH. intuition.
Qed.

(** ** The final vote *)

Lemma vote_set_decision n d : vote (set_decision n d) = vote n.
Proof. reflexivity. Qed.

Lemma voting_frame :
  forall items decisions s id,
    ~ In id (map fst items) ->
    Dict.get (fst (fold_left voting_step items (decisions, s))) id
      = Dict.get decisions id /\
    Dict.get (nodes (snd (fold_left voting_step items (decisions, s)))) id
      = Dict.get (nodes s) id.
Proof.
  induction items as [|[k x] items IH]; intros decisions s id Hnot; simpl.
  - auto.
  - simpl in Hnot.
    assert (Hk : k <> id) by tauto.
    assert (Hrest : ~ In id (map fst items)) by tauto.
    destruct (Dict.get (nodes s) k) as [n|].
    + destruct (IH (Dict.set decisions k (vote n))
                   (set_nodes s (Dict.set (nodes s) k (set_decision n (Some (vote n)))))
                   id Hrest) as [H1 H2].
      rewrite H1, H2. simpl. rewrite !get_set_neq by assumption. auto.
    + now apply IH.
Qed.

Lemma voting_fold_spec :
  forall items decisions s id n,
    Dict.get (nodes s) id = Some n ->
    In id (map fst items) ->
    Dict.get (fst (fold_left voting_step items (decisions, s))) id = Some (vote n) /\
    exists n',
      Dict.get (nodes (snd (fold_left voting_step items (decisions, s)))) id = Some n' /\
      decision n' = Some (vote n) /\
      received_messages n' = received_messages n.
Proof.
  induction items as [|[k x] items IH]; intros decisions s id n Hget Hin;
    [contradiction|].
  simpl. destruct (Z.eq_dec k id) as [-> | Hne].
  - rewrite Hget.
    set (n1 := set_decision n (Some (vote n))).
    set (s1 := set_nodes s (Dict.set (nodes s) id n1)).
    assert (Hget1 : Dict.get (nodes s1) id = Some n1) by (simpl; apply get_set_eq).
    destruct (in_dec Z.eq_dec id (map fst items)) as [Hin' | Hnot].
    + destruct (IH (Dict.set decisions id (vote n)) s1 id n1 Hget1 Hin')
        as [H1 [n' [H2 [H3 H4]]]].
      split; [exact H1|]. exists n'. auto.
    + destruct (voting_frame items (Dict.set decisions id (vote n)) s1 id Hnot)
        as [H1 H2].
      rewrite H1, H2, Hget1, get_set_eq. split; [reflexivity|].
      exists n1. auto.
  - destruct Hin as [Heq | Hin]; [simpl in Heq; contradiction|].
    destruct (Dict.get (nodes s) k) as [nk|].
    + apply IH; [|assumption]. simpl. now rewrite get_set_neq.
    + now apply IH.
Qed.

(** [final_voting] gives every registered node, the commander like any
    other, the vote over all the values of its log, duplicates counted:
    [ATTACK] when they outnumber the [RETREAT]s, else [RETREAT]. *)
Theorem final_voting_decisions (s : BFT) (id : Z) (n : Node) :
  Dict.get (nodes s) id = Some n ->
  Dict.get (fst (final_voting s)) id = Some (vote n) /\
  exists n',
    Dict.get (nodes (snd (final_voting s))) id = Some n' /\
    decision n' = Some (vote n) /\
    received_messages n' = received_messages n.
Proof.
  intros Hget. unfold final_voting. apply voting_fold_spec; [assumption|].
  apply in_sorted_items. eapply get_some_in. eauto.
Qed.

Lemma vote_spec n :
  vote n = if count ATTACK (all_values n) >? count RETREAT (all_values n)
           then ATTACK else RETREAT.
Proof.
  unfold vote, majority. destruct (all_values n); reflexivity.
Qed.

(** C1. With two generals and [m = 0], the commander 0 is constructed
    with the initial value [ATTACK], receives nothing, and [final_voting]
    records [RETREAT] for it. *)
Theorem commander_decision_overwritten :
  let result := run_oral_consensus two_generals 0 ATTACK in
  option_map initial_value (Dict.get (nodes two_generals) 0) = Some (Some ATTACK) /\
  option_map decision (Dict.get (nodes two_generals) 0) = Some (Some ATTACK) /\
  fst result = Some [(0, RETREAT); (1, ATTACK)] /\
  option_map decision (Dict.get (nodes (snd result)) 0) = Some (Some RETREAT).
Proof. vm_compute. repeat split. Qed.

(** C2. Node 1 of [duplicated_log_system] has logged [ATTACK] with the
    path [0, 0] twice and [RETREAT] with the path [0, 2, 2] once:
    [final_voting] counts 2 against 1 and records [ATTACK], where one
    count per path is a tie and gives [RETREAT]. The same happens in a run:
    five generals, all connected, the signed run with [m = 2], a loyal
    commander ordering [ATTACK], traitors 1 and 2; the loyal node 3 is
    given [RETREAT], the vote over its log with the repeated entries
    counted, while every way of counting a path once gives [ATTACK]. *)
Theorem final_voting_counts_duplicates :
  (Dict.get (fst (final_voting duplicated_log_system)) 1 = Some ATTACK /\
   option_map vote_unique_paths (Dict.get (nodes duplicated_log_system) 1)
     = Some RETREAT /\
   option_map vote_unique_pairs (Dict.get (nodes duplicated_log_system) 1)
     = Some RETREAT /\
   option_map vote_unique_per_round (Dict.get (nodes duplicated_log_system) 1)
     = Some RETREAT) /\
  let result := run_signed_consensus five_generals 2 ATTACK in
  option_map (fun d => Dict.get d 3) (fst result) = Some (Some RETREAT) /\
  option_map is_traitor (Dict.get (nodes (snd result)) 3) = Some false /\
  option_map vote_unique_paths (Dict.get (nodes (snd result)) 3) = Some ATTACK /\
  option_map vote_unique_pairs (Dict.get (nodes (snd result)) 3) = Some ATTACK /\
  option_map vote_unique_per_round (Dict.get (nodes (snd result)) 3) = Some ATTACK.
Proof. vm_compute. repeat split. Qed.

(** ** Paths carried by messages *)

Lemma prefix_through_ends current :
  forall path, In current path ->
               exists prefix, prefix_through current path = prefix ++ [current].
Proof.
  induction path as [|x path IH]; intros Hin; [contradiction|].
  simpl. destruct (x =? current) eqn:Hx.
  - apply Z.eqb_eq in Hx. subst x. exists []. reflexivity.
  - destruct Hin as [-> | Hin]; [rewrite Z.eqb_refl in Hx; discriminate|].
    destruct (IH Hin) as [prefix Hp]. exists (x :: prefix). now rewrite Hp.
Qed.

(** Every message a node puts on a route of [send_via_multipath] names
    the node twice: the prefix handed to [send_message] already ends with
    the sender, and [send_message] appends it again. *)
Lemma multipath_message_repeats_sender (self : Node) (v : value)
    (target round_num current : Z) (route : list Z) :
  In current route ->
  node_id self = current ->
  ~ NoDup (msg_path (make_message self v target round_num
                                  (prefix_through current route))).
Proof.
  intros Hin Hid Hnd. unfold make_message in Hnd. simpl in Hnd.
  destruct (prefix_through_ends current route Hin) as [prefix Hp].
  rewrite Hp, Hid, <- app_assoc in Hnd. simpl in Hnd.
  apply NoDup_remove_2 in Hnd. apply Hnd.
  apply in_app_iff. right. now left.
Qed.

(** C3. With two generals and [m = 0], the only message of the run, from
    the commander 0 to node 1, carries the path [0, 0]. *)
Theorem message_path_repeats_sender :
  let result := run_oral_consensus two_generals 0 ATTACK in
  option_map received_messages (Dict.get (nodes (snd result)) 1)
    = Some [(0, [(ATTACK, [0; 0])])] /\
  find_disjoint_paths (graph two_generals) 0 1 1 = [[0; 1]] /\
  ~ NoDup [0; 0].
Proof.
  split; [vm_compute; reflexivity|]. split; [vm_compute; reflexivity|].
  intros H. inversion H as [|x l Hnot _]; subst. apply Hnot. now left.
Qed.

(** ** Connectivity of rings *)

(** C4. On the ring of four nodes no single node disconnects the graph
    and the pair 0, 2 does, so two nodes must be removed to disconnect it;
    [calculate_node_connectivity] returns 1. The triangle gives 2, the
    ring of five gives 1. *)
Theorem ring_connectivity_off_by_one :
  calculate_node_connectivity ring4 = 1 /\
  forallb (fun node => is_graph_connected ring4 [node]) (Dict.keys ring4) = true /\
  is_graph_connected ring4 [0; 2] = false /\
  calculate_node_connectivity ring3 = 2 /\
  calculate_node_connectivity ring5 = 1.
Proof. vm_compute. repeat split. Qed.

(** ** The connectivity check *)

Lemma verify_connectivity_iff g m use_signed_messages :
  verify_connectivity g m use_signed_messages = true <->
  calculate_node_connectivity g >= required_connectivity m use_signed_messages.
Proof.
  unfold verify_connectivity.
  destruct (calculate_node_connectivity g >=? required_connectivity m use_signed_messages)
    eqn:Hge; simpl.
  - rewrite Z.geb_leb in Hge. apply Z.leb_le in Hge. split; [lia | reflexivity].
  - rewrite Z.geb_leb in Hge. apply Z.leb_gt in Hge. split; [discriminate | lia].
Qed.

(** ** The selection with [k = 0] *)

(** C7. Asked for [k = 0] paths between the two nodes of the two-node
    graph, [find_disjoint_paths] returns one path: the bound is tested
    after the first path has been accepted. *)
Theorem find_disjoint_paths_zero :
  find_disjoint_paths (graph two_generals) 0 1 0 = [[0; 1]] /\
  len (find_disjoint_paths (graph two_generals) 0 1 0) > 0.
Proof. vm_compute. split; reflexivity. Qed.

(** ** The runs behind the connectivity check *)

(** C9. When the connectivity check fails, [run_oral_consensus] and
    [run_signed_consensus] return [None] and leave the system as it was:
    every node keeps its log, its record of sent messages and its
    decision. *)
Theorem failed_check_runs_nothing (s : BFT) (m : Z) (v : value) :
  (verify_connectivity (graph s) m false = false ->
   run_oral_consensus s m v = (None, s)) /\
  (verify_connectivity (graph s) m true = false ->
   run_signed_consensus s m v = (None, s)).
Proof.
  split; intros H.
  - unfold run_oral_consensus. now rewrite H.
  - unfold run_signed_consensus. now rewrite H.
Qed.

Lemma failed_check_runs_nothing_witness :
  (verify_connectivity (graph line_system) 1 false = false /\
   run_oral_consensus line_system 1 ATTACK = (None, line_system)) /\
  (verify_connectivity (graph line_system) 1 true = false /\
   run_signed_consensus line_system 1 ATTACK = (None, line_system)).
Proof.
  split; (split; [vm_compute; reflexivity|]).
  - apply (proj1 (failed_check_runs_nothing line_system 1 ATTACK)).
    vm_compute. reflexivity.
  - apply (proj2 (failed_check_runs_nothing line_system 1 ATTACK)).
    vm_compute. reflexivity.
Defined.

(** ** Consensus without loyal lieutenants *)

Lemma loyal_nodes_none_loyal (s : BFT) :
  (forall id n, Dict.get (nodes s) id = Some n -> id <> commander_id s ->
                is_traitor n = true) ->
  forall decisions,
    (forall id, In id (Dict.keys decisions) -> Dict.mem (nodes s) id = true) ->
    loyal_nodes s decisions = Some [].
Proof.
  intros Htr. induction decisions as [|[nid d] decisions IH]; intros Hreg.
  - reflexivity.
  - simpl. pose proof (Hreg nid (or_introl eq_refl)) as Hmem.
    unfold Dict.mem in Hmem.
    destruct (Dict.get (nodes s) nid) as [n|] eqn:Hget; [|discriminate].
    rewrite IH by (intros id Hid; apply Hreg; now right).
    destruct (nid =? commander_id s) eqn:Hc.
    + now rewrite andb_false_r.
    + apply Z.eqb_neq in Hc. rewrite (Htr nid n Hget Hc). reflexivity.
Qed.

(** C10, as the code has it. When every registered node other than the
    commander is a traitor, [check_consensus] returns [True] for every
    decisions dict whose keys are registered node ids, whatever the
    decisions are. *)
Theorem check_consensus_no_loyal (s : BFT) (decisions : list (Z * value)) :
  (forall id n, Dict.get (nodes s) id = Some n -> id <> commander_id s ->
                is_traitor n = true) ->
  (forall id, In id (Dict.keys decisions) -> Dict.mem (nodes s) id = true) ->
  check_consensus s decisions = Some true.
Proof.
  intros Htr Hreg. unfold check_consensus.
  now rewrite (loyal_nodes_none_loyal s Htr decisions Hreg).
Qed.

Lemma only_traitors_besides_commander :
  forall id n, Dict.get (nodes commander_and_traitor) id = Some n ->
               id <> commander_id commander_and_traitor ->
               is_traitor n = true.
Proof.
  intros id n Hget Hne.
  change (nodes commander_and_traitor)
    with [(0, new_commander 0 [1] ATTACK); (1, new_node 1 [0] true)] in Hget.
  change (commander_id commander_and_traitor) with 0 in Hne.
  cbn [Dict.get] in Hget.
  destruct (0 =? id) eqn:H0; [apply Z.eqb_eq in H0; congruence|].
  destruct (1 =? id); [|discriminate].
  inversion Hget. reflexivity.
Qed.

Lemma check_consensus_no_loyal_witness :
  check_consensus commander_and_traitor [(0, RETREAT); (1, ATTACK)] = Some true.
Proof.
  apply (check_consensus_no_loyal commander_and_traitor [(0, RETREAT); (1, ATTACK)]).
  - exact only_traitors_besides_commander.
  - intros id [<- | [<- | []]]; reflexivity.
Defined.

(** C10, as stated, fails: with the commander 0 and the traitor 1 as the
    only nodes, a decisions dict that has an entry for the id 7 makes
    [self.nodes[nid]] raise [KeyError]. *)
Lemma check_consensus_unregistered_id :
  ~ (forall s decisions,
        (forall id n, Dict.get (nodes s) id = Some n -> id <> commander_id s ->
                      is_traitor n = true) ->
        check_consensus s decisions = Some true).
Proof.
  intros H.
  specialize (H commander_and_traitor [(0, RETREAT); (1, ATTACK); (7, ATTACK)]
                only_traitors_besides_commander).
  vm_compute in H. discriminate.
Qed.

(** ** The signed-message node: signatures *)

Section Signatures.
Import NodePlus.

Lemma no_colon_uint d : no_colon (NilEmpty.string_of_uint d) = true.
Proof. induction d; simpl; auto. Qed.

Lemma no_colon_str i : no_colon (str i) = true.
Proof.
  unfold str. destruct i as [|p|p]; simpl; [reflexivity | |];
    destruct (Pos.to_uint p); simpl; auto using no_colon_uint.
Qed.

Lemma split_no_colon s : no_colon s = true -> split s = [s].
Proof.
  induction s as [|c s IH]; simpl; [reflexivity|].
  intros H. apply andb_true_iff in H. destruct H as [Hc Hs].
  apply negb_true_iff in Hc. rewrite Hc, (IH Hs). reflexivity.
Qed.

Lemma split_app s rest :
  no_colon s = true -> split (s ++ ":" ++ rest) = s :: split rest.
Proof.
  induction s as [|c s IH]; simpl; [reflexivity|].
  intros H. apply andb_true_iff in H. destruct H as [Hc Hs].
  apply negb_true_iff in Hc. rewrite Hc.
  change (split (s ++ String ":" rest)) with (split (s ++ ":" ++ rest)).
  rewrite (IH Hs). reflexivity.
Qed.

Lemma split_join parts :
  parts <> [] -> Forall (fun p => no_colon p = true) parts ->
  split (join parts) = parts.
Proof.
  induction parts as [|p parts IH]; intros Hne Hall; [congruence|].
  inversion Hall as [|? ? Hp Hrest]; subst.
  destruct parts as [|q parts].
  - simpl. now apply split_no_colon.
  - change (join (p :: q :: parts)) with (p ++ ":" ++ join (q :: parts))%string.
    rewrite (split_app _ _ Hp), IH; [reflexivity | discriminate | assumption].
Qed.

Lemma decimal_int_str : reads_str decimal_int.
Proof.
  intros i. unfold decimal_int, str. rewrite NilZero.isi.
  - simpl. now rewrite DecimalZ.of_to.
  - destruct i as [|p|p]; simpl; try discriminate.
    intros H. inversion H as [Hp]. exact (DecimalPos.Unsigned.to_uint_nonnil p Hp).
  - destruct i as [|p|p]; simpl; try discriminate.
    intros H. inversion H as [Hp]. exact (DecimalPos.Unsigned.to_uint_nonnil p Hp).
Qed.

Lemma str_not_empty i : String.eqb (str i) "" = false.
Proof.
  unfold str. destruct i as [|p|p]; simpl; [reflexivity | | reflexivity].
  pose proof (DecimalPos.Unsigned.to_uint_nonnil p) as Hp.
  destruct (Pos.to_uint p); simpl; congruence || reflexivity.
Qed.

Lemma ints_map_str int l : reads_str int -> ints int (map str l) = Some l.
Proof.
  intros Hint. induction l as [|i l IH]; simpl; [reflexivity|].
  now rewrite str_not_empty, Hint, IH.
Qed.

Lemma action_of_name_value v : action_of_name (action_value v) = Some v.
Proof. destruct v; reflexivity. Qed.

Lemma no_colon_action_value v : no_colon (action_value v) = true.
Proof. destruct v; reflexivity. Qed.

(** What [sign_message] writes, [verify_signature] reads back: the value
    and the chain of signers, the signing node last. *)
Theorem verify_sign_message int self v signatures :
  reads_str int ->
  verify_signature int (sign_message self v signatures)
    = Some (v, signatures ++ [node_id self]).
Proof.
  intros Hint. unfold verify_signature, sign_message.
  rewrite split_app by apply no_colon_action_value.
  rewrite action_of_name_value, split_join, ints_map_str;
    [reflexivity | assumption | |].
  - destruct signatures; discriminate.
  - apply Forall_forall. intros p Hp. apply in_map_iff in Hp.
    destruct Hp as [i [<- _]]. apply no_colon_str.
Qed.
End Signatures.

(** ** The signed-message node: relays *)

Lemma ForallOrdPairs_app {A : Type} (R : A -> A -> Prop) (l1 l2 : list A) :
  ForallOrdPairs R l1 -> ForallOrdPairs R l2 ->
  (forall a b, In a l1 -> In b l2 -> R a b) ->
  ForallOrdPairs R (l1 ++ l2).
Proof.
  induction l1 as [|x l1 IH]; intros H1 H2 Hc; [assumption|].
  inversion H1 as [|? ? Hx Hl1]; subst. simpl. constructor.
  - apply Forall_app. split; [assumption|].
    apply Forall_forall. intros b Hb. apply Hc; [now left | assumption].
  - apply IH; [assumption | assumption |]. intros a b Ha Hb. apply Hc; [now right | assumption].
Qed.

Lemma ForallOrdPairs_nth {A : Type} (R : A -> A -> Prop) (l : list A) :
  ForallOrdPairs R l ->
  forall i j a b, (i < j)%nat -> nth_error l i = Some a -> nth_error l j = Some b ->
                  R a b.
Proof.
  induction 1 as [|x l Hx Hl IH]; intros i j a b Hij Hi Hj.
  - destruct i; discriminate.
  - destruct j as [|j]; [lia|]. destruct i as [|i]; simpl in Hi, Hj.
    + inversion Hi; subst a. rewrite Forall_forall in Hx. apply Hx.
      eapply nth_error_In; eassumption.
    + apply (IH i j); [lia | assumption | assumption].
Qed.

Lemma ForallOrdPairs_map_NoDup {A B : Type} (f : A -> B) (R : B -> B -> Prop) (l : list A) :
  NoDup l -> (forall a b, a <> b -> R (f a) (f b)) ->
  ForallOrdPairs R (map f l).
Proof.
  intros Hnd HR. induction Hnd as [|x l Hx Hnd IH]; simpl; constructor.
  - apply Forall_forall. intros y Hy. apply in_map_iff in Hy.
    destruct Hy as [a [<- Ha]]. apply HR. intros ->. contradiction.
  - assumption.
Qed.

Lemma NoDup_range n : NoDup (range n).
Proof.
  unfold range. apply Finite.Injective_map_NoDup; [|apply seq_NoDup].
  intros a b Hab. lia.
Qed.

Section Relays.
Import NodePlus.

Lemma set_eqb_sym l1 l2 : set_eqb l1 l2 = set_eqb l2 l1.
Proof. unfold set_eqb. apply andb_comm. Qed.

Lemma set_eqb_true l1 l2 :
  set_eqb l1 l2 = true <-> (forall x, In x l1 <-> In x l2).
Proof.
  unfold set_eqb. rewrite andb_true_iff, !forallb_forall. split.
  - intros [H1 H2] x. split; intros Hx.
    + apply memZ_In. now apply H1.
    + apply memZ_In. now apply H2.
  - intros H. split; intros x Hx; apply memZ_In; now apply H.
Qed.

(** Signing changes no difference between chains that the signer is not
    on. *)
Lemma set_eqb_signed id l1 l2 :
  ~ In id l1 -> ~ In id l2 -> set_eqb l1 l2 = false ->
  set_eqb (l1 ++ [id]) (l2 ++ [id]) = false.
Proof.
  intros H1 H2 Hne.
  destruct (set_eqb (l1 ++ [id]) (l2 ++ [id])) eqn:He; [|reflexivity].
  rewrite set_eqb_true in He.
  assert (Ht : set_eqb l1 l2 = true); [|congruence].
  apply set_eqb_true. intros x. specialize (He x). rewrite !in_app_iff in He.
  simpl in He. split; intros Hx.
  - destruct (proj1 He (or_introl Hx)) as [H | [H | []]]; [assumption|].
    subst x. contradiction.
  - destruct (proj2 He (or_introl Hx)) as [H | [H | []]]; [assumption|].
    subst x. contradiction.
Qed.

Lemma distinct_signer_sets_snoc l x :
  distinct_signer_sets l ->
  (forall a, In a l -> set_eqb (snd a) (snd x) = false) ->
  distinct_signer_sets (l ++ [x]).
Proof.
  induction l as [|y l IH]; simpl; intros Hl Hx.
  - split; [intros b [] | exact I].
  - destruct Hl as [Hy Hl]. split.
    + intros b Hb. apply in_app_iff in Hb. destruct Hb as [Hb | [<- | []]]; auto.
    + apply IH; auto.
Qed.

Lemma is_new_spec self signatures :
  is_new self signatures = true ->
  forall stored, In stored (signed_messages self) ->
                 set_eqb (snd stored) signatures = false.
Proof.
  unfold is_new. intros H stored Hin. apply negb_true_iff in H.
  rewrite set_eqb_sym.
  destruct (set_eqb signatures (snd stored)) eqn:He; [|reflexivity].
  assert (Ht : existsb (fun st => set_eqb signatures (snd st))
                       (signed_messages self) = true)
    by (apply existsb_exists; eauto).
  congruence.
Qed.

Lemma sign_message_same_id n1 n2 v signatures :
  node_id n1 = node_id n2 ->
  sign_message n1 v signatures = sign_message n2 v signatures.
Proof. unfold sign_message. now intros ->. Qed.

Lemma relayed_apart_sym self m1 m2 :
  relayed_apart self m1 m2 -> relayed_apart self m2 m1.
Proof.
  intros H Hr. destruct (H (eq_sym Hr)) as [Ho | [Ho | [v1 [r1 [v2 [r2 [H1 [H2 Hs]]]]]]]].
  - right. now left.
  - now left.
  - right. right. exists v2, r2, v1, r1. rewrite set_eqb_sym. auto.
Qed.

Lemma relay_of_stored_more self stored x msg :
  relay_of_stored self stored msg -> relay_of_stored self (stored ++ [x]) msg.
Proof.
  intros [v [received [Hin Hs]]]. exists v, received.
  split; [apply in_app_iff; now left | assumption].
Qed.

(** The messages of one relay go to different receivers. *)
Lemma relay_messages_apart self n v signatures round :
  ForallOrdPairs (relayed_apart self) (relay_messages n v signatures round).
Proof.
  unfold relay_messages. apply ForallOrdPairs_map_NoDup.
  - apply NoDup_filter, NoDup_range.
  - intros a b Hab Hr. cbn [receiver_id] in Hr. contradiction.
Qed.

Lemma handle_message_invariant int self round o msg :
  relay_invariant self o -> relay_invariant self (handle_message int round o msg).
Proof.
  intros Hinv. unfold handle_message.
  destruct (raised o); [assumption|].
  destruct (signature msg) as [sig|]; [|assumption].
  destruct (String.eqb sig ""); [assumption|].
  destruct Hinv as [Hid [Hc [Hv [Hst [Hsent Hap]]]]].
  destruct (verify_signature int sig) as [[v signatures]|];
    [|exact (conj Hid (conj Hc (conj Hv (conj Hst (conj Hsent Hap)))))].
  destruct (is_new (node o) signatures) eqn:Hnew;
    [|exact (conj Hid (conj Hc (conj Hv (conj Hst (conj Hsent Hap)))))].
  pose proof (is_new_spec _ _ Hnew) as Hfresh.
  assert (Hstored : distinct_signer_sets
                      (signed_messages (node o) ++ [(v, signatures)]))
    by (apply distinct_signer_sets_snoc; auto).
  assert (Hold : forall m, In m (sent o) ->
            commander_order self m \/
            relay_of_stored self (signed_messages (node o) ++ [(v, signatures)]) m).
  { intros m Hm. destruct (Hsent m Hm) as [Ho | Hr]; [now left | right].
    now apply relay_of_stored_more. }
  cbn [total_nodes set_signed_messages].
  destruct (len signatures <=? total_nodes (node o)).
  - unfold relay_invariant.
    cbn [node sent signed_messages set_signed_messages node_id is_commander
         commander_value].
    set (n := set_signed_messages (node o)
                (signed_messages (node o) ++ [(v, signatures)])).
    assert (Hnew_sig : forall m, In m (relay_messages n v signatures round) ->
              signature m = Some (sign_message self v signatures)).
    { intros m Hm. unfold relay_messages in Hm. apply in_map_iff in Hm.
      destruct Hm as [i [<- _]]. cbn [signature].
      now rewrite (sign_message_same_id n self) by exact Hid. }
    repeat (split; [assumption|]). split.
    + intros m Hm. apply in_app_iff in Hm. destruct Hm as [Hm | Hm]; [auto|].
      right. exists v, signatures. split; [|now apply Hnew_sig].
      apply in_app_iff. right. now left.
    + apply ForallOrdPairs_app; [assumption | apply relay_messages_apart |].
      intros a b Ha Hb _. destruct (Hsent a Ha) as [Ho | [va [ra [Hin Hs]]]];
        [now left|].
      right. right. exists va, ra, v, signatures.
      split; [assumption|]. split; [now apply Hnew_sig|].
      exact (Hfresh (va, ra) Hin).
  - unfold relay_invariant.
    cbn [node sent signed_messages set_signed_messages node_id is_commander
         commander_value].
    repeat (split; [assumption|]). assumption.
Qed.

Lemma process_round_invariant int self o round messages :
  relay_invariant self o ->
  relay_invariant self (process_round int o round messages).
Proof.
  intros Hinv. unfold process_round.
  destruct (raised o); [assumption|].
  destruct ((round =? 0) && is_commander (node o)) eqn:Hcmd.
  - destruct Hinv as [Hid [Hc [Hv [Hst [Hsent Hap]]]]].
    destruct (commander_value (node o)) as [v|] eqn:Hval.
    2:{ unfold relay_invariant. cbn [node sent]. rewrite Hval.
        repeat (split; [assumption|]). assumption. }
    apply andb_true_iff in Hcmd. destruct Hcmd as [Hr0 Hcom].
    apply Z.eqb_eq in Hr0.
    assert (Horder : forall m,
              In m (map (fun i => mkNetworkMessage (node_id (node o)) i
                                    (sign_message (node o) v []) [] round
                                    (Some (sign_message (node o) v [])))
                        (filter (fun i => negb (i =? node_id (node o)))
                                (range (total_nodes (node o))))) ->
              commander_order self m).
    { intros m Hm. apply in_map_iff in Hm. destruct Hm as [i [<- _]].
      unfold commander_order. cbn [round_num signature].
      split; [congruence|]. split; [assumption|].
      exists v. split; [congruence|].
      now rewrite (sign_message_same_id _ self) by exact Hid. }
    unfold relay_invariant. cbn [node sent].
    split; [assumption|]. split; [assumption|]. split; [congruence|].
    split; [assumption|]. split.
    + intros m Hm. apply in_app_iff in Hm. destruct Hm as [Hm | Hm]; [auto|].
      left. now apply Horder.
    + apply ForallOrdPairs_app; [assumption | |].
      * apply ForallOrdPairs_map_NoDup; [apply NoDup_filter, NoDup_range|].
        intros a b Hab Hr. cbn [receiver_id] in Hr. contradiction.
      * intros a b _ Hb _. right. left. now apply Horder.
  - clear Hcmd. revert o Hinv.
    induction messages as [|msg messages IH]; intros o Hinv.
    + assumption.
    + simpl. apply IH. now apply handle_message_invariant.
Qed.

Lemma run_node_invariant int self rounds :
  signed_messages self = [] ->
  relay_invariant self (run_node int self rounds).
Proof.
  intros Hfresh. unfold run_node.
  assert (Hinit : relay_invariant self (mkOutcome self [] false)).
  { unfold relay_invariant. cbn [node sent]. rewrite Hfresh.
    split; [reflexivity|]. split; [reflexivity|]. split; [reflexivity|].
    split; [exact I|]. split; [intros m [] | constructor]. }
  revert Hinit. generalize (mkOutcome self [] false).
  induction rounds as [|r rounds IH]; intros o Hinv.
  - assumption.
  - simpl. apply IH. now apply process_round_invariant.
Qed.
End Relays.

(** C8, as the code has it. A [SignedMessagesNode] of [nodeplus.py], as
    [setup] and [run] create it, whatever the rounds it is run through,
    whatever messages the network hands it in each and whatever [int]
    makes of their numerals beyond reading back what [str] writes: every
    message it sends carries a signature that reads back as a value and a
    chain of signers ending with the node itself; and of two messages it
    sends to one receiver, unless one is its own order as commander, the
    chains it had received and signed have different sets of signers, so
    the two signer sets sent differ too when the node had signed neither
    chain before. *)
Theorem signed_node_never_relays_twice
    (int : string -> option Z)
    (id : Z) (faulty commander : bool) (total : Z)
    (order : option NodePlus.Action)
    (rounds : list (Z * list NodePlus.NetworkMessage)) :
  reads_str int ->
  let self := NodePlus.mkSignedMessagesNode id faulty total [] commander order None in
  let run := NodePlus.run_node int self rounds in
  (forall msg, In msg (NodePlus.sent run) ->
     exists v signatures,
       NodePlus.signature msg = Some (NodePlus.sign_message self v signatures) /\
       NodePlus.verify_signature int (NodePlus.sign_message self v signatures)
         = Some (v, signatures ++ [id])) /\
  (forall i j m1 m2,
     i <> j ->
     nth_error (NodePlus.sent run) i = Some m1 ->
     nth_error (NodePlus.sent run) j = Some m2 ->
     NodePlus.receiver_id m1 = NodePlus.receiver_id m2 ->
     commander_order self m1 \/ commander_order self m2 \/
     exists sig1 sig2 v1 v2 received1 received2,
       NodePlus.signature m1 = Some sig1 /\
       NodePlus.signature m2 = Some sig2 /\
       NodePlus.verify_signature int sig1 = Some (v1, received1 ++ [id]) /\
       NodePlus.verify_signature int sig2 = Some (v2, received2 ++ [id]) /\
       NodePlus.set_eqb received1 received2 = false /\
       (~ In id received1 -> ~ In id received2 ->
        NodePlus.set_eqb (received1 ++ [id]) (received2 ++ [id]) = false)).
Proof.
  intros Hint self run.
  destruct (run_node_invariant int self rounds eq_refl)
    as [_ [_ [_ [_ [Hsent Hap]]]]].
  split.
  - intros msg Hmsg.
    destruct (Hsent msg Hmsg) as [[_ [_ [v [_ Hs]]]] | [v [received [_ Hs]]]].
    + exists v, []. split; [exact Hs|].
      apply (verify_sign_message int self v [] Hint).
    + exists v, received. split; [exact Hs|].
      apply (verify_sign_message int self v received Hint).
  - intros i j m1 m2 Hij Hi Hj Hr.
    assert (Hrel : relayed_apart self m1 m2).
    { destruct (Nat.lt_ge_cases i j) as [Hlt | Hge].
      - exact (ForallOrdPairs_nth _ _ Hap i j m1 m2 Hlt Hi Hj).
      - apply relayed_apart_sym.
        apply (ForallOrdPairs_nth _ _ Hap j i m2 m1); [lia | assumption | assumption]. }
    destruct (Hrel Hr) as [Ho | [Ho | [v1 [r1 [v2 [r2 [H1 [H2 Hs]]]]]]]];
      [now left | right; now left |].
    right. right.
    exists (NodePlus.sign_message self v1 r1), (NodePlus.sign_message self v2 r2),
           v1, v2, r1, r2.
    split; [assumption|]. split; [assumption|].
    split; [apply (verify_sign_message int self v1 r1 Hint)|].
    split; [apply (verify_sign_message int self v2 r2 Hint)|].
    split; [assumption|].
    intros Hn1 Hn2. now apply set_eqb_signed.
Qed.

Lemma signed_node_never_relays_twice_witness :
  let m1 := NodePlus.mkNetworkMessage 1 3 "ATTACK:0:1" [] 2 (Some "ATTACK:0:1"%string) in
  let m2 := NodePlus.mkNetworkMessage 1 3 "RETREAT:2:1" [] 2 (Some "RETREAT:2:1"%string) in
  commander_order signed_relayer m1 \/ commander_order signed_relayer m2 \/
  exists sig1 sig2 v1 v2 received1 received2,
    NodePlus.signature m1 = Some sig1 /\
    NodePlus.signature m2 = Some sig2 /\
    NodePlus.verify_signature NodePlus.decimal_int sig1 = Some (v1, received1 ++ [1]) /\
    NodePlus.verify_signature NodePlus.decimal_int sig2 = Some (v2, received2 ++ [1]) /\
    NodePlus.set_eqb received1 received2 = false /\
    (~ In 1 received1 -> ~ In 1 received2 ->
     NodePlus.set_eqb (received1 ++ [1]) (received2 ++ [1]) = false).
Proof.
  intros m1 m2.
  apply (proj2 (signed_node_never_relays_twice NodePlus.decimal_int 1 false false 4
                  None two_orders decimal_int_str) 1%nat 3%nat m1 m2);
    [lia | reflexivity | reflexivity | reflexivity].
Defined.

(** The condition on the chains received cannot be dropped: handed the
    order signed by node 0 and then a chain that already holds its own
    id, node 1 sends node 2 two messages, ["ATTACK:0:1"] and
    ["ATTACK:1:0:1"], whose signers are the same two nodes. *)
Lemma forged_chain_repeats_signer_set :
  let run := NodePlus.run_node NodePlus.decimal_int signed_relayer forged_orders in
  map (fun msg => (NodePlus.receiver_id msg, NodePlus.content msg)) (NodePlus.sent run)
    = [(2, "ATTACK:0:1"); (3, "ATTACK:0:1"); (2, "ATTACK:1:0:1"); (3, "ATTACK:1:0:1")]%string /\
  NodePlus.set_eqb [0; 1] [1; 0; 1] = true.
Proof. vm_compute. split; reflexivity. Qed.

(** C8, as stated, fails for [run_signed_consensus] of [node.py]: its
    messages carry the path walked and no signer chain, and in the run of
    three loyal generals with [m = 1] node 1 sends node 2 the same message,
    value [ATTACK] with path [1, 1], twice in round 1. *)
Lemma signed_run_repeats_message :
  ~ no_repeated_message (snd (run_signed_consensus three_generals 1 ATTACK)).
Proof.
  intros H.
  assert (Hnd : NoDup [(ATTACK, [1; 1]); (ATTACK, [1; 1]); (ATTACK, [1; 0; 0])]).
  { eapply (H 2 _ 1); vm_compute; reflexivity. }
  inversion Hnd as [|x l Hnot _]; subst. apply Hnot. now left.
Qed.

(** ** A worked instance of the connectivity algorithm *)

Lemma ring4_keys_distinct : NoDup (Dict.keys ring4).
Proof.
  simpl. repeat constructor; simpl; intuition discriminate.
Qed.

Lemma calculate_node_connectivity_algorithm_witness :
  NoDup (Dict.keys ring4) /\
  (2 <= length (Dict.keys ring4))%nat /\
  calculate_node_connectivity ring4 = Z.of_nat 2 - 1.
Proof.
  assert (Hn : (2 <= length (Dict.keys ring4))%nat) by (simpl; lia).
  split; [exact ring4_keys_distinct | split; [exact Hn|]].
  apply (proj1 (calculate_node_connectivity_algorithm ring4 ring4_keys_distinct Hn)
               2%nat).
  - lia.
  - exists [0; 2]. split; [|vm_compute; reflexivity].
    split; [repeat constructor; simpl; intuition discriminate|].
    split; [|reflexivity].
    intros x [<- | [<- | []]]; simpl; auto.
  - intros j S Hj [HS [Hincl Hlen]].
    assert (Hj1 : j = 1%nat) by lia. rewrite Hj1 in Hlen.
    destruct S as [|x [|y S]]; simpl in Hlen; try lia.
    assert (Hx : In x (Dict.keys ring4)) by (apply Hincl; now left).
    simpl in Hx. unfold disconnects.
    destruct Hx as [<- | [<- | [<- | [<- | []]]]]; vm_compute; discriminate.
Defined.

(** ** The path search, exactly *)

Lemma find_all_paths_loop_complete g target ml :
  forall fuel queue paths result,
    find_all_paths_loop fuel g target ml queue paths = Some result ->
    incl paths result /\
    forall current p q,
      In (current, p) queue -> extends_to g target ml current p q -> In q result.
Proof.
  induction fuel as [|fuel IH]; intros queue paths result Hrun; [discriminate|].
  destruct queue as [|[c0 p0] queue]; simpl in Hrun.
  - inversion Hrun; subst. split; [apply incl_refl | intros c p q []].
  - destruct (c0 =? target) eqn:Ht.
    + apply Z.eqb_eq in Ht. subst c0.
      destruct (IH _ _ _ Hrun) as [Hp Hq]. split.
      * intros x Hx. apply Hp. apply in_app_iff. now left.
      * intros c p q [Heq | Hin] Hext; [|eauto].
        inversion Heq; subst c p. inversion Hext; subst.
        -- apply Hp. apply in_app_iff. right. now left.
        -- congruence.
    + apply Z.eqb_neq in Ht. destruct (len p0 >=? ml) eqn:Hge.
      * destruct (IH _ _ _ Hrun) as [Hp Hq]. split; [assumption|].
        intros c p q [Heq | Hin] Hext; [|eauto].
        inversion Heq; subst c p. inversion Hext; subst; [congruence|].
        rewrite Z.geb_leb in Hge. apply Z.leb_le in Hge. lia.
      * destruct (IH _ _ _ Hrun) as [Hp Hq]. split; [assumption|].
        intros c p q [Heq | Hin] Hext.
        -- inversion Heq; subst c p. inversion Hext; subst; [congruence|].
           apply (Hq neighbor (p0 ++ [neighbor]) q); [|assumption].
           apply in_app_iff. right. unfold extend_path.
           apply in_map_iff. exists neighbor. split; [reflexivity|].
           apply filter_In. split; [assumption|].
           apply negb_true_iff. now apply memZ_false.
        -- apply (Hq c p q); [|assumption]. apply in_app_iff. now left.
Qed.

Lemma is_walk_middle g : forall prefix a b suffix,
  is_walk g (prefix ++ a :: b :: suffix) ->
  In b (graph_get g a).
Proof.
  induction prefix as [|x prefix IH]; intros a b suffix Hw.
  - simpl in Hw. tauto.
  - destruct prefix as [|y prefix].
    + simpl in Hw. destruct Hw as [_ Hw]. exact (IH a b suffix Hw).
    + simpl in Hw. destruct Hw as [_ Hw]. exact (IH a b suffix Hw).
Qed.

Lemma simple_path_extends g target ml :
  forall suffix prefix current,
    NoDup (prefix ++ current :: suffix) ->
    is_walk g (prefix ++ current :: suffix) ->
    (exists front, prefix ++ current :: suffix = front ++ [target]) ->
    len (prefix ++ current :: suffix) <= ml \/ suffix = [] ->
    extends_to g target ml current (prefix ++ [current])
               (prefix ++ current :: suffix).
Proof.
  induction suffix as [|nb suffix IH]; intros prefix current Hnd Hw [front Hf] Hlen.
  - assert (current = target).
    { apply (f_equal (@rev Z)) in Hf. rewrite !rev_app_distr in Hf. simpl in Hf.
      now inversion Hf. }
    subst current. constructor.
  - assert (Hre : prefix ++ current :: nb :: suffix
                  = (prefix ++ [current]) ++ nb :: suffix)
      by (now rewrite <- app_assoc).
    destruct Hlen as [Hlen | Hnil]; [|discriminate].
    apply extends_step with (neighbor := nb).
    + intros ->.
      (* the target is the last node, and no node occurs twice *)
      assert (Hlast : In target (nb :: suffix)).
      { apply (f_equal (@rev Z)) in Hf. rewrite !rev_app_distr in Hf. simpl in Hf.
        destruct (rev suffix) as [|z zs] eqn:Hz.
        - simpl in Hf. inversion Hf. now left.
        - simpl in Hf. inversion Hf. right. apply in_rev. rewrite Hz. now left. }
      apply NoDup_remove_2 in Hnd. apply Hnd. apply in_app_iff. now right.
    + unfold len in *. rewrite !length_app in *. simpl in *. lia.
    + eapply is_walk_middle. eauto.
    + rewrite Hre in Hnd. apply NoDup_remove_2 in Hnd.
      intros Hin. apply Hnd. apply in_app_iff. now left.
    + rewrite Hre. rewrite Hre in Hnd, Hw, Hf. apply IH; auto.
      * eauto.
      * left. rewrite <- Hre. assumption.
Qed.

Lemma find_all_paths_loop_bound g target ml :
  forall fuel queue paths result,
    (forall c p, In (c, p) queue -> len p <= ml \/ len p = 1) ->
    (forall p, In p paths -> len p <= ml \/ len p = 1) ->
    find_all_paths_loop fuel g target ml queue paths = Some result ->
    forall p, In p result -> len p <= ml \/ len p = 1.
Proof.
  induction fuel as [|fuel IH]; intros queue paths result Hq Hp Hrun r Hr;
    [discriminate|].
  destruct queue as [|[c0 p0] queue]; simpl in Hrun.
  - inversion Hrun; subst. auto.
  - assert (Hq' : forall c p, In (c, p) queue -> len p <= ml \/ len p = 1)
      by (intros c p Hin; apply (Hq c p); now right).
    destruct (c0 =? target).
    + eapply IH; [exact Hq' | | exact Hrun | exact Hr].
      intros p Hin. apply in_app_iff in Hin.
      destruct Hin as [Hin | [<- | []]]; [auto | apply (Hq c0 p0); now left].
    + destruct (len p0 >=? ml) eqn:Hge.
      * eapply IH; [exact Hq' | exact Hp | exact Hrun | exact Hr].
      * eapply IH; [ | exact Hp | exact Hrun | exact Hr].
        intros c p Hin. apply in_app_iff in Hin. destruct Hin as [Hin | Hin]; [eauto|].
        apply in_extend_path in Hin. destruct Hin as [nb [Hcp _]].
        inversion Hcp; subst. left.
        rewrite Z.geb_leb in Hge. apply Z.leb_gt in Hge.
        unfold len in *. rewrite length_app. simpl. lia.
Qed.

(** X1. [find_all_paths] returns exactly the simple paths of the graph
    from [source] to [target] that have at most [max_length] nodes (the
    one-node path when [source] is [target], whatever [max_length] is), and
    none when one of the two nodes is not in the graph. *)
Theorem find_all_paths_exact (g : graph_t) (source target max_length : Z)
    (path : list Z) :
  In path (find_all_paths g source target max_length) <->
  Dict.mem g source = true /\ Dict.mem g target = true /\
  simple_path g source target path /\
  (len path <= max_length \/ len path = 1).
Proof.
  split.
  - intros Hin. pose proof (find_all_paths_simple _ _ _ _ _ Hin) as Hs.
    unfold find_all_paths, find_all_paths_opt in Hin.
    destruct (Dict.mem g source); [|simpl in Hin; contradiction].
    destruct (Dict.mem g target); [|simpl in Hin; contradiction].
    cbn [negb orb] in Hin.
    destruct (find_all_paths_loop _ g target max_length _ _) as [result|] eqn:Hrun;
      [|simpl in Hin; contradiction].
    split; [reflexivity|]. split; [reflexivity|]. split; [assumption|].
    eapply (find_all_paths_loop_bound g target max_length) with (3 := Hrun);
      [ | intros p [] | exact Hin].
    intros c p [Heq | []]. inversion Heq. now right.
  - intros [Hms [Hmt [[Hhd [Hend [Hnd Hw]]] Hlen]]].
    destruct (find_all_paths_terminates g source target max_length)
      as [paths [Hopt Heq]].
    rewrite Heq. unfold find_all_paths_opt in Hopt. rewrite Hms, Hmt in Hopt.
    cbn [negb orb] in Hopt.
    destruct (find_all_paths_loop_complete g target max_length _ _ _ _ Hopt)
      as [_ Hcomplete].
    destruct path as [|x suffix]; [discriminate|].
    simpl in Hhd. inversion Hhd; subst x.
    apply (Hcomplete source [source] (source :: suffix)); [now left|].
    apply (simple_path_extends g target max_length suffix [] source); auto.
    destruct Hlen as [Hlen | Hlen]; [now left | right].
    unfold len in Hlen. simpl in Hlen. destruct suffix; [reflexivity | simpl in Hlen; lia].
Qed.

(** X2. The two [while queue] loops always come to their end: the search
    of [find_all_paths] within the number of iterations bounded from the
    largest adjacency set and [max_length], the search of
    [is_graph_connected] within two more than the number of adjacency
    entries. *)
Theorem queue_loops_terminate (g : graph_t) (source target max_length : Z)
    (excluded_nodes : list Z) :
  find_all_paths_opt g source target max_length
    = Some (find_all_paths g source target max_length) /\
  is_graph_connected_opt g excluded_nodes
    = Some (is_graph_connected g excluded_nodes).
Proof.
  split.
  - unfold find_all_paths, find_all_paths_opt.
    destruct (negb (Dict.mem g source) || negb (Dict.mem g target)); [reflexivity|].
    destruct (find_all_paths_loop_terminates g target max_length
                (find_all_paths_fuel g source max_length) [(source, [source])] [])
      as [r Hr]; [unfold find_all_paths_fuel; lia|].
    now rewrite Hr.
  - unfold is_graph_connected, is_graph_connected_opt.
    destruct (is_empty g); [reflexivity|].
    destruct (first_not_excluded g excluded_nodes) as [start|]; [|reflexivity].
    destruct (bfs_loop_terminates g excluded_nodes start) as [visited [Hv _]].
    now rewrite Hv.
Qed.

(** ** The order of the paths found *)

Lemma lengths_ascend_app l1 l2 :
  lengths_ascend l1 -> lengths_ascend l2 ->
  (forall p q, In p l1 -> In q l2 -> len p <= len q) ->
  lengths_ascend (l1 ++ l2).
Proof.
  induction l1 as [|x l1 IH]; simpl; intros H1 H2 H12; [assumption|].
  destruct H1 as [Hx H1]. split.
  - intros q Hq. apply in_app_iff in Hq. destruct Hq; auto.
  - apply IH; auto.
Qed.

Lemma lengths_ascend_same (l : list (list Z)) n :
  (forall p, In p l -> len p = n) -> lengths_ascend l.
Proof.
  induction l as [|x l IH]; simpl; intros H; [exact I|].
  split; [|auto]. intros q Hq. rewrite (H x), (H q); auto. lia.
Qed.

Lemma find_all_paths_loop_ascend g target ml :
  forall fuel queue paths result n,
    lengths_ascend (map snd queue) ->
    (forall e, In e queue -> n <= len (snd e) <= n + 1) ->
    lengths_ascend paths ->
    (forall p, In p paths -> len p <= n) ->
    find_all_paths_loop fuel g target ml queue paths = Some result ->
    lengths_ascend result.
Proof.
  induction fuel as [|fuel IH]; intros queue paths result n Hq Hn Hp Hpn Hrun;
    [discriminate|].
  destruct queue as [|[c0 p0] queue]; simpl in Hrun.
  - inversion Hrun; subst. assumption.
  - simpl in Hq. destruct Hq as [Hhead Hq].
    pose proof (Hn (c0, p0) (or_introl eq_refl)) as Hp0. simpl in Hp0.
    assert (Hrest : forall e, In e queue -> len p0 <= len (snd e) <= len p0 + 1).
    { intros e He. pose proof (Hn e (or_intror He)).
      pose proof (Hhead (snd e) (in_map snd _ _ He)). lia. }
    destruct (c0 =? target).
    + apply (IH _ _ _ (len p0)) with (5 := Hrun); auto.
      * apply lengths_ascend_app; [assumption | simpl; split; [intros q []|exact I] |].
        intros p q Hin [<- | []]. specialize (Hpn p Hin). lia.
      * intros p Hin. apply in_app_iff in Hin.
        destruct Hin as [Hin | [<- | []]]; [specialize (Hpn p Hin)|]; lia.
    + destruct (len p0 >=? ml).
      * apply (IH _ _ _ (len p0)) with (5 := Hrun); auto.
        intros p Hin. specialize (Hpn p Hin). lia.
      * assert (Hchild : forall e, In e (extend_path g c0 p0) ->
                                   len (snd e) = len p0 + 1).
        { intros e He. apply in_extend_path in He. destruct He as [nb [-> _]].
          simpl. unfold len. rewrite length_app. simpl. lia. }
        apply (IH _ _ _ (len p0)) with (5 := Hrun); auto.
        -- rewrite map_app. apply lengths_ascend_app; [assumption | |].
           ++ apply lengths_ascend_same with (n := len p0 + 1).
              intros p Hin. apply in_map_iff in Hin. destruct Hin as [e [<- He]]. auto.
           ++ intros p q Hin1 Hin2. apply in_map_iff in Hin1, Hin2.
              destruct Hin1 as [e1 [<- He1]]. destruct Hin2 as [e2 [<- He2]].
              rewrite (Hchild e2 He2). apply Hrest. assumption.
        -- intros e He. apply in_app_iff in He. destruct He as [He | He]; [auto|].
           rewrite (Hchild e He). lia.
        -- intros p Hin. specialize (Hpn p Hin). lia.
Qed.

Lemma find_all_paths_ascend g source target ml :
  lengths_ascend (find_all_paths g source target ml).
Proof.
  unfold find_all_paths, find_all_paths_opt.
  destruct (negb (Dict.mem g source) || negb (Dict.mem g target)); [exact I|].
  destruct (find_all_paths_loop _ g target ml _ _) as [result|] eqn:Hrun; [|exact I].
  apply (find_all_paths_loop_ascend g target ml _ _ _ _ 1) with (5 := Hrun).
  - simpl. split; [intros q [] | exact I].
  - intros e [<- | []]. unfold len. simpl. lia.
  - exact I.
  - intros p [].
Qed.

Lemma sort_by_len_ascending l : lengths_ascend l -> sort_by_len l = l.
Proof.
  unfold sort_by_len. induction l as [|p l IH]; simpl; intros H; [reflexivity|].
  destruct H as [Hp Hl]. rewrite (IH Hl).
  destruct l as [|q r]; [reflexivity|]. simpl.
  pose proof (Hp q (or_introl eq_refl)) as Hle.
  destruct (len q <? len p) eqn:Hlt; [|reflexivity].
  apply Z.ltb_lt in Hlt. lia.
Qed.

(** X3. [find_all_paths] returns its paths shortest first, so the stable
    sort by length in [find_disjoint_paths] leaves their order as it is:
    the candidates are tried in the order they were found. *)
Theorem find_all_paths_shortest_first (g : graph_t) (source target max_length : Z) :
  lengths_ascend (find_all_paths g source target max_length) /\
  sort_by_len (find_all_paths g source target max_length)
    = find_all_paths g source target max_length.
Proof.
  split; [apply find_all_paths_ascend|].
  apply sort_by_len_ascending, find_all_paths_ascend.
Qed.

(** ** The first path of the selection *)

Lemma select_disjoint_keeps k :
  forall all_paths disjoint_paths used_edges,
    exists more,
      select_disjoint k all_paths disjoint_paths used_edges = disjoint_paths ++ more.
Proof.
  induction all_paths as [|path rest IH]; intros dp used; simpl.
  - exists []. now rewrite app_nil_r.
  - destruct (is_empty (intersection (path_edges path) used)).
    + destruct (len (dp ++ [path]) >=? k).
      * exists [path]. reflexivity.
      * destruct (IH (dp ++ [path]) (update used (path_edges path))) as [more Hm].
        exists (path :: more). rewrite Hm, <- app_assoc. reflexivity.
    + destruct (len dp >=? k).
      * exists []. now rewrite app_nil_r.
      * apply IH.
Qed.

(** X5. Whatever [k] is, the first path [find_disjoint_paths] returns is
    the first, and so a shortest, path [find_all_paths] finds: between two
    different nodes the result is empty only when no path of at most ten
    nodes exists; from a node to itself it is always empty. *)
Theorem find_disjoint_paths_first (g : graph_t) (source target k : Z) :
  hd_error (find_disjoint_paths g source target k)
    = if source =? target then None
      else hd_error (find_all_paths g source target default_max_length).
Proof.
  unfold find_disjoint_paths. destruct (source =? target); [reflexivity|].
  rewrite sort_by_len_ascending by apply find_all_paths_ascend.
  destruct (find_all_paths g source target default_max_length) as [|p rest];
    [reflexivity|].
  assert (He : is_empty (intersection (path_edges p) []) = true)
    by (apply intersection_empty; intros e _ []).
  cbn [select_disjoint]. rewrite He.
  destruct (len ([] ++ [p]) >=? k); [reflexivity|].
  destruct (select_disjoint_keeps k rest ([] ++ [p]) (update [] (path_edges p)))
    as [more Hm].
  rewrite Hm. reflexivity.
Qed.

(** ** Edges have no direction *)

Lemma in_path_edges_from acc : forall path e,
  In e (path_edges_from acc path) <->
  In e acc \/ exists prefix a b suffix,
                path = prefix ++ a :: b :: suffix /\ e = sorted_edge a b.
Proof.
  intros path. revert acc. induction path as [|a path IH]; intros acc e.
  - simpl. split; [auto|]. intros [H | [prefix [a [b [suffix [H _]]]]]]; [assumption|].
    destruct prefix; discriminate.
  - destruct path as [|b path].
    + simpl. split; [auto|]. intros [H | [prefix [x [y [suffix [H _]]]]]]; [assumption|].
      destruct prefix as [|? [|? ?]]; discriminate.
    + change (path_edges_from acc (a :: b :: path))
        with (path_edges_from (add_edge acc (sorted_edge a b)) (b :: path)).
      rewrite IH, in_add_edge. split.
      * intros [[H | ->] | [prefix [x [y [suffix [Hp He]]]]]].
        -- now left.
        -- right. exists [], a, b, path. auto.
        -- right. exists (a :: prefix), x, y, suffix. rewrite Hp. auto.
      * intros [H | [prefix [x [y [suffix [Hp He]]]]]]; [auto|].
        destruct prefix as [|z prefix].
        -- simpl in Hp. inversion Hp; subst. auto.
        -- simpl in Hp. inversion Hp; subst. right.
           exists prefix, x, y, suffix. auto.
Qed.

Lemma in_path_edges path e :
  In e (path_edges path) <->
  exists prefix a b suffix, path = prefix ++ a :: b :: suffix /\ e = sorted_edge a b.
Proof.
  unfold path_edges. rewrite in_path_edges_from. simpl. tauto.
Qed.

Lemma sorted_edge_comm a b : sorted_edge a b = sorted_edge b a.
Proof. unfold sorted_edge. now rewrite Z.min_comm, Z.max_comm. Qed.

Lemma in_path_edges_rev path e :
  In e (path_edges (rev path)) <-> In e (path_edges path).
Proof.
  assert (H : forall p, In e (path_edges p) -> In e (path_edges (rev p))).
  { intros p Hin. apply in_path_edges in Hin.
    destruct Hin as [prefix [a [b [suffix [-> ->]]]]].
    apply in_path_edges. exists (rev suffix), b, a, (rev prefix). split.
    - rewrite rev_app_distr. simpl. rewrite <- !app_assoc. reflexivity.
    - apply sorted_edge_comm. }
  split; [|apply H]. intros Hin. apply H in Hin. now rewrite rev_involutive in Hin.
Qed.

Lemma bool_eq_iff (a b : bool) : (a = true <-> b = true) -> a = b.
Proof.
  destruct a, b; intros [H1 H2]; try reflexivity.
  - symmetry. now apply H1.
  - now apply H2.
Qed.

(** X6. [are_paths_edge_disjoint] takes edges as undirected: it is
    symmetric, walking a path backwards changes nothing, and a path with an
    edge is never disjoint from itself. *)
Theorem are_paths_edge_disjoint_undirected (path1 path2 : list Z) :
  are_paths_edge_disjoint path1 path2 = are_paths_edge_disjoint path2 path1 /\
  are_paths_edge_disjoint (rev path1) path2 = are_paths_edge_disjoint path1 path2 /\
  (2 <= len path1 -> are_paths_edge_disjoint path1 path1 = false).
Proof.
  split; [|split].
  - apply bool_eq_iff. rewrite !are_paths_edge_disjoint_spec.
    split; apply edge_disjoint_sym.
  - apply bool_eq_iff. rewrite !are_paths_edge_disjoint_spec. unfold edge_disjoint.
    split; intros H e He; [apply H; now apply in_path_edges_rev|].
    apply H. now apply in_path_edges_rev.
  - intros Hlen. destruct (are_paths_edge_disjoint path1 path1) eqn:Hd; [|reflexivity].
    apply are_paths_edge_disjoint_spec in Hd. exfalso.
    destruct path1 as [|a [|b rest]]; unfold len in Hlen; simpl in Hlen; try lia.
    apply (Hd (sorted_edge a b)); apply in_path_edges; exists [], a, b, rest; auto.
Qed.

(** ** Connectivity: edge cases and bounds *)

Lemma first_not_excluded_all g S :
  first_not_excluded g (Dict.keys g ++ S) = None.
Proof.
  unfold first_not_excluded.
  destruct (find _ (Dict.keys g)) as [x|] eqn:Hf; [|reflexivity].
  apply find_some in Hf. destruct Hf as [Hin Hm].
  apply negb_true_iff, memZ_false in Hm. exfalso. apply Hm.
  apply in_app_iff. now left.
Qed.

(** X8. [is_graph_connected] at its edges: an empty graph is never
    connected; a graph with nodes is connected when every node is excluded;
    and the answer depends on which nodes are excluded, not on their order
    or repetition. *)
Theorem is_graph_connected_edge_cases (g : graph_t) (excluded_nodes : list Z) :
  is_graph_connected [] excluded_nodes = false /\
  is_graph_connected g (Dict.keys g ++ excluded_nodes) = negb (is_empty g) /\
  (forall others, (forall x, In x excluded_nodes <-> In x others) ->
                  is_graph_connected g excluded_nodes = is_graph_connected g others).
Proof.
  split; [reflexivity|]. split.
  - unfold is_graph_connected, is_graph_connected_opt.
    destruct (is_empty g); [reflexivity|].
    now rewrite first_not_excluded_all.
  - intros others H. now apply is_graph_connected_ext, same_members_iff.
Qed.

Lemma connectivity_loop_range g nodes_list :
  forall ks c, connectivity_loop g nodes_list ks = Some c ->
               exists k, In k ks /\ c = Z.of_nat k - 1 /\
                         found_disconnecting_set g nodes_list k = true.
Proof.
  induction ks as [|k ks IH]; intros c H; [discriminate|].
  simpl in H. destruct (found_disconnecting_set g nodes_list k) eqn:Hf.
  - inversion H. exists k. split; [now left | auto].
  - destruct (IH c H) as [k' [Hin Hc]]. exists k'. split; [now right | assumption].
Qed.

Lemma calculate_node_connectivity_unfold g :
  calculate_node_connectivity g =
  if len (Dict.keys g) <=? 1 then 0
  else match connectivity_loop g (Dict.keys g) (seq 1 (length (Dict.keys g) - 1)) with
       | Some c => c
       | None => len (Dict.keys g) - 1
       end.
Proof.
  unfold calculate_node_connectivity. destruct g; reflexivity.
Qed.

Lemma calculate_node_connectivity_bounds g :
  0 <= calculate_node_connectivity g <= Z.max 0 (len (Dict.keys g) - 1).
Proof.
  rewrite calculate_node_connectivity_unfold.
  destruct (len (Dict.keys g) <=? 1) eqn:Hle; [lia|].
  apply Z.leb_gt in Hle.
  destruct (connectivity_loop _ _ _) as [c|] eqn:Hloop; [|lia].
  apply connectivity_loop_range in Hloop. destruct Hloop as [k [Hin [-> _]]].
  apply in_seq in Hin. unfold len in *. lia.
Qed.

(** X9. [calculate_node_connectivity] is never negative and never more
    than the number of nodes less one; a graph with at most one node gets
    0. *)
Theorem calculate_node_connectivity_range (g : graph_t) :
  0 <= calculate_node_connectivity g <= Z.max 0 (len (Dict.keys g) - 1) /\
  (len (Dict.keys g) <= 1 -> calculate_node_connectivity g = 0).
Proof.
  split; [apply calculate_node_connectivity_bounds|].
  intros Hn. pose proof (calculate_node_connectivity_bounds g). lia.
Qed.

Lemma all_reachable_connected g S :
  g <> [] ->
  (forall start, first_not_excluded g S = Some start ->
     forall u, In u (Dict.keys g) -> ~ In u S -> reachable g S start u) ->
  is_graph_connected g S = true.
Proof.
  intros Hg Hall. unfold is_graph_connected, is_graph_connected_opt.
  destruct (is_empty g) eqn:He; [destruct g; [congruence | discriminate]|].
  destruct (first_not_excluded g S) as [start|] eqn:Hstart; [|reflexivity].
  destruct (bfs_loop_terminates g S start) as [visited [Hrun Hin]].
  rewrite Hrun.
  destruct (bfs_loop_invariant g S start (bfs_fuel g) [start] [start] visited)
    as [[_ [_ Hclosed]] _]; [|exact Hrun|].
  { split; [|split].
    - intros u [<- | []]. constructor.
    - apply incl_refl.
    - intros u Hu. now left. }
  apply forallb_forall. intros u Hu. apply orb_true_iff.
  destruct (memZ u S) eqn:Hm; [now left | right].
  apply memZ_false in Hm. apply memZ_In.
  assert (Hr : forall x, reachable g S start x -> In x visited).
  { intros x Hx. induction Hx as [|a b Ha IHa Hab Hb]; [assumption|].
    destruct (Hclosed a IHa) as [[] | Hc]. auto. }
  apply Hr. now apply Hall.
Qed.

Lemma complete_graph_connected g S :
  complete_graph g -> g <> [] -> is_graph_connected g S = true.
Proof.
  intros Hc Hg. apply all_reachable_connected; [assumption|].
  intros start Hstart u Hu HuS.
  apply first_not_excluded_spec in Hstart. destruct Hstart as [Hs _].
  destruct (Z.eq_dec start u) as [<- | Hne]; [constructor|].
  apply reach_step with (u := start); [constructor | auto | assumption].
Qed.

(** X10. On a complete graph, whatever its size, no set of nodes
    disconnects and [calculate_node_connectivity] returns the number of
    nodes less one (0 for the empty graph). *)
Theorem complete_graph_connectivity (g : graph_t) :
  complete_graph g ->
  calculate_node_connectivity g = Z.max 0 (len (Dict.keys g) - 1).
Proof.
  intros Hc. rewrite calculate_node_connectivity_unfold.
  destruct (len (Dict.keys g) <=? 1) eqn:Hle.
  - apply Z.leb_le in Hle. lia.
  - apply Z.leb_gt in Hle.
    assert (Hg : g <> []) by (intros ->; unfold len in Hle; simpl in Hle; lia).
    rewrite connectivity_loop_none; [lia|].
    intros j _. unfold found_disconnecting_set.
    destruct (existsb _ _) eqn:He; [|reflexivity].
    apply existsb_exists in He. destruct He as [c [_ Hd]].
    rewrite (complete_graph_connected g _ Hc Hg) in Hd. discriminate.
Qed.

Lemma ring3_complete : complete_graph ring3.
Proof.
  intros a b Ha Hb Hne. simpl in Ha, Hb.
  destruct Ha as [<- | [<- | [<- | []]]];
    destruct Hb as [<- | [<- | [<- | []]]];
    try congruence; vm_compute; auto.
Qed.

Lemma complete_graph_connectivity_witness :
  calculate_node_connectivity ring3 = Z.max 0 (len (Dict.keys ring3) - 1).
Proof.
  apply (complete_graph_connectivity ring3). exact ring3_complete.
Defined.

Lemma combinations_one l : combinations l 1 = map (fun x => [x]) l.
Proof.
  induction l as [|x l IH]; simpl; [reflexivity|].
  rewrite IH. destruct l; reflexivity.
Qed.

(** X11. [calculate_node_connectivity] returns 0 exactly when the graph
    has at most one node or some single node is a cut: removing it leaves
    the rest unconnected. *)
Theorem connectivity_zero_iff_cut_node (g : graph_t) :
  calculate_node_connectivity g = 0 <->
  len (Dict.keys g) <= 1 \/
  exists node, In node (Dict.keys g) /\ is_graph_connected g [node] = false.
Proof.
  rewrite calculate_node_connectivity_unfold.
  destruct (len (Dict.keys g) <=? 1) eqn:Hle.
  - apply Z.leb_le in Hle. tauto.
  - apply Z.leb_gt in Hle.
    assert (Hcut : found_disconnecting_set g (Dict.keys g) 1 = true <->
                   exists node, In node (Dict.keys g) /\
                                is_graph_connected g [node] = false).
    { unfold found_disconnecting_set. rewrite combinations_one, existsb_exists. split.
      - intros [c [Hin Hd]]. apply in_map_iff in Hin. destruct Hin as [x [<- Hx]].
        exists x. split; [assumption|]. now apply negb_true_iff in Hd.
      - intros [x [Hx Hd]]. exists [x].
        split; [exact (in_map (fun y => [y]) _ x Hx)|].
        simpl. now rewrite Hd. }
    destruct (length (Dict.keys g)) as [|[|n]] eqn:Hn; unfold len in Hle;
      rewrite ?Hn in Hle; simpl in Hle; try lia.
    replace (S (S n) - 1)%nat with (S n) by lia.
    cbn [seq connectivity_loop].
    destruct (found_disconnecting_set g (Dict.keys g) 1) eqn:Hf.
    + split; [intros _; right; now apply Hcut | reflexivity].
    + split.
      * intros H0. exfalso.
        destruct (connectivity_loop g (Dict.keys g) (seq 2 n)) as [c|] eqn:Hloop.
        -- apply connectivity_loop_range in Hloop.
           destruct Hloop as [k [Hin [-> _]]]. apply in_seq in Hin. lia.
        -- unfold len in H0. rewrite Hn in H0. lia.
      * intros [H1 | Hex]; [unfold len in H1; rewrite Hn in H1; lia|].
        apply Hcut in Hex. congruence.
Qed.

(** X12. The connectivity check is monotone in the fault bound: a graph
    that passes for [m] passes, in the same variant, for every smaller
    bound, and one that passes the oral check passes the signed check for
    every bound up to [m], negative ones included. *)
Theorem verify_connectivity_monotone (g : graph_t) (m m' : Z)
    (use_signed_messages : bool) :
  m' <= m ->
  verify_connectivity g m use_signed_messages = true ->
  verify_connectivity g m' use_signed_messages = true /\
  verify_connectivity g m' true = true.
Proof.
  intros Hm. rewrite !verify_connectivity_iff.
  pose proof (calculate_node_connectivity_bounds g) as Hb.
  unfold required_connectivity. destruct use_signed_messages; lia.
Qed.

Lemma verify_connectivity_monotone_witness :
  0 <= 1 /\
  verify_connectivity ring3 1 true = true /\
  verify_connectivity ring3 0 true = true.
Proof.
  split; [lia|]. split; [vm_compute; reflexivity|].
  apply (verify_connectivity_monotone ring3 1 0 true); [lia | vm_compute; reflexivity].
Defined.

(** ** Logs *)

Lemma get_list_set_empty {A : Type} (d : list (Z * list A)) k :
  Dict.mem d k = false -> get_list (Dict.set d k []) k = get_list d k.
Proof.
  unfold get_list, Dict.mem. rewrite get_set_eq.
  destruct (Dict.get d k); [discriminate | reflexivity].
Qed.

Lemma receive_message_get (self : Node) (message : message) (round_num : Z) :
  Dict.get (received_messages (receive_message self message)) round_num
    = (if round_num =? msg_round message
       then Some (get_list (received_messages self) round_num
                  ++ [(msg_value message, msg_path message)])
       else Dict.get (received_messages self) round_num) /\
  node_identity (receive_message self message) = node_identity self /\
  decision (receive_message self message) = decision self /\
  sent_messages (receive_message self message) = sent_messages self.
Proof.
  split; [|repeat split].
  unfold receive_message. cbn [received_messages set_received].
  destruct (round_num =? msg_round message) eqn:Hr.
  - apply Z.eqb_eq in Hr. subst round_num. rewrite get_set_eq.
    destruct (Dict.mem (received_messages self) (msg_round message)) eqn:Hm; simpl.
    + reflexivity.
    + now rewrite get_list_set_empty.
  - apply Z.eqb_neq in Hr. rewrite get_set_neq by congruence.
    destruct (Dict.mem (received_messages self) (msg_round message)); simpl.
    + reflexivity.
    + apply get_set_neq. congruence.
Qed.

(** X13. [receive_message] only appends: after a node has received a
    sequence of messages, its log of a round is the log it had, followed by
    the (value, path) pairs of the messages of that round in the order of
    arrival, a round's list being created with its first message; no other
    attribute of the node changes. *)
Theorem receive_message_log (self : Node) (messages : list message) (round_num : Z) :
  get_list (received_messages (fold_left receive_message messages self)) round_num
    = get_list (received_messages self) round_num
      ++ map (fun m => (msg_value m, msg_path m))
             (filter (fun m => msg_round m =? round_num) messages) /\
  node_identity (fold_left receive_message messages self) = node_identity self /\
  decision (fold_left receive_message messages self) = decision self /\
  sent_messages (fold_left receive_message messages self) = sent_messages self.
Proof.
  revert self. induction messages as [|m rest IH]; intros self.
  - simpl. rewrite app_nil_r. now repeat split.
  - cbn [fold_left filter].
    destruct (IH (receive_message self m)) as [Hlog [Hid [Hdec Hsent]]].
    destruct (receive_message_get self m round_num) as [Hget [Hid1 [Hdec1 Hsent1]]].
    split; [|split; [congruence | split; congruence]].
    rewrite Hlog. unfold get_list at 1. rewrite Hget.
    rewrite (Z.eqb_sym (msg_round m) round_num).
    destruct (round_num =? msg_round m).
    + cbn [map]. now rewrite <- app_assoc.
    + reflexivity.
Qed.

Lemma pair_eqb_eq a b : pair_eqb a b = true <-> a = b.
Proof.
  destruct a as [v p], b as [w q]. unfold pair_eqb. simpl.
  rewrite andb_true_iff, String.eqb_eq.
  destruct (list_eq_dec Z.eq_dec p q) as [-> | Hne]; split.
  - intros [-> _]. reflexivity.
  - intros H. inversion H. auto.
  - intros [_ H]. discriminate.
  - intros H. inversion H. contradiction.
Qed.

Lemma add_unique_present s x : In x s -> add_unique s x = s.
Proof.
  induction s as [|y s IH]; intros Hin; [contradiction|].
  simpl. destruct (pair_eqb y x) eqn:He; [reflexivity|].
  destruct Hin as [-> | Hin].
  - assert (pair_eqb x x = true) by now apply pair_eqb_eq. congruence.
  - now rewrite IH.
Qed.

Lemma in_add_unique s x y : In y (add_unique s x) <-> In y s \/ y = x.
Proof.
  induction s as [|z s IH]; simpl.
  - intuition.
  - destruct (pair_eqb z x) eqn:He.
    + apply pair_eqb_eq in He. subst z. simpl. intuition.
    + simpl. rewrite IH. intuition.
Qed.

Lemma in_fold_add_unique l : forall s y,
  In y (fold_left add_unique l s) <-> In y s \/ In y l.
Proof.
  induction l as [|x l IH]; intros s y; simpl.
  - tauto.
  - rewrite IH, in_add_unique. intuition.
Qed.

Lemma unique_messages_again l x :
  In x l -> unique_messages (l ++ [x]) = unique_messages l.
Proof.
  intros Hin. unfold unique_messages. rewrite fold_left_app. simpl.
  apply add_unique_present. apply in_fold_add_unique. now right.
Qed.

(** X14. [get_majority_from_paths] does not count a pair twice: when a
    node has logged a value with a path in a round, being delivered the
    same value with the same path in that round again changes the majority
    of no round. *)
Theorem majority_ignores_repeated_message
    (self : Node) (v : value) (sender round_num : Z) (path : list Z) :
  In (v, path) (get_list (received_messages self) round_num) ->
  forall r,
    get_majority_from_paths
      (receive_message self (mkMessage v sender round_num path)) r
    = get_majority_from_paths self r.
Proof.
  intros Hin r. unfold get_majority_from_paths.
  destruct (receive_message_get self (mkMessage v sender round_num path) r)
    as [Hlog _].
  rewrite Hlog. cbn [msg_round msg_value msg_path].
  destruct (r =? round_num) eqn:Hr; [|reflexivity].
  apply Z.eqb_eq in Hr. subst r.
  unfold get_list in *.
  destruct (Dict.get (received_messages self) round_num) as [entries|];
    [|contradiction].
  now rewrite unique_messages_again.
Qed.

Lemma majority_ignores_repeated_message_witness :
  In (ATTACK, [0; 0]) (get_list (received_messages informed_lieutenant) 0) /\
  get_majority_from_paths
    (receive_message informed_lieutenant (mkMessage ATTACK 0 0 [0; 0])) 0
  = get_majority_from_paths informed_lieutenant 0.
Proof.
  split; [vm_compute; now left|].
  apply (majority_ignores_repeated_message informed_lieutenant ATTACK 0 0 [0; 0]).
  vm_compute. now left.
Defined.

(** ** Sending *)

(** X15. What [send_message] does to the system, for a registered sender
    and a registered target: the target's log of the round grows by one
    pair, the path handed over with the sender's id appended and the value
    handed over, or, from a traitor after round 0, [ATTACK] for an even
    target id and [RETREAT] for an odd one; the sender records the value
    sent under the round and the target; no other node changes. *)
Theorem send_message_effect (s : BFT) (key target round_num : Z)
    (v : value) (path : list Z) (self receiver : Node) :
  Dict.get (nodes s) key = Some self ->
  Dict.get (nodes s) target = Some receiver ->
  let sent_value := if is_traitor self && (round_num >? 0)
                    then (if target mod 2 =? 0 then ATTACK else RETREAT) else v in
  let s' := send_message s key v target round_num path in
  (exists receiver',
     Dict.get (nodes s') target = Some receiver' /\
     Dict.get (received_messages receiver') round_num
       = Some (get_list (received_messages receiver) round_num
               ++ [(sent_value, path ++ [node_id self])])) /\
  (exists self',
     Dict.get (nodes s') key = Some self' /\
     Dict.get (get_list (sent_messages self') round_num) target = Some sent_value) /\
  (forall other, other <> key -> other <> target ->
                 Dict.get (nodes s') other = Dict.get (nodes s) other) /\
  graph s' = graph s /\ commander_id s' = commander_id s.
Proof.
  intros Hself Hrecv sent_value s'.
  unfold s', send_message. rewrite Hself.
  set (message := make_message self v target round_num path).
  assert (Hval : msg_value message = sent_value) by reflexivity.
  assert (Hpath : msg_path message = path ++ [node_id self]) by reflexivity.
  assert (Hround : msg_round message = round_num) by reflexivity.
  set (sent0 := if negb (Dict.mem (sent_messages self) round_num)
                then Dict.set (sent_messages self) round_num []
                else sent_messages self).
  set (sent1 := Dict.set sent0 round_num
                  (Dict.set (get_list sent0 round_num) target (msg_value message))).
  set (self1 := set_sent self sent1).
  set (s1 := set_nodes s (Dict.set (nodes s) key self1)).
  assert (Hsent : Dict.get (get_list (sent_messages self1) round_num) target
                  = Some sent_value).
  { unfold self1, sent1, get_list at 1. cbn [sent_messages set_sent].
    rewrite get_set_eq, get_set_eq, Hval. reflexivity. }
  unfold deliver_message.
  destruct (Z.eq_dec key target) as [Heq | Hne].
  - subst target. assert (receiver = self) by congruence. subst receiver.
    assert (H1 : Dict.get (nodes s1) key = Some self1) by (apply get_set_eq).
    rewrite H1. cbn [nodes set_nodes graph commander_id].
    split; [|split; [|split; [|split]]]; try reflexivity.
    + exists (receive_message self1 message). rewrite get_set_eq.
      split; [reflexivity|].
      destruct (receive_message_get self1 message round_num) as [Hlog _].
      rewrite Hlog, Hround, Z.eqb_refl, Hval, Hpath. reflexivity.
    + exists (receive_message self1 message). rewrite get_set_eq.
      split; [reflexivity|].
      destruct (receive_message_get self1 message round_num) as [_ [_ [_ Hs]]].
      rewrite Hs. exact Hsent.
    + intros other Hk _. rewrite get_set_neq by congruence.
      unfold s1. cbn [nodes set_nodes]. now rewrite get_set_neq by congruence.
  - assert (H1 : Dict.get (nodes s1) target = Some receiver)
      by (unfold s1; cbn [nodes set_nodes]; rewrite get_set_neq by assumption;
          exact Hrecv).
    rewrite H1. cbn [nodes set_nodes graph commander_id].
    split; [|split; [|split; [|split]]]; try reflexivity.
    + exists (receive_message receiver message). rewrite get_set_eq.
      split; [reflexivity|].
      destruct (receive_message_get receiver message round_num) as [Hlog _].
      rewrite Hlog, Hround, Z.eqb_refl, Hval, Hpath. reflexivity.
    + exists self1. rewrite get_set_neq by congruence.
      unfold s1. cbn [nodes set_nodes]. rewrite get_set_eq.
      split; [reflexivity | exact Hsent].
    + intros other Hk Ht. rewrite get_set_neq by congruence.
      unfold s1. cbn [nodes set_nodes]. now rewrite get_set_neq by congruence.
Qed.

Lemma send_message_effect_witness :
  exists receiver',
    Dict.get (nodes (send_message two_generals 0 ATTACK 1 0 [0])) 1 = Some receiver' /\
    Dict.get (received_messages receiver') 0 = Some ([] ++ [(ATTACK, [0; 0])]).
Proof.
  exact (proj1 (send_message_effect two_generals 0 1 0 ATTACK [0]
                  (new_commander 0 [1] ATTACK) (new_node 1 [0] false)
                  eq_refl eq_refl)).
Defined.

(** ** What a run leaves alone *)

Lemma identity_set (d : list (Z * Node)) k n n' :
  Dict.get d k = Some n ->
  node_identity n' = node_identity n ->
  map (fun kv => (fst kv, node_identity (snd kv))) (Dict.set d k n')
  = map (fun kv => (fst kv, node_identity (snd kv))) d.
Proof.
  intros Hget Hid. induction d as [|[k0 n0] d IH]; [discriminate|].
  simpl in *. destruct (k0 =? k) eqn:Hk.
  - apply Z.eqb_eq in Hk. subst k0. inversion Hget; subst n0.
    simpl. now rewrite Hid.
  - simpl. now rewrite IH.
Qed.

Lemma deliver_message_identity s target message :
  system_identity (deliver_message s target message) = system_identity s.
Proof.
  unfold deliver_message.
  destruct (Dict.get (nodes s) target) as [n|] eqn:Hget; [|reflexivity].
  unfold system_identity. cbn [graph commander_id nodes set_nodes].
  now rewrite (identity_set _ _ n).
Qed.

Lemma send_message_identity s key v target round_num path :
  system_identity (send_message s key v target round_num path) = system_identity s.
Proof.
  unfold send_message.
  destruct (Dict.get (nodes s) key) as [n|] eqn:Hget; [|reflexivity].
  rewrite deliver_message_identity.
  unfold system_identity. cbn [graph commander_id nodes set_nodes].
  now rewrite (identity_set _ _ n).
Qed.

Lemma fold_left_identity {A : Type} (f : BFT -> A -> BFT) :
  (forall s a, system_identity (f s a) = system_identity s) ->
  forall l s, system_identity (fold_left f l s) = system_identity s.
Proof.
  intros Hf. induction l as [|a l IH]; intros s; simpl; [reflexivity|].
  now rewrite IH, Hf.
Qed.

Lemma send_along_identity v round_num path :
  forall rest s current,
    system_identity (send_along s v round_num path current rest) = system_identity s.
Proof.
  induction rest as [|next rest IH]; intros s current; simpl; [reflexivity|].
  rewrite IH. destruct (Dict.mem (nodes s) current && Dict.mem (nodes s) next);
    [apply send_message_identity | reflexivity].
Qed.

Lemma send_via_multipath_identity s source target v round_num k :
  system_identity (send_via_multipath s source target v round_num k)
  = system_identity s.
Proof.
  unfold send_via_multipath. destruct (source =? target); [reflexivity|].
  generalize (find_disjoint_paths (graph s) source target k). intros paths.
  apply fold_left_identity. intros s0 path.
  destruct (len path <? 2); [reflexivity | apply send_along_identity].
Qed.

Lemma commander_round_identity s v round_num k :
  system_identity (commander_round s v round_num k) = system_identity s.
Proof.
  unfold commander_round. apply fold_left_identity. intros s0 target.
  destruct (negb (target =? commander_id s0));
    [apply send_via_multipath_identity | reflexivity].
Qed.

Lemma send_to_all_identity s source v round_num k :
  system_identity (send_to_all s source v round_num k) = system_identity s.
Proof.
  unfold send_to_all. apply fold_left_identity. intros s0 target.
  destruct (negb (target =? source));
    [apply send_via_multipath_identity | reflexivity].
Qed.

Lemma oral_round_identity s round_num k :
  system_identity (oral_round s round_num k) = system_identity s.
Proof.
  unfold oral_round. apply fold_left_identity. intros s0 source.
  destruct (source =? commander_id s0); [reflexivity|].
  destruct (Dict.get (nodes s0) source); [apply send_to_all_identity | reflexivity].
Qed.

Lemma signed_round_identity s round_num k :
  system_identity (signed_round s round_num k) = system_identity s.
Proof.
  unfold signed_round. apply fold_left_identity. intros s0 source.
  destruct (source =? commander_id s0); [reflexivity|].
  destruct (Dict.get (nodes s0) source) as [n|]; [|reflexivity].
  destruct (Dict.mem (received_messages n) (round_num - 1));
    [apply send_to_all_identity | reflexivity].
Qed.

Lemma voting_fold_identity :
  forall items acc,
    system_identity (snd (fold_left voting_step items acc))
    = system_identity (snd acc).
Proof.
  induction items as [|[k x] items IH]; intros [decisions s]; simpl; [reflexivity|].
  rewrite IH. destruct (Dict.get (nodes s) k) as [n|] eqn:Hget; [|reflexivity].
  unfold system_identity. cbn [snd graph commander_id nodes set_nodes].
  now rewrite (identity_set _ _ n).
Qed.

Lemma final_voting_identity s :
  system_identity (snd (final_voting s)) = system_identity s.
Proof. unfold final_voting. apply voting_fold_identity. Qed.

(** X16. A run changes logs, records of sent messages and decisions and
    nothing else: after [run_oral_consensus] and after
    [run_signed_consensus], passed or failed, the graph, the commander id,
    the registered ids in their order, and every node's id, traitor flag,
    neighbour list and initial value are what they were. *)
Theorem runs_keep_identity (s : BFT) (m : Z) (v : value) :
  system_identity (snd (run_oral_consensus s m v)) = system_identity s /\
  system_identity (snd (run_signed_consensus s m v)) = system_identity s.
Proof.
  split.
  - unfold run_oral_consensus.
    destruct (negb (verify_connectivity (graph s) m false)); [reflexivity|].
    set (s1 := fold_left _ (range (m + 1)) s).
    assert (H1 : system_identity s1 = system_identity s).
    { unfold s1. apply fold_left_identity. intros s0 r.
      destruct (r =? 0); [apply commander_round_identity | apply oral_round_identity]. }
    pose proof (final_voting_identity s1) as H2.
    destruct (final_voting s1) as [decisions s2]. simpl in *. congruence.
  - unfold run_signed_consensus.
    destruct (negb (verify_connectivity (graph s) m true)); [reflexivity|].
    set (s1 := fold_left _ (range (m + 1)) s).
    assert (H1 : system_identity s1 = system_identity s).
    { unfold s1. apply fold_left_identity. intros s0 r.
      destruct (r =? 0); [apply commander_round_identity | apply signed_round_identity]. }
    pose proof (final_voting_identity s1) as H2.
    destruct (final_voting s1) as [decisions s2]. simpl in *. congruence.
Qed.

(** ** The final vote, key by key *)

Lemma voting_fold_unregistered :
  forall items decisions s id,
    Dict.get (nodes s) id = None ->
    Dict.get (fst (fold_left voting_step items (decisions, s))) id
      = Dict.get decisions id /\
    Dict.get (nodes (snd (fold_left voting_step items (decisions, s)))) id = None.
Proof.
  induction items as [|[k x] items IH]; intros decisions s id Hnone; simpl.
  - auto.
  - destruct (Dict.get (nodes s) k) as [n|] eqn:Hk; [|now apply IH].
    assert (Hne : k <> id) by (intros ->; congruence).
    destruct (IH (Dict.set decisions k (vote n))
                 (set_nodes s (Dict.set (nodes s) k (set_decision n (Some (vote n)))))
                 id) as [H1 H2].
    + simpl. now rewrite get_set_neq.
    + rewrite H1, H2. now rewrite get_set_neq.
Qed.

Lemma vote_received n n' :
  received_messages n' = received_messages n -> vote n' = vote n.
Proof. unfold vote, all_values. now intros ->. Qed.

Lemma final_voting_get s id :
  Dict.get (fst (final_voting s)) id = option_map vote (Dict.get (nodes s) id) /\
  option_map vote (Dict.get (nodes (snd (final_voting s))) id)
    = option_map vote (Dict.get (nodes s) id) /\
  option_map decision (Dict.get (nodes (snd (final_voting s))) id)
    = option_map (fun n => Some (vote n)) (Dict.get (nodes s) id).
Proof.
  unfold final_voting.
  destruct (Dict.get (nodes s) id) as [n|] eqn:Hget.
  - assert (Hin : In id (map fst (sorted_items (nodes s))))
      by (apply in_sorted_items; eapply get_some_in; eauto).
    destruct (voting_fold_spec _ [] s id n Hget Hin) as [H1 [n' [H2 [H3 H4]]]].
    rewrite H1, H2. simpl. rewrite H3, (vote_received _ _ H4). auto.
  - destruct (voting_fold_unregistered (sorted_items (nodes s)) [] s id Hget)
      as [H1 H2].
    rewrite H1, H2. auto.
Qed.

(** X17. The decisions dict of [final_voting] has an entry exactly for
    the registered ids, and the entry of a node, the commander's like any
    other, is the vote over all the values of its log: [ATTACK] when they
    outnumber the [RETREAT]s, each logged entry counted, else [RETREAT]. The
    node's [decision] attribute is set to the same value. *)
Theorem final_voting_lookup (s : BFT) (id : Z) :
  Dict.get (fst (final_voting s)) id
    = option_map (fun n => if count ATTACK (all_values n) >? count RETREAT (all_values n)
                           then ATTACK else RETREAT)
                 (Dict.get (nodes s) id) /\
  option_map decision (Dict.get (nodes (snd (final_voting s))) id)
    = option_map Some (Dict.get (fst (final_voting s)) id).
Proof.
  destruct (final_voting_get s id) as [H1 [_ H3]]. rewrite H1, H3.
  destruct (Dict.get (nodes s) id) as [n|]; simpl; [|auto].
  now rewrite vote_spec.
Qed.

(** X18. [final_voting] is idempotent: called again with no message in
    between, it returns, id by id, the decisions it returned the first
    time. *)
Theorem final_voting_idempotent (s : BFT) (id : Z) :
  Dict.get (fst (final_voting (snd (final_voting s)))) id
  = Dict.get (fst (final_voting s)) id.
Proof.
  destruct (final_voting_get (snd (final_voting s)) id) as [H1 _].
  destruct (final_voting_get s id) as [H2 [H3 _]].
  now rewrite H1, H2, H3.
Qed.

(** ** The consensus check *)

Lemma loyal_nodes_registered s :
  forall decisions,
    (forall id, In id (Dict.keys decisions) -> Dict.mem (nodes s) id = true) ->
    loyal_nodes s decisions = Some (loyal_decisions s decisions).
Proof.
  induction decisions as [|[nid d] decisions IH]; intros Hreg; [reflexivity|].
  simpl. pose proof (Hreg nid (or_introl eq_refl)) as Hmem. unfold Dict.mem in Hmem.
  destruct (Dict.get (nodes s) nid) as [n|]; [|discriminate].
  rewrite IH by (intros id Hid; apply Hreg; now right).
  destruct (negb (is_traitor n) && negb (nid =? commander_id s)); reflexivity.
Qed.

Lemma loyal_nodes_unregistered s :
  forall decisions id,
    In id (Dict.keys decisions) -> Dict.mem (nodes s) id = false ->
    loyal_nodes s decisions = None.
Proof.
  induction decisions as [|[nid d] decisions IH]; intros id Hin Hmem; [contradiction|].
  simpl. destruct Hin as [Heq | Hin].
  - simpl in Heq. subst nid. unfold Dict.mem in Hmem.
    destruct (Dict.get (nodes s) id); [discriminate | reflexivity].
  - destruct (Dict.get (nodes s) nid); [|reflexivity].
    now rewrite (IH id Hin Hmem).
Qed.

(** X19. With a commander created by [set_commander], which is never a
    traitor, and decisions keyed by registered ids, [check_consensus]
    returns [True] exactly when every loyal lieutenant's decision is the
    commander's initial value: agreement among the lieutenants (IC1) is
    then implied, and the commander's own entry in [decisions] plays no
    part. *)
Theorem check_consensus_loyal_commander
    (s : BFT) (decisions : list (Z * value)) (commander : Node) (v : value) :
  (forall id, In id (Dict.keys decisions) -> Dict.mem (nodes s) id = true) ->
  Dict.get (nodes s) (commander_id s) = Some commander ->
  is_traitor commander = false ->
  initial_value commander = Some v ->
  check_consensus s decisions
  = Some (forallb (fun d => String.eqb d v)
                  (Dict.values (loyal_decisions s decisions))).
Proof.
  intros Hreg Hc Hloyal Hv. unfold check_consensus.
  rewrite (loyal_nodes_registered s decisions Hreg).
  destruct (loyal_decisions s decisions) as [|[nid first] rest]; [reflexivity|].
  rewrite Hc, Hloyal, Hv. cbn [negb orb]. f_equal.
  cbn [Dict.values map snd forallb].
  destruct (String.eqb_spec first v) as [-> | Hne].
  - rewrite String.eqb_refl. cbn [andb].
    destruct (forallb (fun d => String.eqb d v) (map snd rest)); reflexivity.
  - cbn [andb]. apply andb_false_r.
Qed.

Lemma check_consensus_loyal_commander_witness :
  check_consensus three_generals [(0, RETREAT); (1, ATTACK); (2, ATTACK)]
  = Some (forallb (fun d => String.eqb d ATTACK)
                  (Dict.values (loyal_decisions three_generals
                                  [(0, RETREAT); (1, ATTACK); (2, ATTACK)]))).
Proof.
  apply (check_consensus_loyal_commander three_generals
           [(0, RETREAT); (1, ATTACK); (2, ATTACK)]
           (new_commander 0 [1; 2] ATTACK) ATTACK).
  - intros id [<- | [<- | [<- | []]]]; reflexivity.
  - reflexivity.
  - reflexivity.
  - reflexivity.
Defined.

(** X20. [check_consensus] raises instead of answering in three cases: a
    key of [decisions] is not a registered id ([KeyError], whatever else
    the dict holds); or, a loyal lieutenant being among the decisions, the
    commander id is not registered ([KeyError]), or names a loyal node
    that was registered with [add_node] and so has no [initial_value]
    ([AttributeError]). *)
Theorem check_consensus_raises (s : BFT) (decisions : list (Z * value)) :
  (forall id, In id (Dict.keys decisions) -> Dict.mem (nodes s) id = false ->
              check_consensus s decisions = None) /\
  ((forall id, In id (Dict.keys decisions) -> Dict.mem (nodes s) id = true) ->
   loyal_decisions s decisions <> [] ->
   match Dict.get (nodes s) (commander_id s) with
   | None => True
   | Some commander => is_traitor commander = false /\ initial_value commander = None
   end ->
   check_consensus s decisions = None).
Proof.
  split.
  - intros id Hin Hmem. unfold check_consensus.
    now rewrite (loyal_nodes_unregistered s decisions id Hin Hmem).
  - intros Hreg Hloyal Hc. unfold check_consensus.
    rewrite (loyal_nodes_registered s decisions Hreg).
    destruct (loyal_decisions s decisions) as [|[nid first] rest]; [congruence|].
    destruct (Dict.get (nodes s) (commander_id s)) as [commander|]; [|reflexivity].
    destruct Hc as [Ht Hi]. now rewrite Ht, Hi.
Qed.

Lemma check_consensus_raises_witness :
  check_consensus no_commander_system [(0, ATTACK); (1, ATTACK)] = None.
Proof.
  apply (proj2 (check_consensus_raises no_commander_system [(0, ATTACK); (1, ATTACK)])).
  - intros id [<- | [<- | []]]; reflexivity.
  - vm_compute. discriminate.
  - vm_compute. split; reflexivity.
Defined.

(** ** The signed-message node: further properties *)

(** X22. Signatures are unambiguous: whatever else [int] reads, as long
    as it reads back the numerals [str] writes, [verify_signature] reads
    back from what [sign_message] wrote the value and the signer chain
    with the signing node last; and two signatures of one node are equal
    only when their values and their chains are. *)
Theorem sign_message_round_trip (int : string -> option Z)
    (self : NodePlus.SignedMessagesNode)
    (v v' : NodePlus.Action) (signatures signatures' : list Z) :
  (reads_str int ->
   NodePlus.verify_signature int (NodePlus.sign_message self v signatures)
     = Some (v, signatures ++ [NodePlus.node_id self])) /\
  (NodePlus.sign_message self v signatures = NodePlus.sign_message self v' signatures' ->
   v = v' /\ signatures = signatures').
Proof.
  split; [apply verify_sign_message|].
  intros Heq.
  pose proof (verify_sign_message _ self v signatures decimal_int_str) as H1.
  pose proof (verify_sign_message _ self v' signatures' decimal_int_str) as H2.
  rewrite Heq, H2 in H1. inversion H1 as [[Hv Hs]].
  split; [reflexivity|]. now apply app_inv_tail in Hs.
Qed.

Lemma sign_message_round_trip_witness :
  NodePlus.verify_signature NodePlus.decimal_int
    (NodePlus.sign_message signed_lieutenant NodePlus.ATTACK [0])
  = Some (NodePlus.ATTACK, [0] ++ [NodePlus.node_id signed_lieutenant]).
Proof.
  exact (proj1 (sign_message_round_trip NodePlus.decimal_int signed_lieutenant
                  NodePlus.ATTACK NodePlus.ATTACK [0] [0])
               decimal_int_str).
Defined.

Lemma in_range i n : In i (range n) <-> 0 <= i < n.
Proof.
  unfold range. rewrite in_map_iff. split.
  - intros [k [<- Hk]]. apply in_seq in Hk. lia.
  - intros Hi. exists (Z.to_nat i). split; [lia|]. apply in_seq. lia.
Qed.

Section Addressing.
Import NodePlus.

Lemma well_addressed_same self n msg :
  node_id n = node_id self -> total_nodes n = total_nodes self ->
  well_addressed n msg -> well_addressed self msg.
Proof.
  intros Hid Htot [H1 [H2 [H3 [v [sigs [H4 [H5 H6]]]]]]].
  unfold well_addressed. rewrite <- Hid, <- Htot.
  repeat (split; [assumption|]).
  exists v, sigs. rewrite <- (sign_message_same_id n self) by assumption. auto.
Qed.

Lemma relay_messages_addressed n v signatures round msg :
  In msg (relay_messages n v signatures round) -> well_addressed n msg.
Proof.
  unfold relay_messages. intros Hin. apply in_map_iff in Hin.
  destruct Hin as [i [<- Hi]]. apply filter_In in Hi. destruct Hi as [Hr Hc].
  apply andb_true_iff in Hc. destruct Hc as [Hne Hnot].
  apply negb_true_iff in Hne, Hnot. apply Z.eqb_neq in Hne. apply memZ_false in Hnot.
  unfold well_addressed. cbn [sender_id receiver_id signature content].
  split; [reflexivity|]. split; [assumption|]. split; [now apply in_range|].
  exists v, signatures. auto.
Qed.

Lemma handle_message_addressing int self round o msg :
  addressing_invariant self o ->
  addressing_invariant self (handle_message int round o msg).
Proof.
  intros Hinv. unfold handle_message.
  destruct (raised o); [assumption|].
  destruct (signature msg) as [sig|]; [|assumption].
  destruct (String.eqb sig ""); [assumption|].
  destruct Hinv as [Hid [Htot Hsent]].
  destruct (verify_signature int sig) as [[v signatures]|];
    [|exact (conj Hid (conj Htot Hsent))].
  destruct (is_new (node o) signatures);
    [|exact (conj Hid (conj Htot Hsent))].
  cbn [total_nodes set_signed_messages].
  destruct (len signatures <=? total_nodes (node o)).
  - unfold addressing_invariant.
    cbn [node sent node_id total_nodes set_signed_messages].
    split; [assumption|]. split; [assumption|].
    intros m Hm. apply in_app_iff in Hm. destruct Hm as [Hm | Hm]; [auto|].
    apply relay_messages_addressed in Hm.
    apply (well_addressed_same self _ m) in Hm; assumption.
  - exact (conj Hid (conj Htot Hsent)).
Qed.

Lemma process_round_addressing int self o round messages :
  addressing_invariant self o ->
  addressing_invariant self (process_round int o round messages).
Proof.
  intros Hinv. unfold process_round.
  destruct (raised o); [assumption|].
  destruct ((round =? 0) && is_commander (node o)).
  - destruct Hinv as [Hid [Htot Hsent]].
    destruct (commander_value (node o)) as [v|];
      [|exact (conj Hid (conj Htot Hsent))].
    unfold addressing_invariant. cbn [node sent].
    split; [assumption|]. split; [assumption|].
    intros m Hm. apply in_app_iff in Hm. destruct Hm as [Hm | Hm]; [auto|].
    apply in_map_iff in Hm. destruct Hm as [i [<- Hi]].
    apply filter_In in Hi. destruct Hi as [Hr Hne].
    apply negb_true_iff in Hne. apply Z.eqb_neq in Hne.
    apply in_range in Hr.
    unfold well_addressed. cbn [sender_id receiver_id signature content].
    rewrite <- Hid, <- Htot.
    split; [reflexivity|]. split; [assumption|]. split; [assumption|].
    exists v, []. rewrite (sign_message_same_id self (node o)) by congruence.
    split; [reflexivity|]. split; [reflexivity | intros []].
  - revert o Hinv. induction messages as [|msg messages IH]; intros o Hinv.
    + assumption.
    + simpl. apply IH. now apply handle_message_addressing.
Qed.
End Addressing.

(** X23. Over a whole run, whatever the network hands it and whatever
    [int] makes of the numerals it is handed, a signed-message node sends
    messages only in its own name, never to itself, only to ids of
    [range(total_nodes)], and never to a node whose id is in the chain of
    signers it is relaying; the content of each message is its
    signature. *)
Theorem signed_node_addresses_others (int : string -> option Z)
    (self : NodePlus.SignedMessagesNode)
    (rounds : list (Z * list NodePlus.NetworkMessage)) (msg : NodePlus.NetworkMessage) :
  In msg (NodePlus.sent (NodePlus.run_node int self rounds)) ->
  well_addressed self msg.
Proof.
  unfold NodePlus.run_node.
  assert (Hinit : addressing_invariant self (NodePlus.mkOutcome self [] false)).
  { split; [reflexivity|]. split; [reflexivity | intros m []]. }
  revert Hinit. generalize (NodePlus.mkOutcome self [] false).
  induction rounds as [|r rounds IH]; intros o Hinv Hin.
  - destruct Hinv as [_ [_ Hsent]]. now apply Hsent.
  - simpl in Hin.
    apply (IH (NodePlus.process_round int o (fst r) (snd r))); [|assumption].
    now apply process_round_addressing.
Qed.

Lemma signed_node_addresses_others_witness :
  well_addressed signed_relayer
    (NodePlus.mkNetworkMessage 1 3 "RETREAT:2:1" [] 2 (Some "RETREAT:2:1"%string)).
Proof.
  apply (signed_node_addresses_others NodePlus.decimal_int signed_relayer two_orders).
  vm_compute. do 3 right. now left.
Defined.

(** ** The oral-message node *)

Section OralRelay.
Import OralNode.

Lemma relay_of_more self incoming incoming' m :
  incl incoming incoming' -> relay_of self incoming m -> relay_of self incoming' m.
Proof.
  intros Hincl [H1 [H2 [H3 H4]]]. unfold relay_of.
  repeat (split; [assumption|]).
  destruct H4 as [H4 | [msg [Hin H4]]]; [now left | right].
  exists msg. split; [now apply Hincl | assumption].
Qed.

Lemma oral_invariant_more self incoming incoming' o :
  incl incoming incoming' ->
  oral_invariant self incoming o -> oral_invariant self incoming' o.
Proof.
  intros Hincl [Hsame Hsent]. split; [assumption|].
  intros m Hm. eapply relay_of_more; eauto.
Qed.

Lemma send_value_sent rand o receiver v round p :
  exists m,
    sent (send_value rand o receiver v round p) = sent o ++ [m] /\
    node (send_value rand o receiver v round p) = node o /\
    sender_id m = node_id (node o) /\ receiver_id m = receiver /\
    round_num m = round /\ path m = p ++ [node_id (node o)] /\
    (content m = v \/
     (is_faulty (node o) = true /\ 0 < round /\
      (content m = Some NodePlus.ATTACK \/ content m = Some NodePlus.RETREAT))).
Proof.
  unfold send_value.
  destruct (is_faulty (node o) && (round >? 0)) eqn:Hf.
  - eexists. split; [reflexivity|]. split; [reflexivity|].
    cbn [sender_id receiver_id round_num path content].
    repeat (split; [reflexivity|]). right.
    apply andb_true_iff in Hf. destruct Hf as [Hf Hr].
    split; [assumption|]. split; [lia|].
    destruct (rand (draws o)); auto.
  - eexists. split; [reflexivity|]. split; [reflexivity|].
    cbn [sender_id receiver_id round_num path content].
    repeat (split; [reflexivity|]). now left.
Qed.

Lemma relay_loop_invariant rand self incoming msg :
  In msg incoming ->
  round_num msg < max_faulty self ->
  forall l o,
    (forall i, In i l -> 0 <= i < total_nodes self) ->
    oral_invariant self incoming o ->
    oral_invariant self incoming
      (fold_left
         (fun o i =>
            if negb (i =? node_id self) && negb (memZ i (py_set (path msg)))
            then send_value rand o i (content msg) (round_num msg + 1) (path msg)
            else o)
         l o).
Proof.
  intros Hin Hround. induction l as [|i l IH]; intros o Hl Hinv; [assumption|].
  simpl. apply IH; [intros j Hj; apply Hl; now right|].
  destruct (negb (i =? node_id self) && negb (memZ i (py_set (path msg)))) eqn:Hc;
    [|assumption].
  apply andb_true_iff in Hc. destruct Hc as [Hne Hnot].
  apply negb_true_iff in Hne, Hnot. apply Z.eqb_neq in Hne.
  apply memZ_false in Hnot. rewrite in_py_set in Hnot.
  destruct Hinv as [Hsame Hsent].
  destruct (send_value_sent rand o i (content msg) (round_num msg + 1) (path msg))
    as [m [Hs [Hn [H1 [H2 [H3 [H4 H5]]]]]]].
  split; [now rewrite Hn|].
  intros m' Hm'. rewrite Hs in Hm'. apply in_app_iff in Hm'.
  destruct Hm' as [Hm' | [<- | []]]; [auto|].
  destruct Hsame as [Hid [Hfa _]].
  unfold relay_of. rewrite H1, H2, Hid.
  split; [reflexivity|]. split; [assumption|].
  split; [apply Hl; now left|]. right.
  exists msg. rewrite H3, H4, Hid, <- Hfa.
  repeat (split; [assumption || reflexivity|]). exact H5.
Qed.

Lemma store_same self n round key v :
  oral_node_same self n -> oral_node_same self (store n round key v).
Proof. intros H. exact H. Qed.

Lemma handle_message_oral rand self incoming o msg :
  In msg incoming ->
  oral_invariant self incoming o ->
  oral_invariant self incoming (handle_message rand o msg).
Proof.
  intros Hin [Hsame Hsent]. unfold handle_message.
  set (n := store (node o) (round_num msg) (path_key (path msg)) (content msg)).
  assert (Hn : oral_node_same self n) by (apply store_same; assumption).
  assert (Hinv : oral_invariant self incoming (mkOutcome n (sent o) (draws o)))
    by (split; assumption).
  destruct Hn as [Hid [_ [Htot [Hmax _]]]].
  destruct (round_num msg <? max_faulty n) eqn:Hr; [|assumption].
  apply Z.ltb_lt in Hr. rewrite Hid, Htot.
  apply relay_loop_invariant; [assumption | congruence | | assumption].
  intros i Hi. now apply in_range.
Qed.

Lemma commander_loop_invariant rand self incoming v :
  is_commander self = true -> v = commander_value self ->
  forall l o,
    (forall i, In i l -> 0 <= i < total_nodes self) ->
    oral_invariant self incoming o ->
    oral_invariant self incoming
      (fold_left
         (fun o i =>
            if negb (i =? node_id self) then send_value rand o i v 0 [] else o)
         l o).
Proof.
  intros Hcom Hv. induction l as [|i l IH]; intros o Hl Hinv; [assumption|].
  simpl. apply IH; [intros j Hj; apply Hl; now right|].
  destruct (negb (i =? node_id self)) eqn:Hne; [|assumption].
  apply negb_true_iff in Hne. apply Z.eqb_neq in Hne.
  destruct Hinv as [Hsame Hsent].
  destruct (send_value_sent rand o i v 0 []) as [m [Hs [Hn [H1 [H2 [H3 [H4 H5]]]]]]].
  split; [now rewrite Hn|].
  intros m' Hm'. rewrite Hs in Hm'. apply in_app_iff in Hm'.
  destruct Hm' as [Hm' | [<- | []]]; [auto|].
  destruct Hsame as [Hid _].
  unfold relay_of. rewrite H1, H2, Hid.
  split; [reflexivity|]. split; [assumption|].
  split; [apply Hl; now left|]. left.
  rewrite H3, H4, Hid. repeat (split; [assumption || reflexivity|]).
  destruct H5 as [H5 | [_ [H5 _]]]; [congruence | lia].
Qed.

Lemma process_round_oral rand self incoming o round messages :
  incl messages incoming ->
  oral_invariant self incoming o ->
  oral_invariant self incoming (process_round rand o round messages).
Proof.
  intros Hincl Hinv. unfold process_round.
  destruct ((round =? 0) && is_commander (node o)) eqn:Hc.
  - apply andb_true_iff in Hc. destruct Hc as [Hr Hcom].
    apply Z.eqb_eq in Hr. subst round.
    destruct Hinv as [Hsame Hsent]. pose proof Hsame as Hsame'.
    destruct Hsame' as [Hid [_ [Htot [_ [Hic Hcv]]]]].
    rewrite Hid, Htot.
    apply commander_loop_invariant; [congruence | assumption | | split; assumption].
    intros i Hi. now apply in_range.
  - clear Hc. revert o Hinv.
    induction messages as [|msg messages IH]; intros o Hinv.
    + assumption.
    + simpl. apply IH; [intros x Hx; apply Hincl; now right|].
      apply handle_message_oral; [apply Hincl; now left | assumption].
Qed.

Lemma run_fold_oral rand self :
  forall rounds seen o,
    oral_invariant self seen o ->
    oral_invariant self (seen ++ flat_map snd rounds)
      (fold_left (fun o r => process_round rand o (fst r) (snd r)) rounds o).
Proof.
  induction rounds as [|r rounds IH]; intros seen o Hinv.
  - simpl. now rewrite app_nil_r.
  - simpl. rewrite app_assoc. apply IH.
    apply process_round_oral; [apply incl_appr, incl_refl|].
    eapply oral_invariant_more; [|exact Hinv]. apply incl_appl, incl_refl.
Qed.

Lemma run_node_oral rand self rounds :
  oral_invariant self (flat_map snd rounds) (run_node rand self rounds).
Proof.
  unfold run_node.
  apply (run_fold_oral rand self rounds [] (mkOutcome self [] 0)).
  split; [repeat split | intros m []].
Qed.
End OralRelay.

(** X24. Over a whole run, whatever the network hands it and whatever the
    random draws, every message an oral-message node sends is sent in its
    own name to another node of [range(total_nodes)] and is either its
    order as commander in round 0, or the relay of a message it received
    in a round below [max_faulty]: one round later, its own id appended
    to the path, to a node not on the path received, with the content
    received; only a faulty node, in a round after 0, replaces the content,
    and then by [ATTACK] or [RETREAT]. *)
Theorem oral_node_relays (rand : nat -> bool) (self : OralNode.OralMessagesNode)
    (rounds : list (Z * list OralNode.NetworkMessage))
    (m : OralNode.NetworkMessage) :
  In m (OralNode.sent (OralNode.run_node rand self rounds)) ->
  relay_of self (flat_map snd rounds) m.
Proof.
  intros Hin. destruct (run_node_oral rand self rounds) as [_ Hsent]. now apply Hsent.
Qed.

Lemma oral_node_relays_witness :
  relay_of oral_commander (flat_map snd [(0, @nil OralNode.NetworkMessage)])
    (OralNode.mkNetworkMessage 0 1 (Some NodePlus.ATTACK) [0] 0).
Proof.
  apply (oral_node_relays (fun _ => true) oral_commander [(0, [])]).
  vm_compute. now left.
Defined.

(** X25. The oral relay keeps paths simple and shallow: when no message a
    node receives has a repeated id on its path or the node itself on it,
    no message it sends has a repeated id on its path or its receiver on
    it, and none is of a round above [max_faulty] (above 0 for a negative
    [max_faulty]). *)
Theorem oral_relay_paths_stay_simple (rand : nat -> bool)
    (self : OralNode.OralMessagesNode)
    (rounds : list (Z * list OralNode.NetworkMessage))
    (m : OralNode.NetworkMessage) :
  (forall msg, In msg (flat_map snd rounds) ->
               NoDup (OralNode.path msg) /\
               ~ In (OralNode.node_id self) (OralNode.path msg)) ->
  In m (OralNode.sent (OralNode.run_node rand self rounds)) ->
  well_routed m /\
  OralNode.round_num m <= Z.max 0 (OralNode.max_faulty self).
Proof.
  intros Hincoming Hin.
  destruct (run_node_oral rand self rounds) as [_ Hsent].
  destruct (Hsent m Hin) as [_ [Hne [_ Hcase]]].
  destruct Hcase as [[_ [Hr [Hp _]]] | [msg [Hmsg [Hr [Hr' [Hp [Hnot _]]]]]]].
  - unfold well_routed. rewrite Hp, Hr. split; [|lia]. split.
    + repeat constructor. intros [].
    + intros [Heq | []]. congruence.
  - destruct (Hincoming msg Hmsg) as [Hnd Hself].
    unfold well_routed. rewrite Hp, Hr'. split; [|lia]. split.
    + apply NoDup_app; [assumption | repeat constructor; intros [] |].
      intros x Hx [<- | []]. contradiction.
    + intros Hx. apply in_app_iff in Hx. destruct Hx as [Hx | [Heq | []]];
        [contradiction | congruence].
Qed.

Lemma oral_relay_paths_stay_simple_witness :
  well_routed (OralNode.mkNetworkMessage 1 2 (Some NodePlus.ATTACK) [0; 1] 1) /\
  1 <= Z.max 0 (OralNode.max_faulty oral_lieutenant).
Proof.
  apply (oral_relay_paths_stay_simple (fun _ => true) oral_lieutenant
           [(1, [OralNode.mkNetworkMessage 0 1 (Some NodePlus.ATTACK) [0] 0])]).
  - intros msg [<- | []]. simpl. split.
    + repeat constructor. intros [].
    + intros [H | []]. discriminate.
  - vm_compute. now left.
Defined.

(** ** The connectivity check, for every fault bound *)

(** C6, as the code has it. [verify_connectivity] returns the verdict
    alone. For every [m], negative ones included, it passes exactly when
    the computed connectivity is at least [2m + 1] for oral messages and
    at least [m + 1] for signed ones, and a graph that passes the oral
    check passes the signed one. The signed requirement is at most the
    oral one exactly when [m >= 0]. *)
Theorem verify_connectivity_spec (g : graph_t) (m : Z) :
  (verify_connectivity g m false = true <->
   calculate_node_connectivity g >= 2 * m + 1) /\
  (verify_connectivity g m true = true <->
   calculate_node_connectivity g >= m + 1) /\
  (verify_connectivity g m false = true -> verify_connectivity g m true = true) /\
  (required_connectivity m true <= required_connectivity m false <-> 0 <= m).
Proof.
  split; [|split; [|split]].
  - apply (verify_connectivity_iff g m false).
  - apply (verify_connectivity_iff g m true).
  - rewrite !verify_connectivity_iff.
    pose proof (calculate_node_connectivity_bounds g) as Hb.
    unfold required_connectivity. lia.
  - change (m + 1 <= 2 * m + 1 <-> 0 <= m). lia.
Qed.

Lemma verify_connectivity_spec_witness :
  verify_connectivity ring3 0 false = true /\
  verify_connectivity ring3 0 true = true /\
  required_connectivity 0 true <= required_connectivity 0 false.
Proof.
  destruct (verify_connectivity_spec ring3 0) as [Horal [_ [Hsigned Hreq]]].
  assert (Hpass : verify_connectivity ring3 0 false = true)
    by (apply Horal; vm_compute; discriminate).
  split; [exact Hpass|]. split; [exact (Hsigned Hpass) | apply Hreq; lia].
Defined.

(** C6, as stated, fails: the value returned does not determine the
    connectivity computed (the triangle and the two-node graph get the same
    verdict with connectivities 2 and 1), and without [m >= 0] the signed
    requirement can exceed the oral one. *)
Lemma verify_connectivity_returns_verdict_only :
  ~ (exists actual : bool -> Z,
       forall g m use_signed_messages,
         actual (verify_connectivity g m use_signed_messages)
           = calculate_node_connectivity g) /\
  ~ (forall m, required_connectivity m true <= required_connectivity m false).
Proof.
  split.
  - intros [actual H].
    pose proof (H ring3 0 false) as H3.
    pose proof (H (graph two_generals) 0 false) as H2.
    vm_compute in H3. vm_compute in H2. congruence.
  - intros H. specialize (H (-1)). vm_compute in H. apply H. reflexivity.
Qed.

(** ** The paths that [send_via_multipath] leaves in the logs *)

Lemma keyed_by_id_get s :
  keyed_by_id s ->
  forall key n, Dict.get (nodes s) key = Some n -> node_id n = key.
Proof.
  unfold keyed_by_id. intros H key n. induction H as [|[k0 n0] d Hk _ IH]; simpl.
  - discriminate.
  - destruct (k0 =? key) eqn:E.
    + apply Z.eqb_eq in E. intros Hn. inversion Hn; subst. exact Hk.
    + exact IH.
Qed.

Lemma repeats_sender_not_NoDup path : repeats_sender path -> ~ NoDup path.
Proof.
  intros [prefix [sender ->]] Hnd.
  apply NoDup_remove_2 in Hnd. apply Hnd. apply in_app_iff. right. now left.
Qed.

Lemma logs_grow_by_refl P s : logs_grow_by P s s.
Proof.
  split; [auto|]. intros id n Hn. exists n. split; [assumption|].
  split; [reflexivity|]. intros r. exists []. rewrite app_nil_r.
  split; [reflexivity | intros e []].
Qed.

Lemma logs_grow_by_trans P s1 s2 s3 :
  logs_grow_by P s1 s2 -> logs_grow_by P s2 s3 -> logs_grow_by P s1 s3.
Proof.
  intros [N12 H12] [N23 H23]. split; [auto|].
  intros id n Hn. destruct (H12 id n Hn) as [n2 [Hn2 [Hid2 Hlog2]]].
  destruct (H23 id n2 Hn2) as [n3 [Hn3 [Hid3 Hlog3]]].
  exists n3. split; [assumption|]. split; [congruence|].
  intros r. destruct (Hlog2 r) as [new2 [E2 P2]]. destruct (Hlog3 r) as [new3 [E3 P3]].
  exists (new2 ++ new3). rewrite E3, E2, app_assoc. split; [reflexivity|].
  intros e He. apply in_app_iff in He. destruct He; auto.
Qed.

(** Storing under a registered key a node of the same id whose logs have
    grown makes the logs of the system grow. *)
Lemma set_node_grows P s key n n' :
  Dict.get (nodes s) key = Some n ->
  node_id n' = node_id n ->
  (forall r, exists new,
      get_list (received_messages n') r = get_list (received_messages n) r ++ new /\
      forall entry, In entry new -> P (snd entry)) ->
  logs_grow_by P s (set_nodes s (Dict.set (nodes s) key n')).
Proof.
  intros Hn Hid Hlog. split; cbn [nodes set_nodes].
  - intros id Hnone. destruct (Z.eq_dec key id) as [-> | Hne]; [congruence|].
    now rewrite get_set_neq.
  - intros id m Hm. destruct (Z.eq_dec key id) as [-> | Hne].
    + assert (m = n) by congruence. subst m. exists n'.
      rewrite get_set_eq. auto.
    + exists m. rewrite get_set_neq by assumption.
      split; [assumption|]. split; [reflexivity|].
      intros r. exists []. rewrite app_nil_r. split; [reflexivity | intros e []].
Qed.

Lemma deliver_message_grows (P : list Z -> Prop) s target message :
  P (msg_path message) ->
  logs_grow_by P s (deliver_message s target message).
Proof.
  intros HP. unfold deliver_message.
  destruct (Dict.get (nodes s) target) as [receiver|] eqn:Hr;
    [|apply logs_grow_by_refl].
  apply (set_node_grows P s target receiver); [assumption | reflexivity|].
  intros r. destruct (receive_message_get receiver message r) as [Hlog _].
  unfold get_list at 1. rewrite Hlog.
  destruct (r =? msg_round message).
  - exists [(msg_value message, msg_path message)]. split; [reflexivity|].
    intros e [<- | []]. exact HP.
  - exists []. rewrite app_nil_r. split; [reflexivity | intros e []].
Qed.

Lemma send_message_grows (P : list Z -> Prop) s key v target round_num path :
  (forall self, Dict.get (nodes s) key = Some self -> P (path ++ [node_id self])) ->
  logs_grow_by P s (send_message s key v target round_num path).
Proof.
  intros HP. unfold send_message.
  destruct (Dict.get (nodes s) key) as [self|] eqn:Hs; [|apply logs_grow_by_refl].
  eapply logs_grow_by_trans; [|apply deliver_message_grows; exact (HP self eq_refl)].
  apply (set_node_grows P s key self); [assumption | reflexivity|].
  intros r. exists []. rewrite app_nil_r. split; [reflexivity | intros e []].
Qed.

Lemma logs_grow_by_keyed P s s' :
  logs_grow_by P s s' ->
  (forall key n, Dict.get (nodes s) key = Some n -> node_id n = key) ->
  forall key n, Dict.get (nodes s') key = Some n -> node_id n = key.
Proof.
  intros [Hnone Hsome] Hk key n' Hn'.
  destruct (Dict.get (nodes s) key) as [n|] eqn:Hn.
  - destruct (Hsome key n Hn) as [n2 [Hn2 [Hid _]]].
    assert (n2 = n') by congruence. subst n2. rewrite Hid. now apply Hk.
  - rewrite (Hnone key Hn) in Hn'. discriminate.
Qed.

Lemma send_along_grows v round_num path :
  forall rest s current,
    (forall key n, Dict.get (nodes s) key = Some n -> node_id n = key) ->
    In current path -> incl rest path ->
    logs_grow_by repeats_sender s (send_along s v round_num path current rest).
Proof.
  induction rest as [|next rest IH]; intros s current Hk Hcur Hincl; simpl.
  - apply logs_grow_by_refl.
  - set (s1 := if Dict.mem (nodes s) current && Dict.mem (nodes s) next
               then send_message s current v next round_num
                                 (prefix_through current path)
               else s).
    assert (H1 : logs_grow_by repeats_sender s s1).
    { unfold s1. destruct (Dict.mem (nodes s) current && Dict.mem (nodes s) next);
        [|apply logs_grow_by_refl].
      apply send_message_grows. intros self Hself.
      destruct (prefix_through_ends current path Hcur) as [prefix Hp].
      exists prefix, current. rewrite Hp, (Hk current self Hself), <- app_assoc.
      reflexivity. }
    eapply logs_grow_by_trans; [exact H1|].
    apply IH.
    + exact (logs_grow_by_keyed _ _ _ H1 Hk).
    + apply Hincl. now left.
    + intros x Hx. apply Hincl. now right.
Qed.

Lemma find_disjoint_paths_simple g source target k path :
  In path (find_disjoint_paths g source target k) ->
  simple_path g source target path.
Proof.
  unfold find_disjoint_paths. destruct (source =? target); [intros []|].
  intros Hin.
  destruct (select_disjoint_sound k
              (sort_by_len (find_all_paths g source target default_max_length))
              [] [] I (fun p e (H : In p []) => match H with end))
    as [_ [Hsub _]].
  destruct (Hsub path Hin) as [[] | Hall].
  apply (proj1 (in_sort_by_len _ _)) in Hall.
  eapply find_all_paths_simple; eassumption.
Qed.

Lemma send_via_multipath_grows s source target v round_num k :
  keyed_by_id s ->
  logs_grow_by repeats_sender s (send_via_multipath s source target v round_num k).
Proof.
  intros Hkeyed. pose proof (keyed_by_id_get s Hkeyed) as Hk. clear Hkeyed.
  unfold send_via_multipath. destruct (source =? target); [apply logs_grow_by_refl|].
  assert (Hpaths : forall p, In p (find_disjoint_paths (graph s) source target k) ->
                             hd_error p = Some source).
  { intros p Hp. apply find_disjoint_paths_simple in Hp. exact (proj1 Hp). }
  revert Hpaths. generalize (find_disjoint_paths (graph s) source target k).
  intros paths. revert s Hk.
  induction paths as [|p paths IH]; intros s Hk Hpaths; simpl.
  - apply logs_grow_by_refl.
  - set (s1 := if len p <? 2 then s
               else send_along s v round_num p source (tl p)).
    assert (H1 : logs_grow_by repeats_sender s s1).
    { unfold s1. destruct (len p <? 2); [apply logs_grow_by_refl|].
      assert (Hhd : hd_error p = Some source) by (apply Hpaths; now left).
      destruct p as [|x rest]; [discriminate|]. inversion Hhd; subst x.
      apply send_along_grows; [assumption | now left |].
      intros y Hy. now right. }
    eapply logs_grow_by_trans; [exact H1|].
    apply IH.
    + exact (logs_grow_by_keyed _ _ _ H1 Hk).
    + intros q Hq. apply Hpaths. now right.
Qed.

(** X21. Every message that [send_via_multipath] sends leaves in the log
    of its receiver a path that names the sender twice: on a system whose
    nodes are stored under their own ids, the call keeps every node and
    adds to the end of its log of every round only pairs whose path ends
    with the same id twice, so no such path is free of repetition. The
    prefix [path[:index + 1]] already ends with the sender and
    [send_message] appends the sender again. *)
Theorem send_via_multipath_repeats_sender (s : BFT) (source target : Z)
    (v : value) (round_num k : Z) (id : Z) (n : Node) :
  keyed_by_id s ->
  Dict.get (nodes s) id = Some n ->
  exists n',
    Dict.get (nodes (send_via_multipath s source target v round_num k)) id = Some n' /\
    forall r, exists new,
      get_list (received_messages n') r = get_list (received_messages n) r ++ new /\
      forall entry, In entry new ->
                    repeats_sender (snd entry) /\ ~ NoDup (snd entry).
Proof.
  intros Hkeyed Hn.
  destruct (send_via_multipath_grows s source target v round_num k Hkeyed)
    as [_ Hgrow].
  destruct (Hgrow id n Hn) as [n' [Hn' [_ Hlog]]].
  exists n'. split; [assumption|].
  intros r. destruct (Hlog r) as [new [Hnew HP]]. exists new.
  split; [assumption|]. intros entry He.
  split; [now apply HP | apply repeats_sender_not_NoDup; now apply HP].
Qed.

Lemma send_via_multipath_repeats_sender_witness :
  exists n',
    Dict.get (nodes (send_via_multipath two_generals 0 1 ATTACK 0 1)) 1 = Some n' /\
    forall r, exists new,
      get_list (received_messages n') r
        = get_list (received_messages (new_node 1 [0] false)) r ++ new /\
      forall entry, In entry new ->
                    repeats_sender (snd entry) /\ ~ NoDup (snd entry).
Proof.
  apply (send_via_multipath_repeats_sender two_generals 0 1 ATTACK 0 1 1
           (new_node 1 [0] false)).
  - unfold keyed_by_id. simpl. repeat constructor.
  - reflexivity.
Defined.
